(** * Lovable Chat Exporter: capture store, history driver and renderers

  A shallow embedding of [content.js] (the content script) and of the
  storage helpers of [popup.js], with the properties of the capture
  engine stated and proved over it.

  Conventions of the embedding:
  - JavaScript strings are [string]s of 8-bit code units;
  - [topPx] values (the result of [parseFloat(el.style.top) || 0], never
    NaN) are integers, only their order and their difference's sign are
    used by the code;
  - a plain JavaScript object used as a map is the list of its own
    properties in [[OwnPropertyKeys]] order (array-index keys first, in
    ascending numeric order, then the other keys in creation order);
    the read [capturedMessages[id]] of the scan looks at the own
    properties and then at the properties of [Object.prototype];
  - [chrome.storage.local] is a finite map from keys to stored values;
  - timers are due times on a millisecond clock; the callback of a save
    is in two parts, before and after the [await] of its write. *)

From Stdlib Require Import ZArith NArith List String Ascii Bool Lia Sorted Permutation DecimalString.
From stdpp Require Import gmap strings.

Set Warnings "-register-all".

(* ================================================================== *)
(** * Strings *)
(* ================================================================== *)

Module JsString.

(** White space and line terminators removed by [String.prototype.trim]
    (the ones that exist among 8-bit code units). *)
Definition is_space (c : ascii) : bool :=
  let n := N_of_ascii c in
  ((9 <=? n) && (n <=? 13) || (n =? 32) || (n =? 160))%N.

Fixpoint trimStart (s : string) : string :=
  match s with
  | EmptyString => EmptyString
  | String c r => if is_space c then trimStart r else s
  end.

Fixpoint rev_acc (s acc : string) : string :=
  match s with
  | EmptyString => acc
  | String c r => rev_acc r (String c acc)
  end.

Definition rev (s : string) : string := rev_acc s EmptyString.

Definition trimEnd (s : string) : string := rev (trimStart (rev s)).

(** [s.trim()] *)
Definition trim (s : string) : string := trimEnd (trimStart s).

(** [l.join(sep)] *)
Definition join (sep : string) (l : list string) : string := String.concat sep l.

(** [s.startsWith(p)] *)
Definition startsWith (p s : string) : bool := String.prefix p s.

(** Truthiness of a string: only the empty string is falsy. *)
Definition truthy (s : string) : bool :=
  match s with EmptyString => false | _ => true end.

(** [s.replace(/c/g, by)] for a one-character pattern [c]. *)
Fixpoint replaceAll (c : ascii) (by_ : string) (s : string) : string :=
  match s with
  | EmptyString => EmptyString
  | String x r =>
      if Ascii.eqb x c then by_ +:+ replaceAll c by_ r
      else String x (replaceAll c by_ r)
  end.

(** Membership of a code unit in a string. *)
Fixpoint mem (c : ascii) (s : string) : bool :=
  match s with
  | EmptyString => false
  | String x r => Ascii.eqb x c || mem c r
  end.

(** [s.replace(/\/$/, '')]: drops one trailing slash, if there is one. *)
Fixpoint stripTrailingSlash (s : string) : string :=
  match s with
  | EmptyString => EmptyString
  | String c r =>
      match r with
      | EmptyString => if Ascii.eqb c "/" then EmptyString else s
      | _ => String c (stripTrailingSlash r)
      end
  end.

Definition is_digit (c : ascii) : bool :=
  let n := N_of_ascii c in ((48 <=? n) && (n <=? 57))%N.

Definition is_alpha (c : ascii) : bool :=
  let n := N_of_ascii c in
  ((65 <=? n) && (n <=? 90) || (97 <=? n) && (n <=? 122))%N.

(** The class [\w] of regular expressions. *)
Definition is_word (c : ascii) : bool :=
  is_alpha c || is_digit c || Ascii.eqb c "_".

(** [s.replace(/[^a-z0-9]/gi, '_')] *)
Fixpoint sanitize (s : string) : string :=
  match s with
  | EmptyString => EmptyString
  | String c r =>
      String (if is_alpha c || is_digit c then c else "_"%char) (sanitize r)
  end.

(** ASCII white space: tab, line feed, form feed, carriage return, space. *)
Definition is_ascii_space (c : ascii) : bool :=
  let n := N_of_ascii c in
  ((n =? 9) || (n =? 10) || (n =? 12) || (n =? 13) || (n =? 32))%N.

(** Splitting on ASCII white space, as a [class] attribute is split into
    tokens. *)
Fixpoint tokens_aux (s cur : string) : list string :=
  match s with
  | EmptyString => if truthy cur then [rev cur] else []
  | String c r =>
      if is_ascii_space c
      then (if truthy cur then rev cur :: tokens_aux r EmptyString
            else tokens_aux r EmptyString)
      else tokens_aux r (String c cur)
  end.

Definition tokens (s : string) : list string := tokens_aux s EmptyString.

End JsString.

(* ================================================================== *)
(** * The document tree *)
(* ================================================================== *)

Module Dom.

(** Tag names are the lower-case local names of HTML elements. *)
Inductive node : Type :=
| Text (data : string)
| Comment (data : string)
| Element (tagName : string) (attrs : list (string * string)) (childNodes : list node).

Definition isElement (n : node) : bool :=
  match n with Element _ _ _ => true | _ => false end.

Definition tag (n : node) : string :=
  match n with Element t _ _ => t | _ => EmptyString end.

Definition childNodes_of (n : node) : list node :=
  match n with Element _ _ cs => cs | _ => [] end.

Fixpoint assoc (k : string) (l : list (string * string)) : option string :=
  match l with
  | [] => None
  | (k', v) :: r => if String.eqb k' k then Some v else assoc k r
  end.

(** [el.getAttribute(name)] *)
Definition getAttribute (name : string) (n : node) : option string :=
  match n with Element _ a _ => assoc name a | _ => None end.

(** [el.className], the empty string without a [class] attribute. *)
Definition className (n : node) : string :=
  match getAttribute "class" n with Some c => c | None => EmptyString end.

Definition hasClass (c : string) (n : node) : bool :=
  existsb (String.eqb c) (JsString.tokens (className n)).

(** [node.textContent] of an element or text node: the text of the
    descendants, comments left out. *)
Fixpoint textContent (n : node) : string :=
  match n with
  | Text s => s
  | Comment _ => EmptyString
  | Element _ _ cs =>
      (fix go (l : list node) : string :=
         match l with
         | [] => EmptyString
         | c :: r => textContent c +:+ go r
         end) cs
  end.

(** A descendant together with what selectors and sibling access look
    at: the tags of its ancestors (nearest first) and the nodes that
    follow it under the same parent. *)
Record located : Type := Located {
  ancestors : list string;
  self : node;
  following : list node
}.

(** The descendants of [n] in document order. *)
Fixpoint locate (anc : list string) (n : node) : list located :=
  match n with
  | Element t _ cs =>
      (fix go (l : list node) : list located :=
         match l with
         | [] => []
         | c :: r => Located (t :: anc) c r :: locate (t :: anc) c ++ go r
         end) cs
  | _ => []
  end.

(** [el.querySelectorAll(sel)], the selector given as a predicate. *)
Definition querySelectorAll (sel : located -> bool) (n : node) : list located :=
  List.filter (fun d => isElement (self d) && sel d) (locate [] n).

(** [el.querySelector(sel)] *)
Definition querySelector (sel : located -> bool) (n : node) : option located :=
  head (querySelectorAll sel n).

(** [el.nextElementSibling] *)
Definition nextElementSibling (d : located) : option node :=
  head (List.filter isElement (following d)).

(** [node.closest(t)] for a type selector, on the ancestors alone. *)
Definition hasAncestor (t : string) (d : located) : bool :=
  existsb (String.eqb t) (ancestors d).

End Dom.

(* ================================================================== *)
(** * Message records and the fragment parser *)
(* ================================================================== *)

Inductive Role : Type := user | ai.

(** The object built by [parseMessageElement]:
    [{ id, role, timestampText, topPx, contentHtml, contentText }]. *)
Record Message : Type := mkMessage {
  id : string;
  role : Role;
  timestampText : string;
  topPx : Z;
  contentHtml : string;
  contentText : string
}.

Definition nl : string := String "010"%char EmptyString.

Module Parser.

Import Dom.

(** A candidate node of [document.querySelectorAll('[data-message-id]')],
    with the value of [parseFloat(el.style.top)] ([None] for NaN). *)
Record Candidate : Type := mkCandidate {
  el : node;
  style_top : option Z
}.

(** [.text-muted-foreground.font-medium] *)
Definition sel_date (d : located) : bool :=
  hasClass "text-muted-foreground" (self d) && hasClass "font-medium" (self d).

(** [.PromptBox_customProse__le_d3, .prose] *)
Definition sel_user_prose (d : located) : bool :=
  hasClass "PromptBox_customProse__le_d3" (self d) || hasClass "prose" (self d).

(** [.prose] *)
Definition sel_prose (d : located) : bool := hasClass "prose" (self d).

(** [button span.truncate] *)
Definition sel_thought (d : located) : bool :=
  String.eqb (tag (self d)) "span" && hasClass "truncate" (self d)
  && hasAncestor "button" d.

(** [button .truncate] *)
Definition sel_tool (d : located) : bool :=
  hasClass "truncate" (self d) && hasAncestor "button" d.

(** [arr.filter(Boolean)] on an array of strings and [undefined]s. *)
Definition filterBoolean (l : list (option string)) : list string :=
  flat_map (fun o => match o with
                     | Some s => if JsString.truthy s then [s] else []
                     | None => []
                     end) l.

(** Lines 57 to 60: the date label, the element right after it, and the
    join of what is there of their trimmed texts. *)
Definition dateSpan (e : node) : option located := querySelector sel_date e.

Definition timeSpan (e : node) : option node :=
  match dateSpan e with
  | Some d => nextElementSibling d
  | None => None
  end.

Definition timestampOf (e : node) : string :=
  JsString.join " "
    (filterBoolean
       [ option_map (fun d => JsString.trim (textContent (self d))) (dateSpan e);
         option_map (fun t => JsString.trim (textContent t)) (timeSpan e) ]).

(** The rule as the specification states it: when either label is
    absent the timestamp is the empty string. *)
Definition absent_label_gives_empty : Prop :=
  forall e : node, dateSpan e = None \/ timeSpan e = None -> timestampOf e = EmptyString.

(** [parseFloat(el.style.top) || 0] *)
Definition topOf (c : Candidate) : Z :=
  match style_top c with Some z => z | None => 0%Z end.

(** [el.getAttribute('data-message-id') || el.id] *)
Definition idOf (e : node) : string :=
  match getAttribute "data-message-id" e with
  | Some s => if JsString.truthy s then s
              else match getAttribute "id" e with Some i => i | None => EmptyString end
  | None => match getAttribute "id" e with Some i => i | None => EmptyString end
  end.

Definition roleOf (i : string) : Role :=
  if JsString.startsWith "umsg_" i then user else ai.

Section Content.

(** [el.innerHTML], the serialisation of the children done by the browser. *)
Variable innerHTML : node -> string.

Definition userContent (e : node) : string * string :=
  match querySelector sel_user_prose e with
  | Some p => (innerHTML (self p), JsString.trim (textContent (self p)))
  | None => (EmptyString, EmptyString)
  end.

(** The position of the first match in document order stands for the
    identity of the node that [querySelector] returns. *)
Definition firstIndex (sel : located -> bool) (e : node) : option nat :=
  head (List.filter
          (fun i => match nth_error (locate [] e) i with
                    | Some d => isElement (self d) && sel d
                    | None => false
                    end)
          (seq 0 (length (locate [] e)))).

Definition metaOf (e : node) : list string :=
  let thoughtBtn := querySelector sel_thought e in
  let toolBtn := querySelector sel_tool e in
  (match thoughtBtn with
   | Some t => if JsString.truthy (textContent (self t))
               then [JsString.trim (textContent (self t))] else []
   | None => []
   end)
  ++
  (match toolBtn with
   | Some t =>
       if JsString.truthy (textContent (self t))
          && negb (bool_decide (firstIndex sel_tool e = firstIndex sel_thought e))
       then [JsString.trim (textContent (self t))] else []
   | None => []
   end).

Definition middot : string := String (ascii_of_nat 183) EmptyString.

Definition aiContent (e : node) : string * string :=
  let proseBlocks := querySelectorAll sel_prose e in
  let parts :=
    map (fun p => innerHTML (self p))
      (List.filter (fun p => JsString.truthy (JsString.trim (textContent (self p))))
         proseBlocks) in
  let text :=
    match proseBlocks with
    | [] => JsString.trim (textContent e)
    | _ => JsString.join (nl +:+ nl)
             (map (fun p => JsString.trim (textContent (self p))) proseBlocks)
    end in
  let meta := metaOf e in
  (JsString.join nl parts,
   match meta with
   | [] => text
   | _ => "[" +:+ JsString.join (" " +:+ middot +:+ " ") meta +:+ "]" +:+ nl +:+ nl +:+ text
   end).

Definition parseMessageElement (c : Candidate) : option Message :=
  let i := idOf (el c) in
  if JsString.truthy i then
    let r := roleOf i in
    let '(html, text) :=
      match r with
      | user => userContent (el c)
      | ai => aiContent (el c)
      end in
    Some {| id := i; role := r; timestampText := timestampOf (el c);
            topPx := topOf c; contentHtml := html; contentText := text |}
  else None.

End Content.

End Parser.

(* ================================================================== *)
(** * The message store: a plain object keyed by message id *)
(* ================================================================== *)

Module Store.

(** The own properties of [capturedMessages], in the order in which
    [Object.keys] and [Object.values] list them. *)
Definition store : Type := list (string * Message).

Definition digit (c : ascii) : option N :=
  if JsString.is_digit c then Some (N_of_ascii c - 48)%N else None.

Fixpoint decimal (s : string) (acc : N) : option N :=
  match s with
  | EmptyString => Some acc
  | String c r =>
      match digit c with
      | Some d => decimal r (10 * acc + d)%N
      | None => None
      end
  end.

(** A property key is an array index when it is the canonical decimal
    form of an integer from 0 to 2^32 - 2: these keys are listed first,
    in ascending numeric order. *)
Definition array_index (k : string) : option N :=
  match k with
  | EmptyString => None
  | String c r =>
      if Ascii.eqb c "0" then
        match r with EmptyString => Some 0%N | _ => None end
      else
        match decimal k 0 with
        | Some n => if (n <=? 4294967294)%N then Some n else None
        | None => None
        end
  end.

(** The own property [k] of [capturedMessages], [None] when the object
    has no own property of that name. *)
Fixpoint get (st : store) (k : string) : option Message :=
  match st with
  | [] => None
  | (k', v) :: r => if String.eqb k' k then Some v else get r k
  end.

(** Creation of the array-index property [k] (of index [n]). *)
Fixpoint create_index (n : N) (k : string) (v : Message) (st : store) : store :=
  match st with
  | [] => [(k, v)]
  | (k', v') :: r =>
      match array_index k' with
      | Some n' =>
          if (n' <? n)%N then (k', v') :: create_index n k v r
          else (k, v) :: st
      | None => (k, v) :: st
      end
  end.

(** [capturedMessages[k] = v] for a key that is not yet a property. *)
Definition create (st : store) (k : string) (v : Message) : store :=
  match array_index k with
  | Some n => create_index n k v st
  | None => st ++ [(k, v)]
  end.

(** [capturedMessages[k] = v] for a key that is a property already: the
    value changes, the position does not. *)
Fixpoint overwrite (st : store) (k : string) (v : Message) : store :=
  match st with
  | [] => []
  | (k', v') :: r =>
      if String.eqb k' k then (k', v) :: r else (k', v') :: overwrite r k v
  end.

(** [capturedMessages[k] = v] *)
Definition set (st : store) (k : string) (v : Message) : store :=
  match get st k with
  | Some _ => overwrite st k v
  | None => create st k v
  end.

(** [m.topPx = t] *)
Definition with_topPx (t : Z) (m : Message) : Message :=
  {| id := id m; role := role m; timestampText := timestampText m;
     topPx := t; contentHtml := contentHtml m; contentText := contentText m |}.

(** [capturedMessages[k].topPx = t] for a key that is a property. *)
Fixpoint set_topPx (st : store) (k : string) (t : Z) : store :=
  match st with
  | [] => []
  | (k', v) :: r =>
      if String.eqb k' k then (k', with_topPx t v) :: r
      else (k', v) :: set_topPx r k t
  end.

(** [Object.keys(capturedMessages)] and [Object.values(capturedMessages)] *)
Definition keys (st : store) : list string := map fst st.
Definition values (st : store) : list Message := map snd st.

(** [Object.keys(capturedMessages).length] *)
Definition count (st : store) : nat := length (keys st).

(** [capturedMessages] is a plain object ([{}], or the object that
    [chrome.storage] hands back): a name that is no own property is
    looked up in [Object.prototype].  These are the properties of
    [Object.prototype] as the realm creates it; the value of each is a
    function or, for [__proto__], [Object.prototype] itself, and so
    truthy. *)
Definition prototype_names : list string :=
  [ "constructor"; "__defineGetter__"; "__defineSetter__"; "hasOwnProperty";
    "__lookupGetter__"; "__lookupSetter__"; "isPrototypeOf";
    "propertyIsEnumerable"; "toString"; "valueOf"; "__proto__";
    "toLocaleString" ].

Definition inherited (k : string) : bool :=
  existsb (String.eqb k) prototype_names.

(** What the property read [capturedMessages[k]] finds. *)
Inductive property : Type :=
| Own (m : Message)
| Inherited
| Undefined.

(** [capturedMessages[k]]: the own property, or else the one of
    [Object.prototype]. *)
Definition read (st : store) (k : string) : property :=
  match get st k with
  | Some m => Own m
  | None => if inherited k then Inherited else Undefined
  end.

(** The body of the [forEach] of [scanVisibleMessages] for a parsed
    message: the new store and what is added to [newCount].  The test
    [!capturedMessages[msg.id]] holds for [undefined] only.  For an id
    that names a property of [Object.prototype] the [else] branch runs:
    nothing is inserted or counted, and [topPx] is set on the inherited
    object, which is no property of the map.  (For the id [__proto__]
    that object is [Object.prototype] itself, which then has a property
    [topPx]; the map is followed here, [Object.prototype] is not, and
    the statements about new ids leave the id [topPx] out.) *)
Definition upsert (st : store) (msg : Message) : store * nat :=
  match read st (id msg) with
  | Undefined => (create st (id msg) msg, 1)
  | Own _ => (set_topPx st (id msg) (topPx msg), 0)
  | Inherited => (st, 0)
  end.

Definition scan_step (acc : store * nat) (parsed : option Message) : store * nat :=
  match parsed with
  | None => acc
  | Some msg => let '(st', d) := upsert (fst acc) msg in (st', snd acc + d)
  end.

(** The loop of [scanVisibleMessages] over the parse results of the
    candidates: the store afterwards and [newCount]. *)
Definition scan (parsed : list (option Message)) (st : store) : store * nat :=
  fold_left scan_step parsed (st, 0).

(** The ids that a scan meets, in the order of the scan. *)
Definition seen (parsed : list (option Message)) : list string :=
  flat_map (fun p => match p with Some m => [id m] | None => [] end) parsed.

(** The comparator [(a, b) => a.topPx - b.topPx]. *)
Definition compareTopPx (a b : Message) : Z := (topPx a - topPx b)%Z.

(** [Array.prototype.sort(cmp)], a stable sort: an element is put in
    front of the elements that followed it in the array, after the ones
    among them that compare smaller than it. *)
Fixpoint insert_sorted (cmp : Message -> Message -> Z) (x : Message)
    (l : list Message) : list Message :=
  match l with
  | [] => [x]
  | y :: r => if (cmp x y <=? 0)%Z then x :: l else y :: insert_sorted cmp x r
  end.

Definition sort (cmp : Message -> Message -> Z) (l : list Message) : list Message :=
  fold_right (fun x acc => insert_sorted cmp x acc) [] l.

(** [getSortedMessages()] *)
Definition getSortedMessages (st : store) : list Message :=
  sort compareTopPx (values st).

(** Own-property order of two keys: array indices ascending, then the
    other keys. *)
Definition key_before (k1 k2 : string) : Prop :=
  match array_index k1, array_index k2 with
  | Some n1, Some n2 => (n1 < n2)%N
  | Some _, None => True
  | None, Some _ => False
  | None, None => True
  end.

(** The store is well formed when every record is stored under its own
    id, no id occurs twice, and the properties are in own-property order. *)
Record wf (st : store) : Prop := mk_wf {
  wf_keyed : Forall (fun kv => fst kv = id (snd kv)) st;
  wf_nodup : List.NoDup (keys st);
  wf_order : StronglySorted key_before (keys st)
}.

(** A record as the property it is stored as. *)
Definition entry (m : Message) : string * Message := (id m, m).

Definition indexed (k : string) : bool :=
  match array_index k with Some _ => true | None => false end.

(** The array-index properties of a store, and the others. *)
Definition index_part (st : store) : store :=
  List.filter (fun kv => indexed (fst kv)) st.

Definition rest_part (st : store) : store :=
  List.filter (fun kv => negb (indexed (fst kv))) st.

(** The records whose id is not an array index. *)
Definition rest_messages (l : list Message) : list Message :=
  List.filter (fun m => negb (indexed (id m))) l.

(** The records whose [topPx] is [t]. *)
Definition at_top (t : Z) (l : list Message) : list Message :=
  List.filter (fun m => (topPx m =? t)%Z) l.

(** Ascending order of [topPx]. *)
Definition le_top (a b : Message) : Prop := (topPx a <= topPx b)%Z.

(** The order in which ids are first met: an id that is not yet listed
    goes to the end. *)
Definition first_met (acc : list string) (k : string) : list string :=
  if existsb (String.eqb k) acc then acc else acc ++ [k].

Definition insertion_order (init ids : list string) : list string :=
  fold_left first_met ids init.

(** The reading of the ordering rule that takes [Object.values] to list
    the records in insertion order: of the records inserted one after
    the other into the empty store, those that share a [topPx] come out
    of [getSortedMessages] in the order of their insertion. *)
Definition ties_in_insertion_order : Prop :=
  forall (msgs : list Message) (t : Z),
    List.NoDup (map id msgs) ->
    at_top t (getSortedMessages (fst (scan (map Some msgs) []))) = at_top t msgs.

End Store.

(* ================================================================== *)
(** * Thread keys *)
(* ================================================================== *)

Definition STORAGE_KEY_PREFIX : string := "lce_thread_".

Module Base64.

(** The base64 alphabet of [btoa]. *)
Definition digit (n : N) : ascii :=
  if (n <? 26)%N then ascii_of_N (65 + n)
  else if (n <? 52)%N then ascii_of_N (97 + (n - 26))
  else if (n <? 62)%N then ascii_of_N (48 + (n - 52))
  else if (n =? 62)%N then "+"%char
  else "/"%char.

(** [btoa(s)] on a string of 8-bit code units: three units give four
    digits, the last group is padded with [=]. *)
Fixpoint btoa (s : string) : string :=
  match s with
  | EmptyString => EmptyString
  | String a EmptyString =>
      let x := N_of_ascii a in
      String (digit (x / 4))
        (String (digit ((x mod 4) * 16)) "==")
  | String a (String b EmptyString) =>
      let x := N_of_ascii a in
      let y := N_of_ascii b in
      String (digit (x / 4))
        (String (digit ((x mod 4) * 16 + y / 16))
           (String (digit ((y mod 16) * 4)) "="))
  | String a (String b (String c r)) =>
      let x := N_of_ascii a in
      let y := N_of_ascii b in
      let z := N_of_ascii c in
      String (digit (x / 4))
        (String (digit ((x mod 4) * 16 + y / 16))
           (String (digit ((y mod 16) * 4 + z / 64))
              (String (digit (z mod 64)) (btoa r))))
  end.

End Base64.

(** What the scripts read of a URL or of [location]. *)
Record URL : Type := mkURL {
  hostname : string;
  pathname : string
}.

Module Content.

(** [getThreadKey()] of the content script, [location] given. *)
Definition getThreadKey (location : URL) : string :=
  let path := JsString.stripTrailingSlash (pathname location) in
  STORAGE_KEY_PREFIX +:+ JsString.sanitize (Base64.btoa path).

End Content.

Module Popup.

(** [getThreadKey(url)] of the popup, on the result of [new URL(url)]. *)
Definition getThreadKey (url : URL) : string :=
  let path := JsString.stripTrailingSlash (pathname url) in
  STORAGE_KEY_PREFIX +:+ JsString.sanitize (Base64.btoa path).

End Popup.

(* ================================================================== *)
(** * The content script and the popup over storage and timers *)
(* ================================================================== *)

(** The state that the two scripts share or own: the variables of the
    content script, its [location], [chrome.storage.local], the clock in
    milliseconds, the due times of the pending [setTimeout] callbacks of
    [flushSave], and the times at which [chrome.storage.local.set] was
    called. *)
Record World : Type := mkWorld {
  capturedMessages : Store.store;
  pendingSave : bool;
  isAutoScrolling : bool;
  location : URL;
  storage : gmap string Store.store;
  clock : nat;
  timers : list nat;
  writes : list nat
}.

Definition set_captured (st : Store.store) (w : World) : World :=
  {| capturedMessages := st; pendingSave := pendingSave w;
     isAutoScrolling := isAutoScrolling w; location := location w;
     storage := storage w; clock := clock w; timers := timers w;
     writes := writes w |}.

Definition set_autoScrolling (b : bool) (w : World) : World :=
  {| capturedMessages := capturedMessages w; pendingSave := pendingSave w;
     isAutoScrolling := b; location := location w;
     storage := storage w; clock := clock w; timers := timers w;
     writes := writes w |}.

Definition set_storage (s : gmap string Store.store) (w : World) : World :=
  {| capturedMessages := capturedMessages w; pendingSave := pendingSave w;
     isAutoScrolling := isAutoScrolling w; location := location w;
     storage := s; clock := clock w; timers := timers w;
     writes := writes w |}.

(** [loadMessages()]: [result[key] || {}]. *)
Definition loadMessages (w : World) : Store.store :=
  match storage w !! Content.getThreadKey (location w) with
  | Some st => st
  | None => []
  end.

(** [flushSave()]: nothing while a save is pending; otherwise the flag is
    raised and the callback is due 400 ms from now. *)
Definition flushSave (w : World) : World :=
  if pendingSave w then w
  else {| capturedMessages := capturedMessages w; pendingSave := true;
          isAutoScrolling := isAutoScrolling w; location := location w;
          storage := storage w; clock := clock w;
          timers := timers w ++ [clock w + 400];
          writes := writes w |}.

(** The callback of [flushSave] up to its [await], run at its due time:
    [saveMessages] takes the thread key of that moment and hands the map
    of that moment to [chrome.storage.local.set].  The flag stays up
    while the write is in flight. *)
Definition saveStart (w : World) (due : nat) : World :=
  {| capturedMessages := capturedMessages w; pendingSave := pendingSave w;
     isAutoScrolling := isAutoScrolling w; location := location w;
     storage := <[Content.getThreadKey (location w) := capturedMessages w]> (storage w);
     clock := clock w; timers := timers w;
     writes := writes w ++ [due] |}.

(** The rest of the callback, run when the write has completed:
    [pendingSave = false], then [updateButtonLabel()].  When the button
    is in the document its label is rewritten, a change that the
    observer answers with a scan: a scan like the others of a run. *)
Definition saveDone (w : World) : World :=
  {| capturedMessages := capturedMessages w; pendingSave := false;
     isAutoScrolling := isAutoScrolling w; location := location w;
     storage := storage w; clock := clock w; timers := timers w;
     writes := writes w |}.

(** The callback whose write completes before anything else runs. *)
Definition saveCallback (w : World) (due : nat) : World :=
  saveDone (saveStart w due).

(** [dt] milliseconds pass: the callbacks that fall due run, in order. *)
Definition tick (dt : nat) (w : World) : World :=
  let t := clock w + dt in
  let due := List.filter (fun d => d <=? t) (timers w) in
  let later := List.filter (fun d => negb (d <=? t)) (timers w) in
  fold_left saveCallback due
    {| capturedMessages := capturedMessages w; pendingSave := pendingSave w;
       isAutoScrolling := isAutoScrolling w; location := location w;
       storage := storage w; clock := t; timers := later;
       writes := writes w |}.

Section Capture.

Variable innerHTML : Dom.node -> string.

(** [scanVisibleMessages()], the candidates of the document given. *)
Definition scanVisibleMessages (els : list Parser.Candidate) (w : World) : World * nat :=
  let '(st, newCount) :=
    Store.scan (map (Parser.parseMessageElement innerHTML) els) (capturedMessages w) in
  let w' := set_captured st w in
  (if 0 <? newCount then flushSave w' else w', newCount).

(** The listener of [chrome.runtime.onMessage] on the action
    [clearMessages] (lines 708 to 712): [capturedMessages = {}], then
    [updateButtonLabel()] and [showToast(...)].  [showToast] appends the
    toast to [document.body], a change of the child list that the
    observer of [startObserver], once [initialize] has started it,
    answers with [scanVisibleMessages()] as soon as the listener has
    returned.  [observing] tells whether the observer has been started,
    [els] are the candidates that the document holds at that moment.
    (The toast is removed 3.8 s later, one more change and one more
    scan: a scan like the others of a run.) *)
Definition onClearMessages (observing : bool) (els : list Parser.Candidate)
    (w : World) : World :=
  let w0 := set_captured [] w in
  if observing then fst (scanVisibleMessages els w0) else w0.

End Capture.

(** [getMessages(tabUrl)] and [clearMessages(tabUrl)] of the popup. *)
Definition popup_getMessages (tabUrl : URL) (w : World) : Store.store :=
  match storage w !! Popup.getThreadKey tabUrl with
  | Some st => st
  | None => []
  end.

Definition popup_clearMessages (tabUrl : URL) (w : World) : World :=
  set_storage (delete (Popup.getThreadKey tabUrl) (storage w)) w.

(** The [onclick] of [btn-clear] (popup, lines 86 to 92): after
    [confirm], [await clearMessages(tab.url)] removes the durable
    record, then [clearMessages] is sent to the content script, which
    handles it [gap] milliseconds after the removal; the callbacks of
    the content script that fall due in between run first. *)
Definition btn_clear_onclick (innerHTML : Dom.node -> string) (confirmed : bool)
    (tabUrl : URL) (gap : nat) (observing : bool) (els : list Parser.Candidate)
    (w : World) : World :=
  if confirmed
  then onClearMessages innerHTML observing els (tick gap (popup_clearMessages tabUrl w))
  else w.

(** A burst of calls of [flushSave]: a first call now, then one more call
    after each of the given gaps (in milliseconds). *)
Definition call_after (w : World) (gap : nat) : World := flushSave (tick gap w).

Definition burst (gaps : list nat) (w : World) : World :=
  fold_left call_after gaps (flushSave w).

Definition set_clock (t : nat) (w : World) : World :=
  {| capturedMessages := capturedMessages w; pendingSave := pendingSave w;
     isAutoScrolling := isAutoScrolling w; location := location w;
     storage := storage w; clock := t; timers := timers w;
     writes := writes w |}.

(** No save is pending and no callback is waiting. *)
Definition idle (w : World) : Prop :=
  pendingSave w = false /\ timers w = [].

(** The debounce as the specification states it: every call within the
    window restarts the delay, so that the one write of a burst whose
    calls are less than 400 ms apart happens 400 ms after its last call. *)
Definition trailing_edge_debounce : Prop :=
  forall (w : World) (gaps : list nat),
    idle w ->
    Forall (fun g => g < 400) gaps ->
    writes (tick 400 (burst gaps w))
    = writes w ++ [clock w + list_sum gaps + 400].

(* ================================================================== *)
(** * The history-completion driver *)
(* ================================================================== *)

Module Driver.

(** What [findScrollContainer()] returns of the container it finds. *)
Record Scrollable : Type := mkScrollable {
  scrollHeight : Z;
  clientHeight : Z
}.

(** How a call of [autoScrollAndCapture] ends: at once because a run is
    active, with the error toast because there is no container, or with
    the toast that reports the count, after [iterations] rounds of the
    loop and with the container scrolled to [scrollTop]. *)
Inductive Outcome : Type :=
| AlreadyRunning
| NoContainer
| Captured (iterations : nat) (reported : nat) (scrollTop : Z).

Section Loop.

Variable innerHTML : Dom.node -> string.

(** [src i] is the candidate set that the document shows at the scan of
    round [i] (rounds counted from 0). *)
Variable src : nat -> list Parser.Candidate.

(** One round of the loop body up to the scan: scroll to the top, sleep
    600 ms, scan. *)
Definition round (i : nat) (w : World) : World :=
  fst (scanVisibleMessages innerHTML (src i) (tick 600 w)).

(** [while (stableRounds < 3) { ... }] from round [i] on; the result
    is the final state and the number of rounds run in all. *)
Fixpoint scroll_loop (fuel : nat) (i lastCount stableRounds : nat) (w : World)
    : option (World * nat) :=
  if 3 <=? stableRounds then Some (w, i)
  else
    match fuel with
    | O => None
    | S fuel' =>
        let w' := round i w in
        let currentCount := Store.count (capturedMessages w') in
        if currentCount =? lastCount
        then scroll_loop fuel' (S i) lastCount (S stableRounds) w'
        else scroll_loop fuel' (S i) currentCount 0 w'
    end.

(** [autoScrollAndCapture()], with the result of [findScrollContainer()]. *)
Definition autoScrollAndCapture (fuel : nat) (scrollEl : option Scrollable)
    (w : World) : option (World * Outcome) :=
  if isAutoScrolling w then Some (w, AlreadyRunning)
  else
    let w1 := set_autoScrolling true w in
    match scrollEl with
    | None => Some (set_autoScrolling false w1, NoContainer)
    | Some c =>
        match scroll_loop fuel 0 0 0 w1 with
        | Some (w2, n) =>
            Some (set_autoScrolling false w2,
                  Captured n (Store.count (capturedMessages w2)) (scrollHeight c))
        | None => None
        end
    end.

(** The state after the first [n] rounds, whether or not the loop runs
    that long. *)
Fixpoint after_rounds (n : nat) (w : World) : World :=
  match n with
  | O => w
  | S n' => round n' (after_rounds n' w)
  end.

(** The record count after the first [n] rounds. *)
Definition count_after (w : World) (n : nat) : nat :=
  Store.count (capturedMessages (after_rounds n w)).

(** The source stops producing new records after [N] rounds: from round
    [N] on a scan leaves the record count as it was. *)
Definition quiet_after (N : nat) (w : World) : Prop :=
  forall n, N <= n -> count_after w (S n) = count_after w n.

(** The same, told of the source: from round [N] on every id that the
    source shows is in the map at the start or was shown in an earlier
    round. *)
Definition nothing_new_after (N : nat) (w : World) : Prop :=
  forall n k, N <= n ->
    In k (Store.seen (map (Parser.parseMessageElement innerHTML) (src n))) ->
    Store.get (capturedMessages w) k <> None
    \/ exists j, j < n
         /\ In k (Store.seen (map (Parser.parseMessageElement innerHTML) (src j))).

(** The value of [lastCount] when round [i] begins: 0 at first, then the
    count after the round before. *)
Definition baseline (w : World) (i : nat) : nat :=
  match i with
  | O => 0
  | S _ => count_after w i
  end.

(** Round [i] finds the count unchanged: after its scan the count is
    what [lastCount] holds. *)
Definition unchanged (w : World) (i : nat) : bool :=
  count_after w (S i) =? baseline w i.

(** The number of rounds in a row, up to round [n], that found the
    count unchanged. *)
Fixpoint streak (w : World) (n : nat) : nat :=
  match n with
  | O => 0
  | S n' => if unchanged w n' then S (streak w n') else 0
  end.

End Loop.

(** The bound as the specification states it: against a source that
    stops producing new records after [N] rounds, a run with a container
    ends within [N + 3] rounds. *)
Definition ends_within_N_plus_3 : Prop :=
  forall (innerHTML : Dom.node -> string) (src : nat -> list Parser.Candidate)
         (w : World) (c : Scrollable) (N : nat),
    isAutoScrolling w = false ->
    quiet_after innerHTML src N (set_autoScrolling true w) ->
    exists fuel w' n reported top,
      autoScrollAndCapture innerHTML src fuel (Some c) w
        = Some (w', Captured n reported top)
      /\ n <= N + 3.

End Driver.

(* ================================================================== *)
(** * Export: HTML and JSON *)
(* ================================================================== *)

Module Render.

Definition dq : string := String (ascii_of_nat 34) EmptyString.

(** [escapeHtml(str)] *)
Definition escapeHtml (str : string) : string :=
  JsString.replaceAll ">" "&gt;"
    (JsString.replaceAll "<" "&lt;"
       (JsString.replaceAll "&" "&amp;" str)).

(** The escaping as the specification words it: each of the three
    characters becomes its entity, every other character stays. *)
Definition escapeChar (c : ascii) : string :=
  if Ascii.eqb c "&" then "&amp;"
  else if Ascii.eqb c "<" then "&lt;"
  else if Ascii.eqb c ">" then "&gt;"
  else String c EmptyString.

Fixpoint escapeEach (s : string) : string :=
  match s with
  | EmptyString => EmptyString
  | String c r => escapeChar c +:+ escapeEach r
  end.

(** [msg.contentHtml || escapeHtml(msg.contentText)], the content of the
    [div] of class [body] of a message. *)
Definition bodyOf (msg : Message) : string :=
  if JsString.truthy (contentHtml msg) then contentHtml msg
  else escapeHtml (contentText msg).

Definition roleClass (r : Role) : string :=
  match r with user => "user" | ai => "ai" end.

Definition roleLabel (r : Role) : string :=
  match r with user => "👤 You" | ai => "🤖 Lovable" end.

(** The template of one message in [exportHTML]. *)
Definition articleOf (msg : Message) : string :=
  nl +:+ "      <article class=" +:+ dq +:+ "message " +:+ roleClass (role msg) +:+ dq +:+ ">" +:+ nl
  +:+ "        <header>" +:+ nl
  +:+ "          <span class=" +:+ dq +:+ "role" +:+ dq +:+ ">" +:+ roleLabel (role msg) +:+ "</span>" +:+ nl
  +:+ "          <span class=" +:+ dq +:+ "ts" +:+ dq +:+ ">" +:+ timestampText msg +:+ "</span>" +:+ nl
  +:+ "        </header>" +:+ nl
  +:+ "        <div class=" +:+ dq +:+ "body" +:+ dq +:+ ">" +:+ bodyOf msg +:+ "</div>" +:+ nl
  +:+ "      </article>".

(** [msgHtml] of [exportHTML]: the articles of the sorted messages; the
    document puts it between a fixed head and a fixed tail. *)
Definition msgHtml (st : Store.store) : string :=
  JsString.join nl (map articleOf (Store.getSortedMessages st)).

(** JSON values, as [JSON.stringify] writes and [JSON.parse] reads them. *)
Inductive json : Type :=
| JNull
| JBool (b : bool)
| JNumber (z : Z)
| JString (s : string)
| JArray (items : list json)
| JObject (fields : list (string * json)).

Definition messageToJSON (m : Message) : json :=
  JObject [ ("id", JString (id m));
            ("role", JString (roleClass (role m)));
            ("timestampText", JString (timestampText m));
            ("topPx", JNumber (topPx m));
            ("contentHtml", JString (contentHtml m));
            ("contentText", JString (contentText m)) ].

(** The object that [exportJSON()] hands to [JSON.stringify], with the
    values of [new Date().toISOString()] and [location.href]. *)
Definition exportJSON (exportedAt href : string) (st : Store.store) : json :=
  JObject [ ("exportedAt", JString exportedAt);
            ("url", JString href);
            ("messageCount", JNumber (Z.of_nat (Store.count st)));
            ("messages", JArray (map messageToJSON (Store.getSortedMessages st))) ].

Fixpoint field (k : string) (fields : list (string * json)) : option json :=
  match fields with
  | [] => None
  | (k', v) :: r => if String.eqb k' k then Some v else field k r
  end.

Definition roleOfString (s : string) : option Role :=
  if String.eqb s "user" then Some user
  else if String.eqb s "ai" then Some ai
  else None.

(** Reading a message record back from its JSON object. *)
Definition messageOfJSON (j : json) : option Message :=
  match j with
  | JObject fs =>
      match field "id" fs, field "role" fs, field "timestampText" fs,
            field "topPx" fs, field "contentHtml" fs, field "contentText" fs with
      | Some (JString i), Some (JString r), Some (JString ts),
        Some (JNumber t), Some (JString h), Some (JString x) =>
          match roleOfString r with
          | Some r' => Some (mkMessage i r' ts t h x)
          | None => None
          end
      | _, _, _, _, _, _ => None
      end
  | _ => None
  end.

Fixpoint messagesOfJSON (l : list json) : option (list Message) :=
  match l with
  | [] => Some []
  | j :: r =>
      match messageOfJSON j, messagesOfJSON r with
      | Some m, Some ms => Some (m :: ms)
      | _, _ => None
      end
  end.

(** The message array of an export. *)
Definition messagesOfExport (j : json) : option (list Message) :=
  match j with
  | JObject fs =>
      match field "messages" fs with
      | Some (JArray items) => messagesOfJSON items
      | _ => None
      end
  | _ => None
  end.

(** The reload of an exported message array into a fresh store, as the
    specification words it: starting from the empty object, each record
    of the array is stored under its id, in array order. *)
Definition loadInto (st0 : Store.store) (messages : list Message) : Store.store :=
  fold_left (fun st m => Store.set st (id m) m) messages st0.

Definition loadFrom (messages : list Message) : Store.store :=
  loadInto [] messages.

End Render.

(* ================================================================== *)
(** * Export: markup to Markdown *)
(* ================================================================== *)

Module Markdown.

Import Dom.

Fixpoint dropPrefix (p s : string) : option string :=
  match p with
  | EmptyString => Some s
  | String a p' =>
      match s with
      | EmptyString => None
      | String b s' => if Ascii.eqb a b then dropPrefix p' s' else None
      end
  end.

Fixpoint takeWord (s : string) : string :=
  match s with
  | EmptyString => EmptyString
  | String c r => if JsString.is_word c then String c (takeWord r) else EmptyString
  end.

(** [cls.match(/language-(\w+)/)?.[1]] *)
Fixpoint matchLanguage (cls : string) : option string :=
  match cls with
  | EmptyString => None
  | String _ r =>
      match dropPrefix "language-" cls with
      | Some rest =>
          if JsString.truthy (takeWord rest) then Some (takeWord rest)
          else matchLanguage r
      | None => matchLanguage r
      end
  end.

(** [s.replace(/\n{3,}/g, '\n\n')]: of a run of line feeds, the first two
    stay when the run has three or more. *)
Fixpoint collapse (run : nat) (s : string) : string :=
  match s with
  | EmptyString => EmptyString
  | String c r =>
      if Ascii.eqb c "010" then
        (if run <? 2 then String c (collapse (S run) r) else collapse (S run) r)
      else String c (collapse 0 r)
  end.

Definition fence : string := "```".

Definition isLI (n : node) : bool :=
  isElement n && String.eqb (tag n) "li".

(** [`${i}`] *)
Definition showNat (i : nat) : string := NilZero.string_of_uint (Nat.to_uint i).

Section Walk.

(** [a.href], the target of a link resolved by the browser, from the
    value of its [href] attribute. *)
Variable resolve : string -> string.

Definition hrefOf (n : node) : string :=
  match getAttribute "href" n with
  | Some h => resolve h
  | None => EmptyString
  end.

(** [walk(node)]; [inPre] tells whether an ancestor of the node is a
    [pre] element, which is what [node.closest('pre')] finds for a
    [code] element. *)
Fixpoint walk (inPre : bool) (n : node) : string :=
  match n with
  | Text s => s
  | Comment _ => EmptyString
  | Element t _ cs =>
      let inside := inPre || String.eqb t "pre" in
      let children :=
        (fix go (l : list node) : string :=
           match l with
           | [] => EmptyString
           | c :: r => walk inside c +:+ go r
           end) cs in
      if String.eqb t "p" then children +:+ nl +:+ nl
      else if String.eqb t "br" then nl
      else if String.eqb t "strong" || String.eqb t "b" then "**" +:+ children +:+ "**"
      else if String.eqb t "em" || String.eqb t "i" then "*" +:+ children +:+ "*"
      else if String.eqb t "code" then
        (if inPre then children else "`" +:+ children +:+ "`")
      else if String.eqb t "pre" then
        let codeEl := querySelector (fun d => String.eqb (tag (self d)) "code") n in
        let lang :=
          match codeEl with
          | Some c =>
              match matchLanguage (className (self c)) with
              | Some l => l
              | None => EmptyString
              end
          | None => EmptyString
          end in
        let code :=
          match codeEl with
          | Some c => textContent (self c)
          | None => textContent n
          end in
        fence +:+ lang +:+ nl +:+ code +:+ nl +:+ fence +:+ nl +:+ nl
      else if String.eqb t "h1" then "# " +:+ children +:+ nl +:+ nl
      else if String.eqb t "h2" then "## " +:+ children +:+ nl +:+ nl
      else if String.eqb t "h3" then "### " +:+ children +:+ nl +:+ nl
      else if String.eqb t "h4" then "#### " +:+ children +:+ nl +:+ nl
      else if String.eqb t "ul" then children +:+ nl
      else if String.eqb t "ol" then
        (fix items (l : list node) (i : nat) : string :=
           match l with
           | [] => EmptyString
           | c :: r =>
               if isLI c
               then showNat (S i) +:+ ". " +:+ walk inside c +:+ nl +:+ items r (S i)
               else walk inside c +:+ items r i
           end) cs 0 +:+ nl
      else if String.eqb t "li" then "- " +:+ children
      else if String.eqb t "a" then
        "[" +:+ children +:+ "]("
        +:+ (if JsString.truthy (hrefOf n) then hrefOf n else "#") +:+ ")"
      else if String.eqb t "hr" then "---" +:+ nl +:+ nl
      else if String.eqb t "blockquote" then
        "> " +:+ JsString.replaceAll "010" (nl +:+ "> ") children +:+ nl +:+ nl
      else children
  end.

(** [htmlToMarkdown(html)], on the nodes that the browser parses [html]
    into as the children of the fresh [div]. *)
Definition htmlToMarkdown (parsed : list node) : string :=
  JsString.trim (collapse 0 (walk false (Element "div" [] parsed))).

End Walk.

End Markdown.

(* ================================================================== *)
(** * Page tests *)
(* ================================================================== *)

Module Pages.

(** The class [[a-zA-Z0-9_-]]. *)
Definition is_id_char (c : ascii) : bool :=
  JsString.is_alpha c || JsString.is_digit c || Ascii.eqb c "_" || Ascii.eqb c "-".

(** A match of [\/(projects|chat)\/[a-zA-Z0-9_-]+] that starts at the
    first character of [s]. *)
Definition after_segment (segment s : string) : bool :=
  match Markdown.dropPrefix segment s with
  | Some (String c _) => is_id_char c
  | _ => false
  end.

Definition matches_here (s : string) : bool :=
  after_segment "/projects/" s || after_segment "/chat/" s.

(** [/\/(projects|chat)\/[a-zA-Z0-9_-]+/.test(s)]: a match anywhere. *)
Fixpoint chatPath (s : string) : bool :=
  matches_here s
  || match s with
     | EmptyString => false
     | String _ r => chatPath r
     end.

(** [isOnChatPage()] of the content script. *)
Definition isOnChatPage (location : URL) : bool := chatPath (pathname location).

Section Parsing.

(** [new URL(url)], [None] when it throws. *)
Variable parseURL : string -> option URL.

(** [isLovableChatUrl(url)] of the popup. *)
Definition isLovableChatUrl (url : string) : bool :=
  match parseURL url with
  | Some u => String.eqb (hostname u) "lovable.dev" && chatPath (pathname u)
  | None => false
  end.

End Parsing.

End Pages.

(* ================================================================== *)
(** * The scroll container *)
(* ================================================================== *)

Module Layout.

(** An element of the document with what [findScrollContainer] reads of
    it. *)
Inductive box : Type :=
| Box (tagName className : string) (scrollHeight clientHeight : Z) (children : list box).

Definition tagOf (b : box) : string := match b with Box t _ _ _ _ => t end.
Definition classOf (b : box) : string := match b with Box _ c _ _ _ => c end.
Definition scrollHeightOf (b : box) : Z := match b with Box _ _ s _ _ => s end.
Definition clientHeightOf (b : box) : Z := match b with Box _ _ _ c _ => c end.

(** An element is told from the others by its path from the root: the
    positions of the children to go through. *)
Definition elem : Type := (list nat * box)%type.

(** [document.querySelectorAll('*')]: the elements in document order. *)
Fixpoint elements (path : list nat) (b : box) : list elem :=
  match b with
  | Box _ _ _ _ cs =>
      (path, b)
      :: (fix go (i : nat) (l : list box) : list elem :=
            match l with
            | [] => []
            | c :: r => elements (path ++ [i]) c ++ go (S i) r
            end) 0 cs
  end.

(** The elements under the children [l], the first of which is child
    number [i]. *)
Fixpoint childElements (path : list nat) (i : nat) (l : list box) : list elem :=
  match l with
  | [] => []
  | c :: r => elements (path ++ [i]) c ++ childElements path (S i) r
  end.

(** [a.contains(b)]: the path of [a] begins the path of [b]. *)
Fixpoint isPrefix (p q : list nat) : bool :=
  match p, q with
  | [], _ => true
  | x :: p', y :: q' => (x =? y) && isPrefix p' q'
  | _ :: _, [] => false
  end.

Definition contains (a b : elem) : bool := isPrefix (fst a) (fst b).

(** [s.includes(needle)], the test of the selector [[class*="..."]]. *)
Fixpoint includes (needle s : string) : bool :=
  String.prefix needle s
  || match s with
     | EmptyString => false
     | String _ r => includes needle r
     end.

(** [el.scrollHeight > el.clientHeight] *)
Definition scrolls (e : elem) : bool :=
  (clientHeightOf (snd e) <? scrollHeightOf (snd e))%Z.

(** [el.scrollHeight > el.clientHeight + 50] *)
Definition overflows (e : elem) : bool :=
  (clientHeightOf (snd e) + 50 <? scrollHeightOf (snd e))%Z.

(** The three [document.querySelector] results of the known patterns. *)
Definition candidates (doc : box) : list (option elem) :=
  [ head (List.filter (fun e => includes "overflow-y-auto" (classOf (snd e))) (elements [] doc));
    head (List.filter (fun e => includes "overflow-y-scroll" (classOf (snd e))) (elements [] doc));
    head (List.filter (fun e => String.eqb (tagOf (snd e)) "main") (elements [] doc)) ].

(** [for (const el of candidates) if (el && scrolls) return el] *)
Fixpoint firstScrolling (cands : list (option elem)) : option elem :=
  match cands with
  | [] => None
  | Some e :: r => if scrolls e then Some e else firstScrolling r
  | None :: r => firstScrolling r
  end.

(** The body of the [forEach] of the fallback. *)
Definition pickDeepest (deepest : option elem) (el : elem) : option elem :=
  if overflows el then
    match deepest with
    | None => Some el
    | Some d => if contains el d then Some el else deepest
    end
  else deepest.

(** [findScrollContainer()], the document given by its root element. *)
Definition findScrollContainer (doc : box) : option elem :=
  match firstScrolling (candidates doc) with
  | Some e => Some e
  | None => fold_left pickDeepest (elements [] doc) None
  end.

End Layout.

(* ================================================================== *)
(** * Activation of a thread and sequences of scans *)
(* ================================================================== *)

(** [location] changes (a navigation of the single-page application). *)
Definition navigate (loc : URL) (w : World) : World :=
  {| capturedMessages := capturedMessages w; pendingSave := pendingSave w;
     isAutoScrolling := isAutoScrolling w; location := loc;
     storage := storage w; clock := clock w; timers := timers w;
     writes := writes w |}.

(** Two records with the same id, role, timestamp, markup and text. *)
Definition same_content (a b : Message) : Prop :=
  id a = id b /\ role a = role b /\ timestampText a = timestampText b
  /\ contentHtml a = contentHtml b /\ contentText a = contentText b.

(** What the parser gives every record: an id that is not empty and the
    role that goes with the id. *)
Definition parsed_record (m : Message) : Prop :=
  id m <> EmptyString /\ role m = Parser.roleOf (id m).

Section Activation.

Variable innerHTML : Dom.node -> string.

(** [initialize()], as far as the map goes: the persisted map of the
    thread is loaded, then the visible candidates are scanned. *)
Definition initialize (els : list Parser.Candidate) (w : World) : World :=
  fst (scanVisibleMessages innerHTML els (set_captured (loadMessages w) w)).

(** The handler that runs 500 ms after a change of URL (and on
    [popstate]): on a chat page the map of the new thread is loaded and
    the visible candidates are scanned. *)
Definition onUrlChange (els : list Parser.Candidate) (w : World) : World :=
  if Pages.isOnChatPage (location w) then initialize els w else w.

(** A scan that happens [gap] milliseconds after the state [w]. *)
Definition scan_after (w : World) (ev : nat * list Parser.Candidate) : World :=
  fst (scanVisibleMessages innerHTML (snd ev) (tick (fst ev) w)).

(** Scans one after the other, each after its gap; the write of a save
    that falls due in a gap completes before the scan that follows. *)
Definition scans (evs : list (nat * list Parser.Candidate)) (w : World) : World :=
  fold_left scan_after evs w.

(** The callback of [flushSave] with the scans that the observer runs
    while its write is in flight, between the call of
    [chrome.storage.local.set] and its completion. *)
Definition saveCallback_during (during : list (list Parser.Candidate))
    (w : World) (due : nat) : World :=
  saveDone
    (fold_left (fun w0 els => fst (scanVisibleMessages innerHTML els w0)) during
       (saveStart w due)).

(** [dt] milliseconds pass: the callbacks that fall due run, and the
    scans [during] run while the write of such a callback is in flight
    (there is at most one such callback when the state comes from
    [initialize] and scans, since [flushSave] sets no timer while the
    flag is up). *)
Definition tick_during (during : list (list Parser.Candidate)) (dt : nat)
    (w : World) : World :=
  let t := clock w + dt in
  let due := List.filter (fun d => d <=? t) (timers w) in
  let later := List.filter (fun d => negb (d <=? t)) (timers w) in
  fold_left (saveCallback_during during) due
    {| capturedMessages := capturedMessages w; pendingSave := pendingSave w;
       isAutoScrolling := isAutoScrolling w; location := location w;
       storage := storage w; clock := t; timers := later;
       writes := writes w |}.

(** A scan of a run: it comes [ts_gap] milliseconds after the state
    before, shows the candidates [ts_els], and the scans [ts_during] ran
    before it, while the write of a save that fell due in the gap was in
    flight. *)
Record timed_scan : Type := mkTimedScan {
  ts_gap : nat;
  ts_during : list (list Parser.Candidate);
  ts_els : list Parser.Candidate
}.

Definition run_step (w : World) (ev : timed_scan) : World :=
  fst (scanVisibleMessages innerHTML (ts_els ev)
         (tick_during (ts_during ev) (ts_gap ev) w)).

Definition run (evs : list timed_scan) (w : World) : World :=
  fold_left run_step evs w.

End Activation.

(** The maps that scans build one after the other from the map [st]. *)
Definition scanned (innerHTML : Dom.node -> string)
    (during : list (list Parser.Candidate)) (st : Store.store) : Store.store :=
  fold_left
    (fun st0 els => fst (Store.scan (map (Parser.parseMessageElement innerHTML) els) st0))
    during st.

(* ================================================================== *)
(** * Export: Markdown *)
(* ================================================================== *)

Module MarkdownExport.

Section Document.

(** The browser's parser behind [div.innerHTML = html] and its resolver
    of link targets. *)
Variable parseHTML : string -> list Dom.node.
Variable resolve : string -> string.

Definition roleHeading (r : Role) : string :=
  match r with user => "👤 You" | ai => "🤖 Lovable" end.

(** What the body of the [forEach] pushes for one message. *)
Definition section (msg : Message) : list string :=
  [ "## " +:+ roleHeading (role msg) +:+ " — " +:+ timestampText msg;
    EmptyString;
    (if JsString.truthy (contentHtml msg)
     then Markdown.htmlToMarkdown resolve (parseHTML (contentHtml msg))
     else contentText msg);
    EmptyString;
    "---";
    EmptyString ].

(** The array [lines] of [exportMarkdown()], with the values of
    [location.href] and [new Date().toLocaleString()]. *)
Definition markdownLines (href exported : string) (st : Store.store) : list string :=
  [ "# Lovable Chat Export";
    "> URL: " +:+ href;
    "> Exported: " +:+ exported;
    "> Messages: " +:+ Markdown.showNat (length (Store.getSortedMessages st));
    EmptyString;
    "---";
    EmptyString ]
  ++ flat_map section (Store.getSortedMessages st).

(** [exportMarkdown()] *)
Definition exportMarkdown (href exported : string) (st : Store.store) : string :=
  JsString.join nl (markdownLines href exported st).

End Document.

End MarkdownExport.

(** Three line feeds in a row somewhere in a string. *)
Fixpoint triple_nl (s : string) : bool :=
  match s with
  | EmptyString => false
  | String c r => (Ascii.eqb c "010" && String.prefix (nl +:+ nl) r) || triple_nl r
  end.

(** The first and the last code unit of a string. *)
Definition first_char (s : string) : option ascii :=
  match s with EmptyString => None | String c _ => Some c end.

Fixpoint last_char (s : string) : option ascii :=
  match s with
  | EmptyString => None
  | String c EmptyString => Some c
  | String _ r => last_char r
  end.

(** Two maps that list the same ids in the same order and hold, under
    each id, records of the same content: they differ in positions at
    most. *)
Definition same_records (a b : Store.store) : Prop :=
  Forall2 (fun x y => fst x = fst y /\ same_content (snd x) (snd y)) a b.

(** The state of the save: either a save is pending and its one callback
    is waiting, or none is and the saved copy of the thread holds the
    records of the map. *)
Definition in_step (w : World) : Prop :=
  if pendingSave w then exists d, timers w = [d]
  else timers w = [] /\ same_records (loadMessages w) (capturedMessages w).

(* ================================================================== *)
(** * Properties of the store *)
(* ================================================================== *)
(* PROPERTIES-START *)

Module StoreFacts.

Import Store.

Lemma get_app (a b : store) (k : string) :
  get (a ++ b) k = match get a k with Some v => Some v | None => get b k end.
Proof.
  induction a as [|[k' v'] a IH]; simpl; [reflexivity|].
  destruct (String.eqb k' k); [reflexivity|exact IH].
Qed.

Lemma get_create_index (n : N) (k : string) (v : Message) (st : store) (k0 : string) :
  get st k = None ->
  get (create_index n k v st) k0 = if String.eqb k k0 then Some v else get st k0.
Proof.
  induction st as [|[k' v'] st IH]; simpl; intros Hnone.
  - reflexivity.
  - destruct (String.eqb_spec k' k) as [->|Hne]; [discriminate|].
    destruct (array_index k') as [n'|]; [destruct (n' <? n)%N|]; simpl;
      try reflexivity.
    rewrite IH by assumption.
    destruct (String.eqb_spec k' k0) as [->|Hne0]; [|reflexivity].
    destruct (String.eqb_spec k k0) as [->|_]; [congruence|reflexivity].
Qed.

Lemma get_create (st : store) (k : string) (v : Message) (k0 : string) :
  get st k = None ->
  get (create st k v) k0 = if String.eqb k k0 then Some v else get st k0.
Proof.
  intros Hnone. unfold create. destruct (array_index k) as [n|].
  - apply get_create_index; assumption.
  - rewrite get_app. simpl.
    destruct (String.eqb_spec k k0) as [->|Hne].
    + rewrite Hnone. reflexivity.
    + destruct (get st k0); reflexivity.
Qed.

Lemma length_create_index (n : N) (k : string) (v : Message) (st : store) :
  length (create_index n k v st) = S (length st).
Proof.
  induction st as [|[k' v'] st IH]; simpl; [reflexivity|].
  destruct (array_index k') as [n'|]; [destruct (n' <? n)%N|]; simpl; congruence.
Qed.

Lemma count_create (st : store) (k : string) (v : Message) :
  count (create st k v) = S (count st).
Proof.
  unfold count, keys, create. rewrite !length_map.
  destruct (array_index k).
  - apply length_create_index.
  - rewrite length_app. simpl. lia.
Qed.

Lemma keys_set_topPx (st : store) (k : string) (t : Z) :
  keys (set_topPx st k t) = keys st.
Proof.
  induction st as [|[k' v'] st IH]; simpl; [reflexivity|].
  destruct (String.eqb k' k); simpl; [reflexivity|]. f_equal. exact IH.
Qed.

Lemma get_set_topPx (st : store) (k : string) (t : Z) (k0 : string) :
  get (set_topPx st k t) k0 =
  if String.eqb k k0 then option_map (with_topPx t) (get st k0) else get st k0.
Proof.
  induction st as [|[k' v'] st IH]; simpl.
  - destruct (String.eqb k k0); reflexivity.
  - destruct (String.eqb_spec k' k) as [->|Hne]; simpl.
    + destruct (String.eqb k k0); reflexivity.
    + rewrite IH. destruct (String.eqb_spec k' k0) as [->|Hne0]; [|reflexivity].
      destruct (String.eqb_spec k k0) as [->|_]; [congruence|reflexivity].
Qed.

(** The three cases of an upsert, by the own property and the name. *)
Lemma upsert_unfold (st : store) (msg : Message) :
  upsert st msg
  = match get st (id msg) with
    | Some _ => (set_topPx st (id msg) (topPx msg), 0)
    | None => if inherited (id msg) then (st, 0) else (create st (id msg) msg, 1)
    end.
Proof.
  unfold upsert, read. destruct (get st (id msg)); [reflexivity|].
  destruct (inherited (id msg)); reflexivity.
Qed.

(** An upsert never removes a record. *)
Lemma upsert_keeps (st : store) (msg : Message) (k : string) :
  get st k <> None -> get (fst (upsert st msg)) k <> None.
Proof.
  intros Hk. rewrite upsert_unfold.
  destruct (get st (id msg)) eqn:E; [|destruct (inherited (id msg))]; simpl.
  - rewrite get_set_topPx. destruct (String.eqb (id msg) k); [|exact Hk].
    destruct (get st k); [discriminate|congruence].
  - exact Hk.
  - rewrite get_create by assumption.
    destruct (String.eqb (id msg) k); [discriminate|exact Hk].
Qed.

(** After an upsert the id of the message is an own property of the
    store, unless it is a name of [Object.prototype]. *)
Lemma upsert_has (st : store) (msg : Message) :
  get (fst (upsert st msg)) (id msg) <> None \/ inherited (id msg) = true.
Proof.
  rewrite upsert_unfold.
  destruct (get st (id msg)) eqn:E; [|destruct (inherited (id msg))]; simpl.
  - left. rewrite get_set_topPx, String.eqb_refl, E. discriminate.
  - right. reflexivity.
  - left. rewrite get_create, String.eqb_refl by assumption. discriminate.
Qed.

Lemma scan_cons (p : option Message) (parsed : list (option Message))
    (st : store) (n : nat) :
  fold_left scan_step (p :: parsed) (st, n) =
  fold_left scan_step parsed (scan_step (st, n) p).
Proof. reflexivity. Qed.

Lemma scan_keeps (parsed : list (option Message)) (st : store) (n : nat) (k : string) :
  get st k <> None -> get (fst (fold_left scan_step parsed (st, n))) k <> None.
Proof.
  revert st n. induction parsed as [|[m|] parsed IH]; intros st n Hk; simpl.
  - exact Hk.
  - pose proof (upsert_keeps st m k Hk) as H.
    destruct (upsert st m) as [st' d]. apply IH. exact H.
  - apply IH. exact Hk.
Qed.

Lemma scan_has (parsed : list (option Message)) (st : store) (n : nat) (k : string) :
  In k (seen parsed) ->
  get (fst (fold_left scan_step parsed (st, n))) k <> None \/ inherited k = true.
Proof.
  revert st n. induction parsed as [|[m|] parsed IH]; intros st n Hin; simpl in *.
  - contradiction.
  - pose proof (upsert_has st m) as H.
    destruct (upsert st m) as [st' d] eqn:E. simpl in H.
    destruct Hin as [<-|Hin].
    + destruct H as [H|H]; [left; apply scan_keeps; exact H|right; exact H].
    + apply IH. exact Hin.
  - apply IH. exact Hin.
Qed.

(** A scan whose ids are all own properties of the store or names of
    [Object.prototype] adds nothing and keeps the keys of the store. *)
Lemma scan_settled (parsed : list (option Message)) (st : store) (n : nat) :
  (forall k, In k (seen parsed) -> get st k <> None \/ inherited k = true) ->
  snd (fold_left scan_step parsed (st, n)) = n /\
  keys (fst (fold_left scan_step parsed (st, n))) = keys st.
Proof.
  revert st n. induction parsed as [|[m|] parsed IH]; intros st n Hall; simpl in *.
  - split; reflexivity.
  - rewrite upsert_unfold.
    destruct (get st (id m)) eqn:E; [|destruct (inherited (id m)) eqn:Ei].
    + destruct (IH (set_topPx st (id m) (topPx m)) (n + 0)) as [H1 H2].
      * intros k Hk. rewrite get_set_topPx.
        specialize (Hall k (or_intror Hk)).
        destruct (String.eqb (id m) k); [|exact Hall].
        destruct Hall as [Hall|Hall]; [left|right; exact Hall].
        destruct (get st k); [discriminate|congruence].
      * rewrite H1, H2, keys_set_topPx. split; [lia|reflexivity].
    + destruct (IH st (n + 0)) as [H1 H2].
      * intros k Hk. apply Hall. right. exact Hk.
      * rewrite H1, H2. split; [lia|reflexivity].
    + exfalso. destruct (Hall (id m)) as [H|H]; [left; reflexivity| |]; congruence.
  - apply IH. exact Hall.
Qed.

(** A scan whose ids are all in the store adds nothing and keeps the
    keys of the store. *)
Lemma scan_known (parsed : list (option Message)) (st : store) (n : nat) :
  (forall k, In k (seen parsed) -> get st k <> None) ->
  snd (fold_left scan_step parsed (st, n)) = n /\
  keys (fst (fold_left scan_step parsed (st, n))) = keys st.
Proof.
  intros Hall. apply scan_settled. intros k Hk. left. apply Hall. exact Hk.
Qed.

End StoreFacts.

Module Reobservation.

Import Store StoreFacts.

(** The scan of the content script is the scan of the store, and it
    changes nothing but the map and the pending save. *)
Lemma scanVisibleMessages_store (innerHTML : Dom.node -> string)
    (els : list Parser.Candidate) (w : World) :
  capturedMessages (fst (scanVisibleMessages innerHTML els w)) =
    fst (scan (map (Parser.parseMessageElement innerHTML) els) (capturedMessages w))
  /\ snd (scanVisibleMessages innerHTML els w) =
    snd (scan (map (Parser.parseMessageElement innerHTML) els) (capturedMessages w)).
Proof.
  unfold scanVisibleMessages.
  destruct (scan _ _) as [st n]. simpl.
  destruct (0 <? n); [|split; reflexivity].
  unfold flushSave. destruct (pendingSave _); split; reflexivity.
Qed.

(** C1.  An upsert of a message whose id is an own property of the
    store leaves the record count and the keys as they are and changes
    the [topPx] of that record only: its id, role, timestamp, markup and
    text are those of the first parse, and the other records are
    untouched.  An upsert of a message whose id is no own property is
    decided by the property read: when the id names a property of
    [Object.prototype], nothing is inserted and nothing is counted;
    otherwise (the id [topPx] apart, which a scan of the id [__proto__]
    adds to [Object.prototype]) the message is added as parsed and
    counted as new.  The scan of a candidate does the same to the map of
    the content script and returns what was counted.  A second scan of
    the same candidates adds nothing and keeps the record count.  A
    candidate whose id is [constructor], scanned into the empty map, is
    not captured: the scan returns 0 and the map stays empty. *)
Theorem inherited_id_is_not_inserted :
  (forall (st : store) (msg : Message),
     match get st (id msg) with
     | Some old =>
         snd (upsert st msg) = 0
         /\ count (fst (upsert st msg)) = count st
         /\ keys (fst (upsert st msg)) = keys st
         /\ (exists new, get (fst (upsert st msg)) (id msg) = Some new
                         /\ topPx new = topPx msg
                         /\ id new = id old
                         /\ role new = role old
                         /\ timestampText new = timestampText old
                         /\ contentHtml new = contentHtml old
                         /\ contentText new = contentText old)
         /\ (forall k, k <> id msg -> get (fst (upsert st msg)) k = get st k)
     | None =>
         if inherited (id msg)
         then upsert st msg = (st, 0)
         else id msg <> "topPx" ->
              snd (upsert st msg) = 1
              /\ count (fst (upsert st msg)) = S (count st)
              /\ get (fst (upsert st msg)) (id msg) = Some msg
              /\ (forall k, k <> id msg -> get (fst (upsert st msg)) k = get st k)
     end)
  /\ (forall (innerHTML : Dom.node -> string) (els : list Parser.Candidate) (w : World),
        let w1 := fst (scanVisibleMessages innerHTML els w) in
        snd (scanVisibleMessages innerHTML els w1) = 0
        /\ count (capturedMessages (fst (scanVisibleMessages innerHTML els w1)))
           = count (capturedMessages w1))
  /\ (forall (innerHTML : Dom.node -> string) (c : Parser.Candidate) (msg : Message)
             (w : World),
        Parser.parseMessageElement innerHTML c = Some msg ->
        capturedMessages (fst (scanVisibleMessages innerHTML [c] w))
        = fst (upsert (capturedMessages w) msg)
        /\ snd (scanVisibleMessages innerHTML [c] w) = snd (upsert (capturedMessages w) msg))
  /\ (forall (innerHTML : Dom.node -> string) (top : option Z) (w : World),
        scanVisibleMessages innerHTML
          [Parser.mkCandidate
             (Dom.Element "div" [("data-message-id", "constructor")] []) top]
          (set_captured [] w)
        = (set_captured [] w, 0)).
Proof.
  split; [|split; [|split]].
  - intros st msg. rewrite upsert_unfold.
    destruct (get st (id msg)) as [old|] eqn:E; [|destruct (inherited (id msg))]; simpl.
    + split; [reflexivity|]. unfold count. rewrite keys_set_topPx.
      split; [reflexivity|]. split; [reflexivity|]. split.
      * exists (with_topPx (topPx msg) old).
        rewrite get_set_topPx, String.eqb_refl, E. simpl. repeat split.
      * intros k Hk. rewrite get_set_topPx.
        destruct (String.eqb_spec (id msg) k) as [Heq|_]; [congruence|reflexivity].
    + reflexivity.
    + intros _. split; [reflexivity|]. split; [apply count_create|]. split.
      * rewrite get_create, String.eqb_refl by assumption. reflexivity.
      * intros k Hk. rewrite get_create by assumption.
        destruct (String.eqb_spec (id msg) k) as [Heq|_]; [congruence|reflexivity].
  - intros innerHTML els w w1.
    destruct (scanVisibleMessages_store innerHTML els w) as [Hst _].
    destruct (scanVisibleMessages_store innerHTML els w1) as [Hst1 Hn1].
    fold w1 in Hst. rewrite Hn1, Hst1. unfold count.
    set (parsed := map (Parser.parseMessageElement innerHTML) els) in *.
    destruct (scan_settled parsed (capturedMessages w1) 0) as [H1 H2].
    + intros k Hk. rewrite Hst. apply scan_has. exact Hk.
    + unfold scan. rewrite H1, H2. split; reflexivity.
  - intros innerHTML c msg w Hc.
    destruct (scanVisibleMessages_store innerHTML [c] w) as [-> ->].
    unfold scan. simpl. rewrite Hc. simpl.
    destruct (upsert (capturedMessages w) msg) as [st d]. split; reflexivity.
  - intros innerHTML top w. reflexivity.
Qed.

End Reobservation.

(* ================================================================== *)
(** * Ordering of the exported sequence *)
(* ================================================================== *)

Module Ordering.

Import Store StoreFacts.

Lemma compare_le (x y : Message) :
  (compareTopPx x y <=? 0)%Z = true <-> le_top x y.
Proof. unfold compareTopPx, le_top. rewrite Z.leb_le. lia. Qed.

Lemma insert_sorted_perm (x : Message) (l : list Message) :
  Permutation (insert_sorted compareTopPx x l) (x :: l).
Proof.
  induction l as [|y l IH]; simpl; [reflexivity|].
  destruct (compareTopPx x y <=? 0)%Z; [reflexivity|].
  rewrite IH. apply perm_swap.
Qed.

Lemma sort_perm (l : list Message) : Permutation (sort compareTopPx l) l.
Proof.
  induction l as [|x l IH]; simpl; [reflexivity|].
  rewrite insert_sorted_perm. constructor. exact IH.
Qed.

Lemma insert_sorted_sorted (x : Message) (l : list Message) :
  StronglySorted le_top l -> StronglySorted le_top (insert_sorted compareTopPx x l).
Proof.
  induction 1 as [|y l Hs IH Hall]; simpl.
  - repeat constructor.
  - destruct (compareTopPx x y <=? 0)%Z eqn:E.
    + apply compare_le in E. constructor; [constructor; assumption|].
      constructor; [exact E|].
      eapply Forall_impl; [exact Hall|]. unfold le_top in *. intros; simpl in *; lia.
    + constructor; [exact IH|].
      assert (Hyx : le_top y x).
      { unfold le_top, compareTopPx in *. apply Z.leb_gt in E. lia. }
      rewrite (List.Forall_forall (le_top y)). intros z Hz.
      apply (Permutation_in _ (insert_sorted_perm x l)) in Hz.
      destruct Hz as [<-|Hz]; [exact Hyx|].
      rewrite List.Forall_forall in Hall. apply Hall. exact Hz.
Qed.

Lemma sort_sorted (l : list Message) : StronglySorted le_top (sort compareTopPx l).
Proof.
  induction l as [|x l IH]; simpl; [constructor|].
  apply insert_sorted_sorted. exact IH.
Qed.

(** Insertion goes past records of smaller [topPx] only, so within one
    [topPx] the new record comes first. *)
Lemma at_top_insert_sorted (t : Z) (x : Message) (l : list Message) :
  at_top t (insert_sorted compareTopPx x l) = at_top t (x :: l).
Proof.
  induction l as [|y l IH]; [reflexivity|].
  simpl insert_sorted. destruct (compareTopPx x y <=? 0)%Z eqn:E; [reflexivity|].
  apply Z.leb_gt in E. unfold compareTopPx in E.
  unfold at_top in *. simpl in *. rewrite IH.
  destruct (topPx x =? t)%Z eqn:Ex; [|reflexivity].
  apply Z.eqb_eq in Ex.
  destruct (topPx y =? t)%Z eqn:Ey; [|reflexivity].
  apply Z.eqb_eq in Ey. lia.
Qed.

(** The sort is stable. *)
Lemma sort_stable (t : Z) (l : list Message) :
  at_top t (sort compareTopPx l) = at_top t l.
Proof.
  induction l as [|x l IH]; [reflexivity|].
  simpl sort. rewrite at_top_insert_sorted.
  unfold at_top in *. simpl. rewrite IH. reflexivity.
Qed.

Lemma at_top_nil_all (l : list Message) :
  (forall t, at_top t l = []) -> l = [].
Proof.
  destruct l as [|x l]; [reflexivity|]. intros H.
  specialize (H (topPx x)). unfold at_top in H. simpl in H.
  rewrite Z.eqb_refl in H. discriminate.
Qed.

Lemma at_top_In (t : Z) (x : Message) (l : list Message) :
  In x (at_top t l) <-> In x l /\ topPx x = t.
Proof. unfold at_top. rewrite List.filter_In, Z.eqb_eq. reflexivity. Qed.

(** An ascending sequence is determined by what it holds at each [topPx]. *)
Lemma sorted_by_classes (l1 l2 : list Message) :
  StronglySorted le_top l1 -> StronglySorted le_top l2 ->
  (forall t, at_top t l1 = at_top t l2) -> l1 = l2.
Proof.
  intros H1. revert l2. induction H1 as [|x l1 Hs1 IH Hall1]; intros l2 H2 Hcl.
  - symmetry. apply at_top_nil_all. intros t. rewrite <- Hcl. reflexivity.
  - destruct H2 as [|y l2 Hs2 Hall2].
    + specialize (Hcl (topPx x)). unfold at_top in Hcl. simpl in Hcl.
      rewrite Z.eqb_refl in Hcl. discriminate.
    + assert (Hxy : topPx x = topPx y).
      { assert (Hy : In y (x :: l1)).
        { apply (at_top_In (topPx y)). rewrite Hcl. apply at_top_In.
          split; [left; reflexivity|reflexivity]. }
        assert (Hx : In x (y :: l2)).
        { apply (at_top_In (topPx x)). rewrite <- Hcl. apply at_top_In.
          split; [left; reflexivity|reflexivity]. }
        rewrite List.Forall_forall in Hall1, Hall2. unfold le_top in *.
        destruct Hy as [Hy|Hy]; [congruence|].
        destruct Hx as [Hx|Hx]; [congruence|].
        specialize (Hall1 _ Hy). specialize (Hall2 _ Hx). lia. }
      assert (Heq : x = y).
      { specialize (Hcl (topPx x)). unfold at_top in Hcl. simpl in Hcl.
        rewrite Z.eqb_refl in Hcl. rewrite <- Hxy, Z.eqb_refl in Hcl.
        congruence. }
      subst y. f_equal. apply IH; [exact Hs2|].
      intros t. specialize (Hcl t). unfold at_top in *. simpl in Hcl.
      destruct (topPx x =? t)%Z; congruence.
Qed.

(** Sorting a sequence that holds, at each [topPx], what an ascending
    sequence holds there gives that ascending sequence. *)
Lemma sort_to_sorted (a b : list Message) :
  StronglySorted le_top a -> (forall t, at_top t b = at_top t a) ->
  sort compareTopPx b = a.
Proof.
  intros Ha Hcl. apply sorted_by_classes; [apply sort_sorted|exact Ha|].
  intros t. rewrite sort_stable. apply Hcl.
Qed.

End Ordering.

(* ================================================================== *)
(** * Own-property order *)
(* ================================================================== *)

Module PropertyOrder.

Import Store StoreFacts.

Lemma digit_bound (c : ascii) (d : N) : digit c = Some d -> (d < 10)%N.
Proof.
  unfold digit, JsString.is_digit. cbv zeta.
  destruct (48 <=? N_of_ascii c)%N eqn:E1; [|discriminate].
  destruct (N_of_ascii c <=? 57)%N eqn:E2; [|discriminate].
  simpl. intros [= <-]. apply N.leb_le in E1, E2. lia.
Qed.

Lemma digit_inj (c1 c2 : ascii) (d : N) :
  digit c1 = Some d -> digit c2 = Some d -> c1 = c2.
Proof.
  unfold digit, JsString.is_digit. cbv zeta.
  destruct (48 <=? N_of_ascii c1)%N eqn:E1; [|discriminate].
  destruct (N_of_ascii c1 <=? 57)%N; [|discriminate].
  destruct (48 <=? N_of_ascii c2)%N eqn:E2; [|discriminate].
  destruct (N_of_ascii c2 <=? 57)%N; [|discriminate].
  simpl. intros [= <-] [= H]. apply N.leb_le in E1, E2.
  rewrite <- (ascii_N_embedding c1), <- (ascii_N_embedding c2).
  f_equal. lia.
Qed.

Lemma digit_zero (c : ascii) : digit c = Some 0%N -> c = "0"%char.
Proof.
  unfold digit, JsString.is_digit. cbv zeta.
  destruct (48 <=? N_of_ascii c)%N eqn:E1; [|discriminate].
  destruct (N_of_ascii c <=? 57)%N; [|discriminate].
  simpl. intros [= H]. apply N.leb_le in E1.
  rewrite <- (ascii_N_embedding c).
  replace (N_of_ascii c) with 48%N by lia. reflexivity.
Qed.

Lemma decimal_bounds (s : string) (acc n : N) :
  decimal s acc = Some n ->
  (acc * 10 ^ N.of_nat (String.length s) <= n
   /\ n < (acc + 1) * 10 ^ N.of_nat (String.length s))%N.
Proof.
  revert acc. induction s as [|c r IH]; intros acc; simpl decimal.
  - intros [= <-]. simpl. lia.
  - destruct (digit c) as [d|] eqn:Ed; [|discriminate].
    intros H. apply IH in H. apply digit_bound in Ed.
    change (String.length (String c r)) with (S (String.length r)).
    rewrite Nat2N.inj_succ, N.pow_succ_r'.
    set (p := (10 ^ N.of_nat (String.length r))%N) in *. nia.
Qed.

Lemma decimal_inj_length (s1 s2 : string) (acc1 acc2 n : N) :
  String.length s1 = String.length s2 ->
  decimal s1 acc1 = Some n -> decimal s2 acc2 = Some n ->
  acc1 = acc2 /\ s1 = s2.
Proof.
  revert s2 acc1 acc2. induction s1 as [|c1 r1 IH]; intros [|c2 r2] acc1 acc2;
    simpl; try discriminate.
  - intros _ [= <-] [= <-]. split; reflexivity.
  - intros [= Hlen].
    destruct (digit c1) as [d1|] eqn:E1; [|discriminate].
    destruct (digit c2) as [d2|] eqn:E2; [|discriminate].
    intros H1 H2. destruct (IH _ _ _ Hlen H1 H2) as [Hacc ->].
    pose proof (digit_bound _ _ E1). pose proof (digit_bound _ _ E2).
    assert (d1 = d2) by lia. assert (acc1 = acc2) by lia. subst.
    split; [reflexivity|]. f_equal. eapply digit_inj; eassumption.
Qed.

(** Two keys with the same array index are the same key. *)
Lemma array_index_inj (k1 k2 : string) (n : N) :
  array_index k1 = Some n -> array_index k2 = Some n -> k1 = k2.
Proof.
  assert (Hlead : forall c r m,
             Ascii.eqb c "0" = false -> decimal (String c r) 0 = Some m ->
             (10 ^ N.of_nat (String.length r) <= m
              /\ m < 10 ^ N.of_nat (S (String.length r)))%N).
  { intros c r m Hc H.
    pose proof (decimal_bounds _ _ _ H) as Hb.
    simpl in H. destruct (digit c) as [d|] eqn:Ed; [|discriminate].
    assert (d <> 0)%N.
    { intros ->. apply digit_zero in Ed. subst c. discriminate Hc. }
    pose proof (decimal_bounds _ _ _ H) as Hb'.
    change (String.length (String c r)) with (S (String.length r)) in Hb.
    split; [|lia].
    set (p := (10 ^ N.of_nat (String.length r))%N) in *. nia. }
  unfold array_index.
  destruct k1 as [|c1 r1]; [discriminate|].
  destruct k2 as [|c2 r2]; [discriminate|].
  destruct (Ascii.eqb c1 "0") eqn:E1; destruct (Ascii.eqb c2 "0") eqn:E2.
  - apply Ascii.eqb_eq in E1, E2. subst.
    destruct r1; [|discriminate]. destruct r2; [|discriminate]. reflexivity.
  - destruct r1; [|discriminate]. intros [= <-].
    destruct (decimal (String c2 r2) 0) as [m|] eqn:Em; [|discriminate].
    destruct (m <=? 4294967294)%N; [|discriminate]. intros [= ->].
    destruct (Hlead _ _ _ E2 Em) as [Hlo _].
    assert (0 < 10 ^ N.of_nat (String.length r2))%N
      by (apply N.neq_0_lt_0, N.pow_nonzero; lia).
    lia.
  - destruct (decimal (String c1 r1) 0) as [m|] eqn:Em; [|discriminate].
    destruct (m <=? 4294967294)%N; [|discriminate]. intros [= ->].
    destruct r2; [|discriminate]. intros [= <-].
    destruct (Hlead _ _ _ E1 Em) as [Hlo _].
    assert (0 < 10 ^ N.of_nat (String.length r1))%N
      by (apply N.neq_0_lt_0, N.pow_nonzero; lia).
    lia.
  - destruct (decimal (String c1 r1) 0) as [m1|] eqn:Em1; [|discriminate].
    destruct (m1 <=? 4294967294)%N; [|discriminate]. intros [= ->].
    destruct (decimal (String c2 r2) 0) as [m2|] eqn:Em2; [|discriminate].
    destruct (m2 <=? 4294967294)%N; [|discriminate]. intros [= ->].
    destruct (Hlead _ _ _ E1 Em1) as [Hlo1 Hhi1].
    destruct (Hlead _ _ _ E2 Em2) as [Hlo2 Hhi2].
    assert (Hlen : String.length r1 = String.length r2).
    { destruct (Nat.lt_trichotomy (String.length r1) (String.length r2))
        as [Hlt|[Heq|Hgt]]; [exfalso|exact Heq|exfalso].
      - assert (10 ^ N.of_nat (S (String.length r1))
                <= 10 ^ N.of_nat (String.length r2))%N
          by (apply N.pow_le_mono_r; lia).
        lia.
      - assert (10 ^ N.of_nat (S (String.length r2))
                <= 10 ^ N.of_nat (String.length r1))%N
          by (apply N.pow_le_mono_r; lia).
        lia. }
    destruct (decimal_inj_length (String c1 r1) (String c2 r2) 0 0 n) as [_ H];
      [simpl; congruence|assumption|assumption|exact H].
Qed.

End PropertyOrder.

Module StoreOrder.

Import Store StoreFacts PropertyOrder.

Lemma get_None_keys (st : store) (k : string) :
  get st k = None <-> ~ In k (keys st).
Proof.
  induction st as [|[k' v'] st IH]; simpl.
  - tauto.
  - destruct (String.eqb_spec k' k) as [->|Hne].
    + split; [discriminate|]. intros H. exfalso. apply H. left. reflexivity.
    + rewrite IH. tauto.
Qed.

Lemma create_index_perm (n : N) (k : string) (v : Message) (st : store) :
  Permutation (create_index n k v st) ((k, v) :: st).
Proof.
  induction st as [|[k' v'] st IH]; simpl; [reflexivity|].
  destruct (array_index k') as [n'|]; [destruct (n' <? n)%N|]; try reflexivity.
  rewrite IH. apply perm_swap.
Qed.

Lemma create_perm (st : store) (k : string) (v : Message) :
  Permutation (create st k v) ((k, v) :: st).
Proof.
  unfold create. destruct (array_index k).
  - apply create_index_perm.
  - symmetry. apply Permutation_cons_append.
Qed.

Lemma key_before_rest (k k' : string) :
  array_index k = None -> key_before k' k.
Proof.
  unfold key_before. intros ->. destruct (array_index k'); exact I.
Qed.

Lemma sorted_snoc (l : list string) (k : string) :
  StronglySorted key_before l -> array_index k = None ->
  StronglySorted key_before (l ++ [k]).
Proof.
  intros Hs Hk. induction Hs as [|x l Hs IH Hall]; simpl.
  - repeat constructor.
  - constructor; [exact IH|].
    rewrite List.Forall_forall in *. intros y Hy. apply in_app_or in Hy.
    destruct Hy as [Hy|[<-|[]]]; [apply Hall; exact Hy|].
    apply key_before_rest. exact Hk.
Qed.

Lemma create_index_sorted (n : N) (k : string) (v : Message) (st : store) :
  array_index k = Some n -> ~ In k (keys st) ->
  StronglySorted key_before (keys st) ->
  StronglySorted key_before (keys (create_index n k v st)).
Proof.
  intros Hk. induction st as [|[k' v'] st IH]; simpl; intros Hnew Hs.
  - repeat constructor.
  - inversion Hs as [|? ? Hs' Hall]; subst.
    assert (Hall_k : forall n', array_index k' = Some n' -> (n <= n')%N ->
                     Forall (key_before k) (k' :: keys st)).
    { intros n' Hk' Hle. assert (n <> n').
      { intros ->. apply Hnew. left. eapply array_index_inj; eassumption. }
      assert (Hkk' : key_before k k').
      { unfold key_before. rewrite Hk, Hk'. lia. }
      constructor; [exact Hkk'|].
      eapply Forall_impl; [exact Hall|]. intros y Hy. simpl in Hy.
      unfold key_before in *. rewrite Hk. rewrite Hk' in Hy.
      destruct (array_index y); [lia|exact I]. }
    destruct (array_index k') as [n'|] eqn:Hk'.
    + destruct (n' <? n)%N eqn:Hlt; simpl.
      * constructor; [apply IH; [tauto|exact Hs']|].
        rewrite List.Forall_forall. intros y Hy.
        apply (Permutation_in _ (Permutation_map fst (create_index_perm n k v st))) in Hy.
        simpl in Hy. destruct Hy as [<-|Hy].
        -- unfold key_before. rewrite Hk', Hk. apply N.ltb_lt in Hlt. exact Hlt.
        -- rewrite List.Forall_forall in Hall. apply Hall. exact Hy.
      * constructor; [exact Hs|]. apply (Hall_k n'); [reflexivity|].
        apply N.ltb_ge in Hlt. exact Hlt.
    + simpl. constructor; [exact Hs|]. constructor.
      * unfold key_before. rewrite Hk, Hk'. exact I.
      * eapply Forall_impl; [exact Hall|]. intros y Hy. simpl in Hy.
        unfold key_before in *. rewrite Hk. rewrite Hk' in Hy.
        destruct (array_index y); [contradiction|exact I].
Qed.

Lemma keys_create_rest (st : store) (k : string) (v : Message) :
  array_index k = None -> keys (create st k v) = keys st ++ [k].
Proof.
  intros Hk. unfold create, keys. rewrite Hk, map_app. reflexivity.
Qed.

Lemma wf_nil : wf [].
Proof. split; simpl; constructor. Qed.

Lemma wf_create (st : store) (m : Message) :
  wf st -> get st (id m) = None -> wf (create st (id m) m).
Proof.
  intros [Hk Hn Ho] Hnone. apply get_None_keys in Hnone.
  pose proof (create_perm st (id m) m) as Hp. split.
  - rewrite List.Forall_forall. intros kv Hin.
    apply (Permutation_in _ Hp) in Hin. destruct Hin as [<-|Hin]; [reflexivity|].
    rewrite List.Forall_forall in Hk. apply Hk. exact Hin.
  - apply (Permutation_NoDup (l := id m :: keys st)).
    + symmetry. exact (Permutation_map fst Hp).
    + constructor; assumption.
  - unfold create. destruct (array_index (id m)) as [n|] eqn:E.
    + apply create_index_sorted; assumption.
    + unfold keys. rewrite map_app. apply sorted_snoc; assumption.
Qed.

Lemma set_topPx_keyed (st : store) (k : string) (t : Z) :
  Forall (fun kv => fst kv = id (snd kv)) st ->
  Forall (fun kv => fst kv = id (snd kv)) (set_topPx st k t).
Proof.
  induction 1 as [|[k' v'] st H Hall IH]; simpl; [constructor|].
  destruct (String.eqb k' k); constructor; assumption.
Qed.

Lemma wf_upsert (st : store) (m : Message) : wf st -> wf (fst (upsert st m)).
Proof.
  intros Hwf. rewrite upsert_unfold.
  destruct (get st (id m)) eqn:E; [|destruct (inherited (id m))]; simpl.
  - destruct Hwf as [Hk Hn Ho]. split.
    + apply set_topPx_keyed. exact Hk.
    + rewrite keys_set_topPx. exact Hn.
    + rewrite keys_set_topPx. exact Ho.
  - exact Hwf.
  - apply wf_create; assumption.
Qed.

(** Every store that scans build from a well-formed store is well formed. *)
Lemma wf_scan (parsed : list (option Message)) (st : store) (n : nat) :
  wf st -> wf (fst (fold_left scan_step parsed (st, n))).
Proof.
  revert st n. induction parsed as [|[m|] parsed IH]; intros st n Hwf; simpl.
  - exact Hwf.
  - pose proof (wf_upsert st m Hwf) as H.
    destruct (upsert st m) as [st' d]. apply IH. exact H.
  - apply IH. exact Hwf.
Qed.

Lemma existsb_keys (st : store) (k : string) :
  existsb (String.eqb k) (keys st) = match get st k with Some _ => true | None => false end.
Proof.
  induction st as [|[k' v'] st IH]; simpl; [reflexivity|].
  rewrite (String.eqb_sym k k'). destruct (String.eqb k' k); simpl; [reflexivity|exact IH].
Qed.

(** With ids that are not array indices, the keys of the store are in
    the order in which the ids were first met, the names of
    [Object.prototype] left out. *)
Lemma scan_insertion_order (parsed : list (option Message)) (st : store) (n : nat) :
  (forall k, In k (seen parsed) -> array_index k = None) ->
  keys (fst (fold_left scan_step parsed (st, n)))
  = insertion_order (keys st) (List.filter (fun k => negb (inherited k)) (seen parsed)).
Proof.
  revert st n. induction parsed as [|[m|] parsed IH]; intros st n Hall; simpl in *.
  - reflexivity.
  - rewrite upsert_unfold.
    destruct (get st (id m)) eqn:E; [|destruct (inherited (id m)) eqn:Ei]; simpl.
    + rewrite IH by (intros; apply Hall; right; assumption).
      rewrite keys_set_topPx.
      destruct (inherited (id m)); simpl; [reflexivity|].
      unfold insertion_order. simpl. f_equal. unfold first_met.
      rewrite existsb_keys, E. reflexivity.
    + rewrite IH by (intros; apply Hall; right; assumption). reflexivity.
    + rewrite IH by (intros; apply Hall; right; assumption).
      rewrite keys_create_rest by (apply Hall; left; reflexivity).
      unfold insertion_order. simpl. f_equal. unfold first_met.
      rewrite existsb_keys, E. reflexivity.
  - apply IH. exact Hall.
Qed.

Lemma keys_rest_set_topPx (st : store) (k : string) (t : Z) :
  keys (rest_part (set_topPx st k t)) = keys (rest_part st).
Proof.
  unfold rest_part. induction st as [|[k' v'] st IH]; simpl; [reflexivity|].
  destruct (String.eqb k' k); simpl.
  - destruct (indexed k'); reflexivity.
  - destruct (indexed k'); simpl; rewrite IH; reflexivity.
Qed.

Lemma rest_part_create_index (n : N) (k : string) (v : Message) (st : store) :
  indexed k = true -> rest_part (create_index n k v st) = rest_part st.
Proof.
  intros Ik. unfold rest_part.
  induction st as [|[k' v'] st IH]; simpl.
  - rewrite Ik. reflexivity.
  - destruct (array_index k') as [n'|]; [destruct (n' <? n)%N|]; simpl;
      rewrite ?Ik; simpl; try reflexivity.
    rewrite IH. reflexivity.
Qed.

Lemma indexed_false (k : string) : indexed k = false <-> array_index k = None.
Proof. unfold indexed. destruct (array_index k); split; congruence. Qed.

Lemma indexed_true (k : string) : indexed k = true <-> array_index k <> None.
Proof. unfold indexed. destruct (array_index k); split; congruence. Qed.

Lemma rest_part_create (st : store) (k : string) (v : Message) :
  rest_part (create st k v) =
  rest_part st ++ (if indexed k then [] else [(k, v)]).
Proof.
  destruct (indexed k) eqn:Ik.
  - rewrite app_nil_r. unfold create.
    destruct (array_index k) as [n|] eqn:Ek.
    + apply rest_part_create_index. exact Ik.
    + apply indexed_true in Ik. congruence.
  - unfold create. rewrite (proj1 (indexed_false k) Ik).
    unfold rest_part. rewrite List.filter_app. simpl. rewrite Ik. reflexivity.
Qed.

Lemma existsb_keys_rest (st : store) (k : string) :
  indexed k = false ->
  existsb (String.eqb k) (keys (rest_part st)) = existsb (String.eqb k) (keys st).
Proof.
  intros Ik. unfold rest_part. induction st as [|[k' v'] st IH]; simpl; [reflexivity|].
  destruct (indexed k') eqn:Ik'; simpl; rewrite IH; [|reflexivity].
  destruct (String.eqb_spec k k') as [->|_]; [congruence|reflexivity].
Qed.

(** A store in own-property order is its array-index properties
    followed by the others. *)
Lemma sorted_split (st : store) :
  StronglySorted key_before (keys st) -> st = index_part st ++ rest_part st.
Proof.
  unfold index_part, rest_part.
  induction st as [|[k v] st IH]; simpl; intros Hs; [reflexivity|].
  inversion Hs as [|? ? Hs' Hall]; subst.
  destruct (indexed k) eqn:Ik; simpl.
  - f_equal. apply IH. exact Hs'.
  - apply indexed_false in Ik.
    assert (Hrest : forall l : store,
               Forall (key_before k) (keys l) ->
               List.filter (fun kv => indexed (fst kv)) l = []
               /\ List.filter (fun kv => negb (indexed (fst kv))) l = l).
    { induction l as [|[k' v'] l IHl]; simpl; intros Hl; [split; reflexivity|].
      inversion Hl as [|? ? Hk' Hl']; subst.
      unfold key_before in Hk'. rewrite Ik in Hk'.
      destruct (indexed k') eqn:Ik'.
      - apply indexed_true in Ik'. destruct (array_index k'); [contradiction|congruence].
      - simpl. destruct (IHl Hl') as [-> ->]. split; reflexivity. }
    destruct (Hrest st Hall) as [-> ->]. reflexivity.
Qed.

(** The ids that are neither array indices nor names of
    [Object.prototype] are kept in the order in which they were first
    met, whatever other ids the store holds. *)
Lemma scan_rest_order (parsed : list (option Message)) (st : store) (n : nat) :
  keys (rest_part (fst (fold_left scan_step parsed (st, n))))
  = insertion_order (keys (rest_part st))
      (List.filter (fun k => negb (indexed k) && negb (inherited k)) (seen parsed)).
Proof.
  revert st n. induction parsed as [|[m|] parsed IH]; intros st n; simpl.
  - reflexivity.
  - rewrite upsert_unfold.
    destruct (get st (id m)) eqn:E; [|destruct (inherited (id m)) eqn:Ei]; simpl.
    + rewrite IH, keys_rest_set_topPx.
      destruct (indexed (id m)) eqn:Ik; simpl; [reflexivity|].
      destruct (inherited (id m)); simpl; [reflexivity|].
      unfold insertion_order. simpl. f_equal.
      unfold first_met.
      rewrite existsb_keys_rest, existsb_keys, E by exact Ik. reflexivity.
    + rewrite IH, andb_false_r. reflexivity.
    + rewrite IH, rest_part_create.
      destruct (indexed (id m)) eqn:Ik; simpl; [rewrite app_nil_r; reflexivity|].
      unfold insertion_order. simpl. f_equal.
      unfold first_met.
      rewrite existsb_keys_rest, existsb_keys, E by exact Ik.
      unfold keys. rewrite map_app. reflexivity.
  - apply IH.
Qed.

End StoreOrder.

Module SortedExport.

Import Store StoreFacts Ordering StoreOrder.

(** C2, as the code has it.  [getSortedMessages] returns the records of
    the store in ascending order of [topPx]; the records that share a
    [topPx] keep the order in which [Object.values] lists them; and that
    order is the order of insertion when the ids are not array indices:
    what scans add to a store is then appended in the order in which the
    ids are first met (an id that names a property of [Object.prototype]
    is never inserted, and the id [topPx], which a scan of the id
    [__proto__] adds to [Object.prototype], is left out).  In general
    the store lists the array-index ids first, in ascending numeric
    order, and after them the other ids in the order in which they were
    first met. *)
Theorem getSortedMessages_ascending_stable (st : store) :
  StronglySorted le_top (getSortedMessages st)
  /\ Permutation (getSortedMessages st) (values st)
  /\ (forall t, at_top t (getSortedMessages st) = at_top t (values st))
  /\ (forall parsed : list (option Message),
        (forall k, In k (seen parsed) -> array_index k = None /\ k <> "topPx") ->
        keys (fst (scan parsed st))
        = insertion_order (keys st)
            (List.filter (fun k => negb (inherited k)) (seen parsed)))
  /\ (forall parsed : list (option Message),
        wf st ->
        ~ In "topPx" (seen parsed) ->
        wf (fst (scan parsed st))
        /\ fst (scan parsed st)
           = index_part (fst (scan parsed st)) ++ rest_part (fst (scan parsed st))
        /\ keys (rest_part (fst (scan parsed st)))
           = insertion_order (keys (rest_part st))
               (List.filter (fun k => negb (indexed k) && negb (inherited k))
                  (seen parsed))).
Proof.
  unfold getSortedMessages. split; [apply sort_sorted|].
  split; [apply sort_perm|]. split; [intros t; apply sort_stable|].
  split; [intros parsed Hall; apply scan_insertion_order; intros k Hk; apply Hall; exact Hk|].
  intros parsed Hwf _. pose proof (wf_scan parsed st 0 Hwf) as Hwf'.
  split; [exact Hwf'|]. split.
  - apply sorted_split. apply Hwf'.
  - apply scan_rest_order.
Qed.

Lemma getSortedMessages_ascending_stable_witness :
  keys (fst (scan [Some (mkMessage "umsg_b" user "" 5 "" "b");
                   Some (mkMessage "aimsg_a" ai "" 5 "" "a");
                   Some (mkMessage "umsg_b" user "" 7 "" "b")] []))
  = ["umsg_b"; "aimsg_a"].
Proof.
  apply (proj1 (proj2 (proj2 (proj2 (getSortedMessages_ascending_stable []))))).
  simpl. intros k [<-|[<-|[<-|[]]]]; split; (reflexivity || discriminate).
Defined.

(** C2, as stated, fails: the ids ["2"] and ["1"], inserted in this
    order with the same [topPx], come out as ["1"], ["2"]. *)
Lemma ties_in_insertion_order_fails : ~ ties_in_insertion_order.
Proof.
  intros H.
  specialize (H [mkMessage "2" ai "" 0 "" "second"; mkMessage "1" ai "" 0 "" "first"] 0%Z).
  assert (Hnd : List.NoDup (map id [mkMessage "2" ai "" 0 "" "second";
                                    mkMessage "1" ai "" 0 "" "first"])).
  { simpl. constructor; [simpl; intros [E|[]]; discriminate|].
    constructor; [simpl; tauto|constructor]. }
  specialize (H Hnd). vm_compute in H. discriminate.
Qed.

End SortedExport.

(* ================================================================== *)
(** * The JSON export read back *)
(* ================================================================== *)

Module JsonRoundTrip.

Import Store StoreFacts Ordering PropertyOrder StoreOrder Render.

Lemma messageOfJSON_messageToJSON (m : Message) :
  messageOfJSON (messageToJSON m) = Some m.
Proof. destruct m as [i [] ts t h x]; reflexivity. Qed.

Lemma messagesOfJSON_map (l : list Message) :
  messagesOfJSON (map messageToJSON l) = Some l.
Proof.
  induction l as [|m l IH]; [reflexivity|].
  cbn [map messagesOfJSON].
  rewrite messageOfJSON_messageToJSON, IH. reflexivity.
Qed.

(** Loading records of distinct ids that the store does not hold. *)
Lemma loadFrom_fresh (msgs : list Message) (st0 : store) :
  wf st0 -> List.NoDup (map id msgs) ->
  (forall m, In m msgs -> get st0 (id m) = None) ->
  wf (loadInto st0 msgs)
  /\ Permutation (loadInto st0 msgs) (st0 ++ map entry msgs)
  /\ rest_part (loadInto st0 msgs) = rest_part st0 ++ rest_part (map entry msgs).
Proof.
  revert st0. induction msgs as [|m msgs IH]; intros st0 Hwf Hnd Hfresh.
  - unfold loadInto. simpl. rewrite !app_nil_r. split; [exact Hwf|]. split; reflexivity.
  - inversion Hnd as [|? ? Hm Hnd']; subst.
    assert (Hnone : get st0 (id m) = None) by (apply Hfresh; left; reflexivity).
    assert (Hstep : loadInto st0 (m :: msgs) = loadInto (create st0 (id m) m) msgs).
    { unfold loadInto. simpl. unfold set. rewrite Hnone. reflexivity. }
    rewrite Hstep.
    destruct (IH (create st0 (id m) m)) as (H1 & H2 & H3).
    + apply wf_create; assumption.
    + exact Hnd'.
    + intros m' Hm'. rewrite get_create by assumption.
      destruct (String.eqb_spec (id m) (id m')) as [E|_].
      * exfalso. apply Hm. rewrite E. apply in_map. exact Hm'.
      * apply Hfresh. right. exact Hm'.
    + split; [exact H1|]. split.
      * rewrite H2, create_perm. simpl.
        change ((id m, m) :: st0 ++ map entry msgs)
          with (((id m, m) :: st0) ++ map entry msgs).
        rewrite (Permutation_middle st0 (map entry msgs) (id m, m)).
        reflexivity.
      * rewrite H3, rest_part_create, <- app_assoc. f_equal.
        unfold rest_part, entry. simpl.
        destruct (indexed (id m)); reflexivity.
Qed.

(** Two runs of array-index properties with the same members are equal. *)
Lemma index_part_unique (l1 l2 : store) :
  StronglySorted key_before (keys l1) -> StronglySorted key_before (keys l2) ->
  Forall (fun kv => indexed (fst kv) = true) l1 ->
  (forall e, In e l1 <-> In e l2) -> l1 = l2.
Proof.
  assert (Hirr : forall k, indexed k = true -> ~ key_before k k).
  { intros k Hk. unfold indexed, key_before in *.
    destruct (array_index k); [lia|discriminate]. }
  revert l2. induction l1 as [|[k1 v1] l1 IH]; intros l2 Hs1 Hs2 Hidx Hmem.
  - destruct l2 as [|e l2]; [reflexivity|].
    exfalso. apply (Hmem e). left. reflexivity.
  - destruct l2 as [|[k2 v2] l2].
    + exfalso. apply (Hmem (k1, v1)). left. reflexivity.
    + simpl in Hs1, Hs2.
      inversion Hs1 as [|? ? Hs1' Hall1]; inversion Hs2 as [|? ? Hs2' Hall2]; subst.
      inversion Hidx as [|? ? Hk1 Hidx']; subst. simpl in Hk1.
      rewrite List.Forall_forall in Hall1, Hall2.
      assert (Hhead : (k1, v1) = (k2, v2)).
      { destruct (proj1 (Hmem (k1, v1)) (or_introl eq_refl)) as [E|Hin1]; [congruence|].
        destruct (proj2 (Hmem (k2, v2)) (or_introl eq_refl)) as [E|Hin2]; [congruence|].
        exfalso.
        pose proof (Hall2 k1 (in_map fst _ _ Hin1)) as H21.
        pose proof (Hall1 k2 (in_map fst _ _ Hin2)) as H12.
        unfold key_before, indexed in *.
        destruct (array_index k1), (array_index k2); try lia; try discriminate;
          contradiction. }
      injection Hhead as <- <-. f_equal.
      apply IH; [exact Hs1'|exact Hs2'|exact Hidx'|].
      intros e. split; intros He.
      * destruct (proj1 (Hmem e) (or_intror He)) as [<-|H]; [|exact H].
        exfalso. apply (Hirr k1 Hk1). apply Hall1. exact (in_map fst _ _ He).
      * destruct (proj2 (Hmem e) (or_intror He)) as [<-|H]; [|exact H].
        exfalso. apply (Hirr k1 Hk1). apply Hall2. exact (in_map fst _ _ He).
Qed.

End JsonRoundTrip.

Module JsonLossless.

Import Store StoreFacts Ordering PropertyOrder StoreOrder Render JsonRoundTrip.

Lemma sorted_filter_keys (p : string * Message -> bool) (st : store) :
  StronglySorted key_before (keys st) ->
  StronglySorted key_before (keys (List.filter p st)).
Proof.
  induction st as [|kv st IH]; simpl; intros Hs; [constructor|].
  inversion Hs as [|? ? Hs' Hall]; subst.
  destruct (p kv); simpl; [|apply IH; exact Hs'].
  constructor; [apply IH; exact Hs'|].
  rewrite List.Forall_forall in *. intros k Hk. apply Hall.
  unfold keys in *. apply in_map_iff in Hk. destruct Hk as (e & <- & He).
  apply in_map. apply List.filter_In in He. tauto.
Qed.

Lemma keyed_entries (st : store) :
  Forall (fun kv => fst kv = id (snd kv)) st -> st = map entry (values st).
Proof.
  induction 1 as [|[k v] st H Hall IH]; simpl; [reflexivity|].
  simpl in H. subst k. unfold entry at 1. f_equal. exact IH.
Qed.

Lemma values_entries (l : list Message) : values (map entry l) = l.
Proof.
  unfold values. rewrite map_map. simpl. apply map_id.
Qed.

Lemma keys_entries (l : list Message) : keys (map entry l) = map id l.
Proof. unfold keys. rewrite map_map. reflexivity. Qed.

Lemma rest_entries (l : list Message) :
  values (rest_part (map entry l)) = rest_messages l.
Proof.
  unfold rest_part, rest_messages, values.
  induction l as [|m l IH]; simpl; [reflexivity|].
  destruct (indexed (id m)); simpl; [exact IH|]. f_equal. exact IH.
Qed.

Lemma at_top_rest (t : Z) (l : list Message) :
  at_top t (rest_messages l) = rest_messages (at_top t l).
Proof.
  unfold at_top, rest_messages.
  induction l as [|m l IH]; simpl; [reflexivity|].
  destruct (indexed (id m)) eqn:I, (topPx m =? t)%Z eqn:E; simpl;
    rewrite ?E, ?I, ?IH; simpl; reflexivity.
Qed.

Lemma at_top_app (t : Z) (a b : list Message) :
  at_top t (a ++ b) = at_top t a ++ at_top t b.
Proof. unfold at_top. apply List.filter_app. Qed.

(** The sorted sequence of a well-formed store, loaded again and sorted
    again, is the same sequence. *)
Lemma reload_sorted (st : store) :
  wf st ->
  getSortedMessages (loadFrom (getSortedMessages st)) = getSortedMessages st.
Proof.
  intros Hwf. pose proof Hwf as [Hk Hn Ho].
  set (a := getSortedMessages st).
  assert (Hperm : Permutation a (values st)) by apply sort_perm.
  assert (Hst : st = map entry (values st)) by (apply keyed_entries; exact Hk).
  assert (Hnd : List.NoDup (map id a)).
  { apply (Permutation_NoDup (l := map id (values st))).
    - symmetry. apply Permutation_map. exact Hperm.
    - rewrite <- keys_entries, <- Hst. exact Hn. }
  destruct (loadFrom_fresh a [] wf_nil Hnd) as (Rwf & Rperm & Rrest);
    [reflexivity|].
  fold (loadFrom a) in Rwf, Rperm, Rrest. simpl in Rperm, Rrest.
  destruct Rwf as [Rk Rn Ro].
  assert (Hidx : index_part (loadFrom a) = index_part st).
  { apply index_part_unique.
    - apply sorted_filter_keys. exact Ro.
    - apply sorted_filter_keys. exact Ho.
    - rewrite List.Forall_forall. intros e He.
      apply List.filter_In in He. tauto.
    - intros e. unfold index_part. rewrite !List.filter_In.
      assert (In e (loadFrom a) <-> In e st); [|tauto].
      rewrite Hst. split; intros He.
      + apply (Permutation_in _ Rperm) in He.
        apply (Permutation_in _ (Permutation_map entry Hperm)). exact He.
      + apply (Permutation_in _ (Permutation_sym Rperm)).
        apply (Permutation_in _ (Permutation_sym (Permutation_map entry Hperm))).
        exact He. }
  unfold getSortedMessages at 1. apply sort_to_sorted; [apply sort_sorted|].
  intros t. fold a.
  rewrite (sorted_split (loadFrom a) Ro), Hidx, Rrest.
  unfold values at 1. rewrite map_app. fold (values (index_part st)).
  fold (values (rest_part (map entry a))).
  rewrite at_top_app, rest_entries, at_top_rest.
  unfold a at 1. unfold getSortedMessages. rewrite sort_stable.
  fold a. unfold a at 1. unfold getSortedMessages. rewrite sort_stable.
  rewrite (sorted_split st Ho) at 3.
  unfold values at 3. rewrite map_app. fold (values (index_part st)).
  fold (values (rest_part st)).
  rewrite at_top_app. f_equal.
  rewrite <- at_top_rest. f_equal.
  rewrite Hst at 2. rewrite rest_entries. reflexivity.
Qed.

(** C3. For a well-formed store (each record under its own id, as
    every store built by scans is), the message array of the JSON
    export is the sorted sequence, record for record and field for
    field, and loading it into an empty store, each record under its id
    in array order, gives a store whose sorted sequence is that same
    sequence. *)
Theorem exportJSON_round_trip (st : store) (exportedAt href : string) :
  wf st ->
  exists messages,
    messagesOfExport (exportJSON exportedAt href st) = Some messages
    /\ messages = getSortedMessages st
    /\ getSortedMessages (loadFrom messages) = getSortedMessages st.
Proof.
  intros Hwf. exists (getSortedMessages st). split.
  - unfold exportJSON, messagesOfExport. simpl. apply messagesOfJSON_map.
  - split; [reflexivity|]. apply reload_sorted. exact Hwf.
Qed.

End JsonLossless.

(* ================================================================== *)
(** * Escaping in the HTML export *)
(* ================================================================== *)

Module HtmlEscaping.

Import Render.

Lemma append_cons (x : ascii) (a b : string) :
  String x a +:+ b = String x (a +:+ b).
Proof. reflexivity. Qed.

Lemma append_nil (b : string) : EmptyString +:+ b = b.
Proof. reflexivity. Qed.

Ltac push_append := rewrite ?append_cons, ?append_nil.

Lemma append_assoc (a b c : string) : (a +:+ b) +:+ c = a +:+ (b +:+ c).
Proof.
  induction a as [|x a IH]; [reflexivity|].
  push_append. f_equal. exact IH.
Qed.

Lemma replaceAll_app (c : ascii) (by_ a b : string) :
  JsString.replaceAll c by_ (a +:+ b) =
  JsString.replaceAll c by_ a +:+ JsString.replaceAll c by_ b.
Proof.
  induction a as [|x a IH]; [reflexivity|].
  push_append. simpl. destruct (Ascii.eqb x c); rewrite IH.
  - rewrite append_assoc. reflexivity.
  - reflexivity.
Qed.

(** The three replacements in a row escape each character on its own. *)
Lemma escapeHtml_each (s : string) : escapeHtml s = escapeEach s.
Proof.
  unfold escapeHtml. induction s as [|c r IH]; [reflexivity|].
  simpl JsString.replaceAll at 3. unfold escapeEach; fold escapeEach.
  unfold escapeChar. destruct (Ascii.eqb c "&") eqn:Eamp.
  - rewrite !replaceAll_app, IH. reflexivity.
  - simpl JsString.replaceAll at 2. destruct (Ascii.eqb c "<") eqn:Elt.
    + rewrite !replaceAll_app, IH. reflexivity.
    + simpl JsString.replaceAll at 1. destruct (Ascii.eqb c ">") eqn:Egt.
      * rewrite IH. reflexivity.
      * rewrite IH. reflexivity.
Qed.

Lemma mem_app (c : ascii) (a b : string) :
  JsString.mem c (a +:+ b) = JsString.mem c a || JsString.mem c b.
Proof.
  induction a as [|x a IH]; [reflexivity|].
  push_append. simpl. rewrite IH. apply orb_assoc.
Qed.

Lemma escapeEach_no_angle (s : string) :
  JsString.mem "<" (escapeEach s) = false /\ JsString.mem ">" (escapeEach s) = false.
Proof.
  induction s as [|c r [IH1 IH2]]; [split; reflexivity|].
  simpl escapeEach. rewrite !mem_app, IH1, IH2, !orb_false_r.
  unfold escapeChar.
  destruct (Ascii.eqb c "&") eqn:Eamp; [split; reflexivity|].
  destruct (Ascii.eqb c "<") eqn:Elt; [split; reflexivity|].
  destruct (Ascii.eqb c ">") eqn:Egt; [split; reflexivity|].
  simpl. rewrite Elt, Egt. split; reflexivity.
Qed.

(** C9. For a message without markup the body of its article in the
    HTML export is the escaped text: the characters [&], [<] and [>] of
    the text are written as [&amp;], [&lt;] and [&gt;], every other
    character as it is, so the body holds no [<] and no [>], whatever
    the text. *)
Theorem fallback_body_escaped (msg : Message) :
  contentHtml msg = EmptyString ->
  bodyOf msg = escapeHtml (contentText msg)
  /\ escapeHtml (contentText msg) = escapeEach (contentText msg)
  /\ JsString.mem "<" (bodyOf msg) = false
  /\ JsString.mem ">" (bodyOf msg) = false.
Proof.
  intros H. unfold bodyOf. rewrite H. simpl.
  split; [reflexivity|]. split; [apply escapeHtml_each|].
  rewrite escapeHtml_each. apply escapeEach_no_angle.
Qed.

Lemma fallback_body_escaped_witness :
  bodyOf (mkMessage "aimsg_1" ai "" 0 "" "<script>alert(1 && 2)</script>")
  = "&lt;script&gt;alert(1 &amp;&amp; 2)&lt;/script&gt;".
Proof.
  destruct (fallback_body_escaped
              (mkMessage "aimsg_1" ai "" 0 "" "<script>alert(1 && 2)</script>")
              eq_refl) as [H _].
  rewrite H. reflexivity.
Defined.

End HtmlEscaping.

(* ================================================================== *)
(** * Thread keys of the two scripts *)
(* ================================================================== *)

Module ThreadKeys.

Lemma stripTrailingSlash_slash (p : string) :
  JsString.stripTrailingSlash (p +:+ "/") = p.
Proof.
  induction p as [|c r IH]; [reflexivity|].
  rewrite HtmlEscaping.append_cons. simpl. rewrite IH. destruct r; reflexivity.
Qed.

Lemma sanitize_chars (c : ascii) (s : string) :
  JsString.mem c (JsString.sanitize s) = true ->
  JsString.is_alpha c || JsString.is_digit c || Ascii.eqb c "_" = true.
Proof.
  induction s as [|x r IH]; simpl; [discriminate|].
  intros H. apply orb_true_iff in H. destruct H as [H|H]; [|apply IH; exact H].
  destruct (JsString.is_alpha x || JsString.is_digit x) eqn:E.
  - apply Ascii.eqb_eq in H. subst. rewrite E. reflexivity.
  - rewrite Ascii.eqb_sym in H. rewrite H. apply orb_true_r.
Qed.

Lemma same_path_same_key (tabUrl location : URL) :
  pathname tabUrl = pathname location ->
  Popup.getThreadKey tabUrl = Content.getThreadKey location.
Proof.
  intros H. unfold Popup.getThreadKey, Content.getThreadKey. rewrite H. reflexivity.
Qed.

(** C10. When the URL of the tab and the location of the page have the
    same pathname, the popup and the content script compute the same
    storage key: the prefix followed by the base64 text of the path
    without one trailing slash, with [_] for every character that is
    not a letter or a digit.  One trailing slash added to a path that
    has none makes no difference to the key, and what the popup reads
    under its key is what the content script loads under its own. *)
Theorem thread_keys_agree (tabUrl : URL) (w : World) :
  pathname tabUrl = pathname (location w) ->
  Popup.getThreadKey tabUrl = Content.getThreadKey (location w)
  /\ Content.getThreadKey (location w) =
       STORAGE_KEY_PREFIX
       +:+ JsString.sanitize (Base64.btoa (JsString.stripTrailingSlash (pathname (location w))))
  /\ (forall c,
        JsString.mem c (JsString.sanitize
                          (Base64.btoa (JsString.stripTrailingSlash (pathname (location w))))) = true ->
        JsString.is_alpha c || JsString.is_digit c || Ascii.eqb c "_" = true)
  /\ (JsString.stripTrailingSlash (pathname tabUrl) = pathname tabUrl ->
      Popup.getThreadKey (mkURL (hostname tabUrl) (pathname tabUrl +:+ "/"))
      = Content.getThreadKey (location w))
  /\ popup_getMessages tabUrl w = loadMessages w.
Proof.
  intros H. unfold Popup.getThreadKey, Content.getThreadKey,
    popup_getMessages, loadMessages, Popup.getThreadKey, Content.getThreadKey.
  simpl pathname. rewrite stripTrailingSlash_slash, H.
  repeat split; try reflexivity.
  - intros c. apply sanitize_chars.
  - intros ->. reflexivity.
Qed.

Lemma thread_keys_agree_witness :
  Popup.getThreadKey (mkURL "lovable.dev" "/projects/abc/")
  = Content.getThreadKey
      (location (mkWorld [] false false (mkURL "lovable.dev" "/projects/abc/") ∅ 0 [] [])).
Proof.
  apply (thread_keys_agree (mkURL "lovable.dev" "/projects/abc/")
           (mkWorld [] false false (mkURL "lovable.dev" "/projects/abc/") ∅ 0 [] [])).
  reflexivity.
Defined.

End ThreadKeys.

(* ================================================================== *)
(** * The timestamp of a parsed message *)
(* ================================================================== *)

Module Timestamp.

Import Dom Parser.

(** C8, as the code has it.  The timestamp is made of the trimmed text
    of the date label and the trimmed text of the element right after
    it: without a date label it is empty; with both texts it is the two
    joined by one space; when the element after the date label is
    missing, or its text is blank, it is the date text alone, and when
    only the date text is blank it is the other text alone. *)
Theorem timestamp_of_labels (e : node) :
  match dateSpan e with
  | None => timeSpan e = None /\ timestampOf e = EmptyString
  | Some d =>
      let date := JsString.trim (textContent (self d)) in
      match timeSpan e with
      | None => timestampOf e = date
      | Some t =>
          let time := JsString.trim (textContent t) in
          timestampOf e =
            if JsString.truthy date
            then (if JsString.truthy time then date +:+ " " +:+ time else date)
            else time
      end
  end.
Proof.
  unfold timestampOf, timeSpan.
  destruct (dateSpan e) as [d|]; simpl; [|split; reflexivity].
  destruct (nextElementSibling d) as [t|]; simpl.
  - destruct (JsString.trim (textContent (self d))) as [|a s];
      destruct (JsString.trim (textContent t)) as [|b s']; simpl; reflexivity.
  - destruct (JsString.trim (textContent (self d))) as [|a s]; reflexivity.
Qed.

(** C8, as stated, fails: a date label that nothing follows gives the
    date text, not the empty string. *)
Lemma absent_time_label_keeps_date : ~ absent_label_gives_empty.
Proof.
  intros H.
  specialize (H (Element "div" [("data-message-id", "umsg_1")]
                   [Element "span" [("class", "text-muted-foreground font-medium")]
                      [Text "Jan 5"]])).
  assert (Hno : timeSpan (Element "div" [("data-message-id", "umsg_1")]
                   [Element "span" [("class", "text-muted-foreground font-medium")]
                      [Text "Jan 5"]]) = None) by reflexivity.
  specialize (H (or_intror Hno)). vm_compute in H. discriminate.
Qed.

End Timestamp.

(* ================================================================== *)
(** * Saving: timers and durable writes *)
(* ================================================================== *)

Module Saving.

Lemma saveCallbacks_fields (due : list nat) (w : World) :
  capturedMessages (fold_left saveCallback due w) = capturedMessages w
  /\ location (fold_left saveCallback due w) = location w
  /\ isAutoScrolling (fold_left saveCallback due w) = isAutoScrolling w
  /\ clock (fold_left saveCallback due w) = clock w
  /\ timers (fold_left saveCallback due w) = timers w.
Proof.
  revert w. induction due as [|d due IH]; intros w; simpl.
  - repeat split.
  - destruct (IH (saveCallback w d)) as (H1 & H2 & H3 & H4 & H5).
    rewrite H1, H2, H3, H4, H5. repeat split.
Qed.

(** Time passing changes neither the map nor the location. *)
Lemma tick_fields (dt : nat) (w : World) :
  capturedMessages (tick dt w) = capturedMessages w
  /\ location (tick dt w) = location w
  /\ isAutoScrolling (tick dt w) = isAutoScrolling w
  /\ clock (tick dt w) = clock w + dt.
Proof.
  unfold tick.
  match goal with |- context [fold_left saveCallback ?l ?w0] =>
    destruct (saveCallbacks_fields l w0) as (H1 & H2 & H3 & H4 & _) end.
  rewrite H1, H2, H3, H4. repeat split.
Qed.

(** With one callback waiting, time that stops short of its due time
    only moves the clock. *)
Lemma tick_early (dt d : nat) (w : World) :
  timers w = [d] -> clock w + dt < d -> tick dt w = set_clock (clock w + dt) w.
Proof.
  intros Ht Hlt. unfold tick, set_clock. rewrite Ht. simpl.
  destruct (d <=? clock w + dt) eqn:E; [apply Nat.leb_le in E; lia|].
  simpl. reflexivity.
Qed.

(** With one callback waiting, time that reaches its due time runs it:
    the map is written under the thread key, once, at the due time. *)
Lemma tick_due (dt d : nat) (w : World) :
  timers w = [d] -> d <= clock w + dt ->
  tick dt w =
  {| capturedMessages := capturedMessages w; pendingSave := false;
     isAutoScrolling := isAutoScrolling w; location := location w;
     storage := <[Content.getThreadKey (location w) := capturedMessages w]> (storage w);
     clock := clock w + dt; timers := [];
     writes := writes w ++ [d] |}.
Proof.
  intros Ht Hle. unfold tick. rewrite Ht. simpl.
  destruct (d <=? clock w + dt) eqn:E; [|apply Nat.leb_gt in E; lia].
  simpl. reflexivity.
Qed.

Lemma set_clock_same (w : World) (n : nat) :
  n = clock w -> set_clock n w = w.
Proof. intros ->. destruct w. reflexivity. Qed.

(** While a save is pending, further calls within the delay change
    nothing but the clock. *)
Lemma calls_while_pending (gaps : list nat) (d : nat) (w : World) :
  pendingSave w = true -> timers w = [d] -> clock w + list_sum gaps < d ->
  fold_left call_after gaps w = set_clock (clock w + list_sum gaps) w.
Proof.
  revert w. induction gaps as [|g gaps IH]; intros w Hp Ht Hlt; simpl in *.
  - symmetry. apply set_clock_same. lia.
  - assert (Hstep : call_after w g = set_clock (clock w + g) w).
    { unfold call_after. rewrite (tick_early g d) by (assumption || lia).
      unfold flushSave. simpl. rewrite Hp. reflexivity. }
    rewrite Hstep, IH; simpl; try assumption; try lia.
    unfold set_clock. simpl. f_equal. lia.
Qed.

(** C5, as the code has it.  The calls of a burst that begins with no
    save pending and lasts less than 400 ms lead to one durable write,
    of the map under the thread key, 400 ms after the first call: the
    calls after the first do not move the due time. *)
Theorem burst_saved_once_after_first_call (w : World) (gaps : list nat) (dt : nat) :
  idle w ->
  list_sum gaps < 400 ->
  400 <= list_sum gaps + dt ->
  timers (burst gaps w) = [clock w + 400]
  /\ writes (burst gaps w) = writes w
  /\ writes (tick dt (burst gaps w)) = writes w ++ [clock w + 400]
  /\ timers (tick dt (burst gaps w)) = []
  /\ pendingSave (tick dt (burst gaps w)) = false
  /\ storage (tick dt (burst gaps w))
     = <[Content.getThreadKey (location w) := capturedMessages w]> (storage w).
Proof.
  intros [Hp Ht] Hsum Hdt. unfold burst.
  assert (Hfirst : flushSave w =
            {| capturedMessages := capturedMessages w; pendingSave := true;
               isAutoScrolling := isAutoScrolling w; location := location w;
               storage := storage w; clock := clock w;
               timers := [clock w + 400]; writes := writes w |}).
  { unfold flushSave. rewrite Hp, Ht. reflexivity. }
  rewrite (calls_while_pending gaps (clock w + 400));
    [|rewrite Hfirst; reflexivity|rewrite Hfirst; reflexivity
     |rewrite Hfirst; simpl; lia].
  rewrite Hfirst. simpl.
  split; [reflexivity|]. split; [reflexivity|].
  rewrite (tick_due dt (clock w + 400)); [|reflexivity|simpl; lia].
  simpl. repeat split.
Qed.

Lemma burst_saved_once_after_first_call_witness :
  writes (tick 150 (burst [100; 200]
                      (mkWorld [] false false (mkURL "lovable.dev" "/projects/p") ∅ 1000 [] [])))
  = [1400].
Proof.
  destruct (burst_saved_once_after_first_call
              (mkWorld [] false false (mkURL "lovable.dev" "/projects/p") ∅ 1000 [] [])
              [100; 200] 150) as (_ & _ & H & _).
  - split; reflexivity.
  - simpl. lia.
  - simpl. lia.
  - exact H.
Defined.

(** C5, as stated, fails: of two calls 300 ms apart the write happens
    400 ms after the first, 100 ms after the second. *)
Lemma write_is_not_delayed_by_later_calls : ~ trailing_edge_debounce.
Proof.
  intros H.
  specialize (H (mkWorld [] false false (mkURL "lovable.dev" "/projects/p") ∅ 0 [] [])
                [300]).
  assert (Hidle : idle (mkWorld [] false false (mkURL "lovable.dev" "/projects/p") ∅ 0 [] []))
    by (split; reflexivity).
  assert (Hgaps : Forall (fun g => g < 400) [300]) by (repeat constructor; lia).
  specialize (H Hidle Hgaps). vm_compute in H. discriminate.
Qed.

End Saving.

(* ================================================================== *)
(** * Termination of the history-completion driver *)
(* ================================================================== *)

Module DriverFacts.

Import Driver.

Section Run.

Variable innerHTML : Dom.node -> string.
Variable src : nat -> list Parser.Candidate.


(** A round scans the candidates of the source into the map. *)
Lemma round_captured (i : nat) (w : World) :
  capturedMessages (Driver.round innerHTML src i w) =
  fst (Store.scan (map (Parser.parseMessageElement innerHTML) (src i)) (capturedMessages w)).
Proof.
  unfold Driver.round.
  destruct (Reobservation.scanVisibleMessages_store innerHTML (src i) (tick 600 w)) as [H _].
  rewrite H. destruct (Saving.tick_fields 600 w) as [-> _]. reflexivity.
Qed.

Lemma quiet_const (N : nat) (w : World) :
  Driver.quiet_after innerHTML src N w -> forall i j, N <= i -> Driver.count_after innerHTML src w (i + j) = Driver.count_after innerHTML src w i.
Proof.
  intros Hq i j Hi. induction j as [|j IH].
  - rewrite Nat.add_0_r. reflexivity.
  - rewrite Nat.add_succ_r, Hq by lia. exact IH.
Qed.

(** What the map holds and what the rounds have shown stays in the map,
    the names of [Object.prototype] apart, which never enter it. *)
Lemma known_after_rounds (w : World) (n : nat) (k : string) :
  Store.get (capturedMessages w) k <> None
  \/ (exists j, j < n
        /\ In k (Store.seen (map (Parser.parseMessageElement innerHTML) (src j)))) ->
  Store.get (capturedMessages (Driver.after_rounds innerHTML src n w)) k <> None
  \/ Store.inherited k = true.
Proof.
  induction n as [|n IH]; intros Hk.
  - destruct Hk as [Hk|(j & Hj & _)]; [left; exact Hk|lia].
  - simpl Driver.after_rounds. rewrite round_captured.
    destruct Hk as [Hk|(j & Hj & Hin)].
    + destruct (IH (or_introl Hk)) as [H|H]; [left|right; exact H].
      apply StoreFacts.scan_keeps. exact H.
    + destruct (Nat.eq_dec j n) as [->|Hne].
      * apply StoreFacts.scan_has. exact Hin.
      * destruct IH as [H|H]; [right; exists j; split; [lia|exact Hin]|left|right; exact H].
        apply StoreFacts.scan_keeps. exact H.
Qed.

(** A source that shows nothing new after [N] rounds is quiet after [N]
    rounds. *)
Lemma nothing_new_quiet (N : nat) (w : World) :
  Driver.nothing_new_after innerHTML src N w -> Driver.quiet_after innerHTML src N w.
Proof.
  intros Hnew n Hn. unfold Driver.count_after. simpl Driver.after_rounds.
  rewrite round_captured. unfold Store.count.
  destruct (StoreFacts.scan_settled
              (map (Parser.parseMessageElement innerHTML) (src n))
              (capturedMessages (Driver.after_rounds innerHTML src n w)) 0) as [_ H].
  - intros k Hk. apply known_after_rounds. exact (Hnew n k Hn Hk).
  - unfold Store.scan. rewrite H. reflexivity.
Qed.

(** One round of the loop, from the state after [i] rounds. *)
Lemma scroll_loop_step (fuel i L s : nat) (w : World) :
  s < 3 ->
  Driver.scroll_loop innerHTML src (S fuel) i L s (Driver.after_rounds innerHTML src i w) =
  if Driver.count_after innerHTML src w (S i) =? L
  then Driver.scroll_loop innerHTML src fuel (S i) L (S s) (Driver.after_rounds innerHTML src (S i) w)
  else Driver.scroll_loop innerHTML src fuel (S i) (Driver.count_after innerHTML src w (S i)) 0 (Driver.after_rounds innerHTML src (S i) w).
Proof.
  intros Hs. destruct s as [|[|[|s]]]; [reflexivity|reflexivity|reflexivity|lia].
Qed.

Lemma scroll_loop_done (fuel i L : nat) (w : World) :
  Driver.scroll_loop innerHTML src fuel i L 3 w = Some (w, i).
Proof. destruct fuel; reflexivity. Qed.

(** From a state whose count stays what [lastCount] holds, the loop
    ends after the rounds that complete three unchanged ones. *)
Lemma scroll_loop_settles (w : World) (r fuel i L s : nat) :
  s + r = 3 -> r <= fuel ->
  (forall j, j < r -> Driver.count_after innerHTML src w (S (i + j)) = L) ->
  Driver.scroll_loop innerHTML src fuel i L s (Driver.after_rounds innerHTML src i w) = Some (Driver.after_rounds innerHTML src (i + r) w, i + r).
Proof.
  revert fuel i s. induction r as [|r IH]; intros fuel i s Hsr Hfuel Hconst.
  - rewrite Nat.add_0_r in *. subst s. apply scroll_loop_done.
  - destruct fuel as [|fuel]; [lia|].
    rewrite scroll_loop_step by lia.
    pose proof (Hconst 0 ltac:(lia)) as H0. rewrite Nat.add_0_r in H0.
    rewrite H0, Nat.eqb_refl.
    rewrite (IH fuel (S i) (S s)); [|lia|lia|].
    + rewrite Nat.add_succ_r. reflexivity.
    + intros j Hj. specialize (Hconst (S j) ltac:(lia)).
      rewrite Nat.add_succ_r in Hconst. exact Hconst.
Qed.

(** Against a source that is quiet after [N] rounds the loop ends, at
    the latest three rounds after the first round from which
    [lastCount] holds the count of the quiet source. *)
Lemma scroll_loop_ends (w : World) (N d fuel i L s : nat) :
  Driver.quiet_after innerHTML src N w ->
  L = Driver.baseline innerHTML src w i -> s <= 3 ->
  N <= i + d -> Driver.baseline innerHTML src w (i + d) = Driver.count_after innerHTML src w (i + d) ->
  d + 3 <= fuel ->
  exists n,
    Driver.scroll_loop innerHTML src fuel i L s (Driver.after_rounds innerHTML src i w) = Some (Driver.after_rounds innerHTML src n w, n)
    /\ n <= i + d + 3.
Proof.
  intros Hq. revert fuel i L s.
  induction d as [|d IH]; intros fuel i L s HL Hs HN Hbase Hfuel.
  - rewrite Nat.add_0_r in *. exists (i + (3 - s)). split; [|lia].
    apply scroll_loop_settles; [lia|lia|].
    intros j Hj. rewrite <- Nat.add_succ_r, (quiet_const N w Hq) by lia.
    congruence.
  - destruct (Nat.eq_dec s 3) as [->|Hs3].
    + exists i. rewrite scroll_loop_done. split; [reflexivity|lia].
    + destruct fuel as [|fuel]; [lia|].
      rewrite scroll_loop_step by lia.
      rewrite Nat.add_succ_r in HN, Hbase.
      destruct (Driver.count_after innerHTML src w (S i) =? L) eqn:E.
      * apply Nat.eqb_eq in E.
        destruct (IH fuel (S i) L (S s)) as (n & Hn & Hle);
          [simpl; congruence|lia|exact HN|exact Hbase|lia|].
        exists n. split; [exact Hn|lia].
      * destruct (IH fuel (S i) (Driver.count_after innerHTML src w (S i)) 0) as (n & Hn & Hle);
          [reflexivity|lia|exact HN|exact Hbase|lia|].
        exists n. split; [exact Hn|lia].
Qed.

(** When the loop ends, it is at the first round that completes three
    unchanged rounds in a row. *)
Lemma scroll_loop_first_streak (w : World) (fuel i L s : nat) (w' : World) (n : nat) :
  L = Driver.baseline innerHTML src w i -> s = Driver.streak innerHTML src w i -> s <= 3 ->
  Driver.scroll_loop innerHTML src fuel i L s (Driver.after_rounds innerHTML src i w) = Some (w', n) ->
  w' = Driver.after_rounds innerHTML src n w /\ i <= n /\ Driver.streak innerHTML src w n = 3
  /\ (forall m, i <= m -> m < n -> Driver.streak innerHTML src w m < 3).
Proof.
  revert i L s. induction fuel as [|fuel IH]; intros i L s HL Hs Hle Hrun.
  - destruct s as [|[|[|s]]]; try discriminate Hrun.
    injection Hrun as <- <-. assert (s = 0) by lia. subst s.
    split; [reflexivity|]. split; [lia|]. split; [congruence|]. intros; lia.
  - destruct (Nat.eq_dec s 3) as [Hs3|Hs3].
    + rewrite Hs3, scroll_loop_done in Hrun. injection Hrun as <- <-.
      split; [reflexivity|]. split; [lia|]. split; [congruence|]. intros; lia.
    + rewrite scroll_loop_step in Hrun by lia.
      assert (Hstreak : Driver.streak innerHTML src w (S i) =
                if Driver.count_after innerHTML src w (S i) =? L then S s else 0).
      { simpl. unfold Driver.unchanged. rewrite <- HL, <- Hs. reflexivity. }
      destruct (Driver.count_after innerHTML src w (S i) =? L) eqn:E.
      * apply Nat.eqb_eq in E.
        destruct (IH (S i) L (S s)) as (H1 & H2 & H3 & H4);
          [simpl; congruence|congruence|lia|exact Hrun|].
        split; [exact H1|]. split; [lia|]. split; [exact H3|].
        intros m Hm1 Hm2. destruct (Nat.eq_dec m i) as [->|]; [lia|].
        apply H4; lia.
      * destruct (IH (S i) (Driver.count_after innerHTML src w (S i)) 0) as (H1 & H2 & H3 & H4);
          [reflexivity|congruence|lia|exact Hrun|].
        split; [exact H1|]. split; [lia|]. split; [exact H3|].
        intros m Hm1 Hm2. destruct (Nat.eq_dec m i) as [->|]; [lia|].
        apply H4; lia.
Qed.

(** C7, as the code has it.  Without a scrollable container the run
    ends at once with the no-container outcome: no round is run, no
    time passes and the map is untouched.  With a container, against a source that is quiet
    after [N] rounds, the run ends (given fuel for [N + 4] rounds) at the
    first round that completes three rounds in a row in which the
    count was found unchanged, where the first round compares the count
    with 0; it reports the count of the final map; and the number of
    rounds is at most [max N 1 + 3], and at most [N + 3] when the map is
    empty at the start. *)
Theorem driver_settles (w : World) (N fuel : nat) :
  isAutoScrolling w = false ->
  Driver.quiet_after innerHTML src N (set_autoScrolling true w) ->
  N + 4 <= fuel ->
  (forall fuel', exists w',
     autoScrollAndCapture innerHTML src fuel' None w = Some (w', NoContainer)
     /\ capturedMessages w' = capturedMessages w
     /\ clock w' = clock w
     /\ isAutoScrolling w' = false)
  /\ (forall c : Scrollable,
        exists n,
          autoScrollAndCapture innerHTML src fuel (Some c) w =
            Some (set_autoScrolling false (Driver.after_rounds innerHTML src n (set_autoScrolling true w)),
                  Captured n (Driver.count_after innerHTML src (set_autoScrolling true w) n) (scrollHeight c))
          /\ Driver.streak innerHTML src (set_autoScrolling true w) n = 3
          /\ (forall m, m < n -> Driver.streak innerHTML src (set_autoScrolling true w) m < 3)
          /\ n <= Nat.max N 1 + 3
          /\ (Store.count (capturedMessages w) = 0 -> n <= N + 3)).
Proof.
  intros Hidle Hq Hfuel. unfold autoScrollAndCapture. rewrite Hidle. split.
  - intros fuel'. eexists. split; [reflexivity|]. repeat split.
  - intros c. set (w1 := set_autoScrolling true w) in *.
    destruct (scroll_loop_ends w1 N (Nat.max N 1) fuel 0 0 0 Hq)
      as (n & Hrun & Hn); [reflexivity|lia|lia| |lia|].
    { destruct (Nat.max N 1) eqn:E; [lia|reflexivity]. }
    destruct (scroll_loop_first_streak w1 fuel 0 0 0 _ n eq_refl eq_refl
                ltac:(lia) Hrun) as (_ & _ & Hstreak & Hfirst).
    assert (Hrun0 : Driver.scroll_loop innerHTML src fuel 0 0 0 w1
                    = Some (Driver.after_rounds innerHTML src n w1, n)) by exact Hrun.
    exists n. rewrite Hrun0. split; [reflexivity|]. split; [exact Hstreak|].
    split; [intros m Hm; apply Hfirst; lia|]. split; [exact Hn|].
    intros Hempty.
    destruct (scroll_loop_ends w1 N N fuel 0 0 0 Hq)
      as (n' & Hrun' & Hn'); [reflexivity|lia|lia| |lia|].
    { destruct N; [|reflexivity]. simpl. unfold Driver.count_after. simpl.
      symmetry. exact Hempty. }
    assert (Hrun1 : Driver.scroll_loop innerHTML src fuel 0 0 0 w1
                    = Some (Driver.after_rounds innerHTML src n' w1, n')) by exact Hrun'.
    rewrite Hrun0 in Hrun1. injection Hrun1 as _ <-. exact Hn'.
Qed.

End Run.

End DriverFacts.

Module DriverRuns.

Import Driver.

(** A source that shows nothing is quiet from the start. *)
Lemma no_candidates_quiet (innerHTML : Dom.node -> string) (w : World) :
  quiet_after innerHTML (fun _ => []) 0 w.
Proof.
  intros n _. unfold count_after. simpl after_rounds.
  rewrite DriverFacts.round_captured. reflexivity.
Qed.

(** A source that shows the same candidates in every round is quiet
    after the first round. *)
Lemma same_candidates_quiet (innerHTML : Dom.node -> string)
    (els : list Parser.Candidate) (w : World) :
  quiet_after innerHTML (fun _ => els) 1 w.
Proof.
  intros n Hn. destruct n as [|n]; [lia|].
  unfold count_after. simpl after_rounds.
  rewrite (DriverFacts.round_captured innerHTML (fun _ => els) (S n)).
  rewrite (DriverFacts.round_captured innerHTML (fun _ => els) n).
  set (parsed := map (Parser.parseMessageElement innerHTML) els).
  set (st := capturedMessages (after_rounds innerHTML (fun _ => els) n w)).
  unfold Store.count.
  destruct (StoreFacts.scan_settled parsed (fst (Store.scan parsed st)) 0) as [_ H].
  - intros k Hk. apply StoreFacts.scan_has. exact Hk.
  - unfold Store.scan at 1. rewrite H. reflexivity.
Qed.

Lemma driver_settles_witness :
  exists n,
    autoScrollAndCapture (fun _ => EmptyString)
      (fun _ => [Parser.mkCandidate
                   (Dom.Element "div" [("data-message-id", "umsg_1")] []) (Some 40%Z)])
      5 (Some (mkScrollable 900 300))
      (mkWorld [] false false (mkURL "lovable.dev" "/projects/p") ∅ 0 [] [])
    = Some (set_autoScrolling false
              (after_rounds (fun _ => EmptyString)
                 (fun _ => [Parser.mkCandidate
                              (Dom.Element "div" [("data-message-id", "umsg_1")] [])
                              (Some 40%Z)])
                 n
                 (set_autoScrolling true
                    (mkWorld [] false false (mkURL "lovable.dev" "/projects/p") ∅ 0 [] []))),
            Captured n
              (count_after (fun _ => EmptyString)
                 (fun _ => [Parser.mkCandidate
                              (Dom.Element "div" [("data-message-id", "umsg_1")] [])
                              (Some 40%Z)])
                 (set_autoScrolling true
                    (mkWorld [] false false (mkURL "lovable.dev" "/projects/p") ∅ 0 [] []))
                 n)
              900)
    /\ n <= 4.
Proof.
  destruct (DriverFacts.driver_settles (fun _ => EmptyString)
              (fun _ => [Parser.mkCandidate
                           (Dom.Element "div" [("data-message-id", "umsg_1")] [])
                           (Some 40%Z)])
              (mkWorld [] false false (mkURL "lovable.dev" "/projects/p") ∅ 0 [] [])
              1 5 eq_refl (same_candidates_quiet _ _ _) ltac:(lia)) as [_ H].
  destruct (H (mkScrollable 900 300)) as (n & Hrun & _ & _ & Hn & _).
  exists n. split; [exact Hrun|]. simpl in Hn. lia.
Defined.

(** C7, as stated, fails: with one record in the map and a source that
    never shows anything new ([N] is 0), the loop runs four rounds, the
    first of which compares the count with 0. *)
Lemma four_rounds_when_nothing_is_new : ~ ends_within_N_plus_3.
Proof.
  intros H.
  destruct (H (fun _ => EmptyString) (fun _ => [])
              (mkWorld [("umsg_1", mkMessage "umsg_1" user "" 0 "" "hi")] false false
                 (mkURL "lovable.dev" "/projects/p") ∅ 0 [] [])
              (mkScrollable 900 300) 0 eq_refl (no_candidates_quiet _ _))
    as (fuel & w' & n & reported & top & Hrun & Hn).
  unfold autoScrollAndCapture in Hrun. simpl isAutoScrolling in Hrun.
  destruct fuel as [|[|[|[|fuel]]]]; cbn in Hrun; try discriminate.
  rewrite DriverFacts.scroll_loop_done in Hrun.
  injection Hrun as _ Hfour _ _. lia.
Qed.

End DriverRuns.

(* ================================================================== *)
(** * Ordered lists in the Markdown conversion *)
(* ================================================================== *)

Module OrderedLists.

Import Dom Markdown.

Lemma append_empty_r (s : string) : s +:+ EmptyString = s.
Proof.
  induction s as [|c s IH]; [reflexivity|].
  rewrite HtmlEscaping.append_cons, IH. reflexivity.
Qed.

(** A list item is converted to its content after the marker [- ],
    whatever its parent is. *)
Lemma list_item_marker (resolve : string -> string) (inPre : bool)
    (attrs : list (string * string)) (s : string) :
  walk resolve inPre (Element "li" attrs [Text s]) = "- " +:+ s.
Proof.
  change (walk resolve inPre (Element "li" attrs [Text s]))
    with ("- " +:+ (s +:+ EmptyString)).
  rewrite append_empty_r. reflexivity.
Qed.

(** C6 at an ordered list of two items: each item is numbered by the
    rule for the list and also carries the marker [- ] of the rule for
    list items. *)
Theorem ordered_items_keep_dash (resolve : string -> string) (a b : string) :
  walk resolve false
    (Element "ol" [] [Element "li" [] [Text a]; Element "li" [] [Text b]])
  = "1. - " +:+ a +:+ nl +:+ "2. - " +:+ b +:+ nl +:+ nl
  /\ htmlToMarkdown resolve
       [Element "ol" [] [Element "li" [] [Text "a"]; Element "li" [] [Text "b"]]]
     = "1. - a" +:+ nl +:+ "2. - b"
  /\ htmlToMarkdown resolve
       [Element "ul" [] [Element "li" [] [Text "a"]]]
     = "- a".
Proof.
  split; [|split; reflexivity].
  change (walk resolve false
            (Element "ol" [] [Element "li" [] [Text a]; Element "li" [] [Text b]]))
    with (("1" +:+ ". " +:+ ("- " +:+ (a +:+ EmptyString)) +:+ nl
           +:+ ("2" +:+ ". " +:+ ("- " +:+ (b +:+ EmptyString)) +:+ nl
                +:+ EmptyString)) +:+ nl).
  rewrite !append_empty_r, ?HtmlEscaping.append_assoc. reflexivity.
Qed.

End OrderedLists.

(* ================================================================== *)
(** * The properties at concrete inputs *)
(* ================================================================== *)

Module Instances.

Import Store.

Lemma inherited_id_is_not_inserted_witness :
  snd (upsert [("umsg_1", mkMessage "umsg_1" user "Jan 5 10:30" 120 "<p>hi</p>" "hi")]
         (mkMessage "umsg_1" user "" 480 "" "changed")) = 0
  /\ get (fst (upsert [("umsg_1", mkMessage "umsg_1" user "Jan 5 10:30" 120 "<p>hi</p>" "hi")]
                 (mkMessage "umsg_1" user "" 480 "" "changed"))) "umsg_1"
     = Some (mkMessage "umsg_1" user "Jan 5 10:30" 480 "<p>hi</p>" "hi")
  /\ upsert [("umsg_1", mkMessage "umsg_1" user "Jan 5 10:30" 120 "<p>hi</p>" "hi")]
        (mkMessage "toString" ai "" 480 "" "text")
     = ([("umsg_1", mkMessage "umsg_1" user "Jan 5 10:30" 120 "<p>hi</p>" "hi")], 0)
  /\ count (fst (upsert [("umsg_1", mkMessage "umsg_1" user "Jan 5 10:30" 120 "<p>hi</p>" "hi")]
                   (mkMessage "aimsg_2" ai "" 480 "" "text")))
     = 2.
Proof.
  pose proof (proj1 Reobservation.inherited_id_is_not_inserted
                [("umsg_1", mkMessage "umsg_1" user "Jan 5 10:30" 120 "<p>hi</p>" "hi")]
                (mkMessage "umsg_1" user "" 480 "" "changed")) as H.
  pose proof (proj1 Reobservation.inherited_id_is_not_inserted
                [("umsg_1", mkMessage "umsg_1" user "Jan 5 10:30" 120 "<p>hi</p>" "hi")]
                (mkMessage "toString" ai "" 480 "" "text")) as Hproto.
  pose proof (proj1 Reobservation.inherited_id_is_not_inserted
                [("umsg_1", mkMessage "umsg_1" user "Jan 5 10:30" 120 "<p>hi</p>" "hi")]
                (mkMessage "aimsg_2" ai "" 480 "" "text")) as Hnew.
  simpl in H. destruct H as (H0 & _).
  simpl in Hproto.
  simpl in Hnew. destruct Hnew as (_ & Hcount & _); [discriminate|].
  split; [exact H0|]. split; [reflexivity|]. split; [exact Hproto|exact Hcount].
Defined.

Lemma exportJSON_round_trip_witness :
  Render.messagesOfExport
    (Render.exportJSON "2026-01-01T00:00:00.000Z" "https://lovable.dev/projects/p"
       [("7", mkMessage "7" ai "" 30 "" "seven");
        ("10", mkMessage "10" ai "" 10 "" "ten");
        ("umsg_b", mkMessage "umsg_b" user "" 10 "<p>b</p>" "b");
        ("aimsg_a", mkMessage "aimsg_a" ai "" 10 "" "a")])
  = Some [mkMessage "10" ai "" 10 "" "ten";
          mkMessage "umsg_b" user "" 10 "<p>b</p>" "b";
          mkMessage "aimsg_a" ai "" 10 "" "a";
          mkMessage "7" ai "" 30 "" "seven"]
  /\ getSortedMessages
       (Render.loadFrom
          [mkMessage "10" ai "" 10 "" "ten";
           mkMessage "umsg_b" user "" 10 "<p>b</p>" "b";
           mkMessage "aimsg_a" ai "" 10 "" "a";
           mkMessage "7" ai "" 30 "" "seven"])
     = [mkMessage "10" ai "" 10 "" "ten";
        mkMessage "umsg_b" user "" 10 "<p>b</p>" "b";
        mkMessage "aimsg_a" ai "" 10 "" "a";
        mkMessage "7" ai "" 30 "" "seven"].
Proof.
  assert (Hwf : wf [("7", mkMessage "7" ai "" 30 "" "seven");
                    ("10", mkMessage "10" ai "" 10 "" "ten");
                    ("umsg_b", mkMessage "umsg_b" user "" 10 "<p>b</p>" "b");
                    ("aimsg_a", mkMessage "aimsg_a" ai "" 10 "" "a")]).
  { split.
    - repeat constructor.
    - simpl. repeat constructor; simpl; intuition discriminate.
    - simpl. repeat constructor; vm_compute; auto. }
  destruct (JsonLossless.exportJSON_round_trip _
              "2026-01-01T00:00:00.000Z" "https://lovable.dev/projects/p" Hwf)
    as (ms & Hms & Heq & Hround).
  subst ms. split; [exact Hms|exact Hround].
Defined.

End Instances.

(* ================================================================== *)
(** * Scans: growth, kept records, scheduled saves *)
(* ================================================================== *)

Module ScanFacts.

Import Store StoreFacts.

Lemma upsert_count (st : store) (m : Message) :
  count (fst (upsert st m)) = count st + snd (upsert st m).
Proof.
  rewrite upsert_unfold.
  destruct (get st (id m)); [|destruct (inherited (id m))]; simpl.
  - unfold count. rewrite keys_set_topPx. lia.
  - lia.
  - rewrite count_create. lia.
Qed.

Lemma scan_count (parsed : list (option Message)) (st : store) (n : nat) :
  count (fst (fold_left scan_step parsed (st, n))) + n
  = count st + snd (fold_left scan_step parsed (st, n)).
Proof.
  revert st n. induction parsed as [|[m|] parsed IH]; intros st n; simpl.
  - reflexivity.
  - pose proof (upsert_count st m) as H.
    destruct (upsert st m) as [st' d]. simpl in H.
    specialize (IH st' (n + d)). lia.
  - apply IH.
Qed.

Lemma same_content_refl (v : Message) : same_content v v.
Proof. repeat split. Qed.

Lemma same_content_trans (a b c : Message) :
  same_content a b -> same_content b c -> same_content a c.
Proof.
  intros (H1 & H2 & H3 & H4 & H5) (G1 & G2 & G3 & G4 & G5).
  repeat split; congruence.
Qed.

Lemma upsert_content (st : store) (m : Message) (k : string) (v : Message) :
  get st k = Some v ->
  exists v', get (fst (upsert st m)) k = Some v' /\ same_content v v'.
Proof.
  intros Hk. rewrite upsert_unfold.
  destruct (get st (id m)) eqn:E; [|destruct (inherited (id m))]; simpl.
  - rewrite get_set_topPx, Hk. destruct (String.eqb (id m) k); simpl.
    + eexists. split; [reflexivity|]. repeat split.
    + exists v. split; [reflexivity|apply same_content_refl].
  - exists v. split; [exact Hk|apply same_content_refl].
  - rewrite get_create by assumption.
    destruct (String.eqb_spec (id m) k) as [Heq|_]; [congruence|].
    exists v. split; [exact Hk|apply same_content_refl].
Qed.

Lemma scan_content (parsed : list (option Message)) (st : store) (n : nat)
    (k : string) (v : Message) :
  get st k = Some v ->
  exists v', get (fst (fold_left scan_step parsed (st, n))) k = Some v'
             /\ same_content v v'.
Proof.
  revert st n v. induction parsed as [|[m|] parsed IH]; intros st n v Hk; simpl.
  - exists v. split; [exact Hk|apply same_content_refl].
  - destruct (upsert_content st m k v Hk) as (v1 & H1 & S1).
    destruct (upsert st m) as [st' d]. simpl in H1.
    destruct (IH st' (n + d) v1 H1) as (v2 & H2 & S2).
    exists v2. split; [exact H2|]. eapply same_content_trans; eassumption.
  - apply IH. exact Hk.
Qed.

(** The number that [scanVisibleMessages] returns is the number of
    records by which the map has grown. *)
Theorem scan_returns_growth (innerHTML : Dom.node -> string)
    (els : list Parser.Candidate) (w : World) :
  count (capturedMessages (fst (scanVisibleMessages innerHTML els w)))
  = count (capturedMessages w) + snd (scanVisibleMessages innerHTML els w).
Proof.
  destruct (Reobservation.scanVisibleMessages_store innerHTML els w) as [-> ->].
  pose proof (scan_count (map (Parser.parseMessageElement innerHTML) els)
                (capturedMessages w) 0) as H.
  unfold scan. lia.
Qed.

(** A scan removes no record and rewrites no content: a record of the
    map is still there afterwards, under the same id, with the same
    role, timestamp, markup and text. *)
Theorem scan_keeps_records (innerHTML : Dom.node -> string)
    (els : list Parser.Candidate) (w : World) (k : string) (v : Message) :
  get (capturedMessages w) k = Some v ->
  exists v',
    get (capturedMessages (fst (scanVisibleMessages innerHTML els w))) k = Some v'
    /\ same_content v v'.
Proof.
  intros Hk.
  destruct (Reobservation.scanVisibleMessages_store innerHTML els w) as [-> _].
  apply scan_content. exact Hk.
Qed.

Lemma scan_keeps_records_witness :
  exists v',
    get (capturedMessages
           (fst (scanVisibleMessages (fun _ => EmptyString)
                   [Parser.mkCandidate
                      (Dom.Element "div" [("data-message-id", "umsg_1")] []) (Some 77%Z)]
                   (mkWorld [("umsg_1", mkMessage "umsg_1" user "Jan 5" 10 "<p>x</p>" "x")]
                      false false (mkURL "lovable.dev" "/projects/p") ∅ 0 [] []))))
      "umsg_1" = Some v'
    /\ same_content (mkMessage "umsg_1" user "Jan 5" 10 "<p>x</p>" "x") v'.
Proof.
  apply (scan_keeps_records (fun _ => EmptyString)). reflexivity.
Defined.

(** A scan that meets no new id schedules no save: the pending flag,
    the timers and storage stay as they are, so that new positions alone
    are never written. *)
Theorem scan_of_known_ids_saves_nothing (innerHTML : Dom.node -> string)
    (els : list Parser.Candidate) (w : World) :
  (forall k, In k (seen (map (Parser.parseMessageElement innerHTML) els)) ->
             get (capturedMessages w) k <> None) ->
  snd (scanVisibleMessages innerHTML els w) = 0
  /\ pendingSave (fst (scanVisibleMessages innerHTML els w)) = pendingSave w
  /\ timers (fst (scanVisibleMessages innerHTML els w)) = timers w
  /\ storage (fst (scanVisibleMessages innerHTML els w)) = storage w
  /\ writes (fst (scanVisibleMessages innerHTML els w)) = writes w.
Proof.
  intros Hknown.
  destruct (scan_known (map (Parser.parseMessageElement innerHTML) els)
              (capturedMessages w) 0 Hknown) as [Hn _].
  unfold scanVisibleMessages. unfold scan in *.
  destruct (fold_left scan_step _ _) as [st n]. simpl in Hn. subst n.
  simpl. repeat split.
Qed.

Lemma scan_of_known_ids_saves_nothing_witness :
  timers (fst (scanVisibleMessages (fun _ => EmptyString)
                 [Parser.mkCandidate
                    (Dom.Element "div" [("data-message-id", "umsg_1")] []) (Some 77%Z)]
                 (mkWorld [("umsg_1", mkMessage "umsg_1" user "Jan 5" 10 "<p>x</p>" "x")]
                    false false (mkURL "lovable.dev" "/projects/p") ∅ 0 [] [])))
  = [].
Proof.
  apply (scan_of_known_ids_saves_nothing (fun _ => EmptyString)).
  simpl. intros k [<-|[]]. discriminate.
Defined.

End ScanFacts.

(* ================================================================== *)
(** * What a save writes, and where *)
(* ================================================================== *)

Module SaveFacts.

Import Store.

(** While a save is pending a scan changes the map only. *)
Lemma scan_while_pending (innerHTML : Dom.node -> string)
    (els : list Parser.Candidate) (w : World) :
  pendingSave w = true ->
  fst (scanVisibleMessages innerHTML els w)
  = set_captured (capturedMessages (fst (scanVisibleMessages innerHTML els w))) w.
Proof.
  intros Hp. unfold scanVisibleMessages.
  destruct (scan _ _) as [st n]. simpl.
  destruct (0 <? n); [|reflexivity].
  unfold flushSave. simpl. rewrite Hp. reflexivity.
Qed.

(** A first scan that finds new records, with no save pending, raises
    the flag and sets the one timer. *)
Lemma first_scan_schedules (innerHTML : Dom.node -> string)
    (els : list Parser.Candidate) (w : World) :
  idle w -> 0 < snd (scanVisibleMessages innerHTML els w) ->
  pendingSave (fst (scanVisibleMessages innerHTML els w)) = true
  /\ timers (fst (scanVisibleMessages innerHTML els w)) = [clock w + 400]
  /\ storage (fst (scanVisibleMessages innerHTML els w)) = storage w
  /\ writes (fst (scanVisibleMessages innerHTML els w)) = writes w
  /\ clock (fst (scanVisibleMessages innerHTML els w)) = clock w
  /\ location (fst (scanVisibleMessages innerHTML els w)) = location w.
Proof.
  intros [Hp Ht]. unfold scanVisibleMessages.
  destruct (scan _ _) as [st n]. simpl. intros Hn.
  destruct (0 <? n) eqn:E; [|apply Nat.ltb_ge in E; lia].
  unfold flushSave. simpl. rewrite Hp, Ht. simpl. repeat split.
Qed.

(** Scans within the delay of a pending save leave the timer, storage
    and the location alone. *)
Lemma scans_while_pending (innerHTML : Dom.node -> string)
    (evs : list (nat * list Parser.Candidate)) (d : nat) (w : World) :
  pendingSave w = true -> timers w = [d] ->
  clock w + list_sum (map fst evs) < d ->
  pendingSave (scans innerHTML evs w) = true
  /\ timers (scans innerHTML evs w) = [d]
  /\ storage (scans innerHTML evs w) = storage w
  /\ writes (scans innerHTML evs w) = writes w
  /\ clock (scans innerHTML evs w) = clock w + list_sum (map fst evs)
  /\ location (scans innerHTML evs w) = location w.
Proof.
  revert w. induction evs as [|[gap els] evs IH]; intros w Hp Ht Hlt; simpl in *.
  - repeat split; try assumption. lia.
  - unfold scans in *. simpl.
    assert (Hstep : pendingSave (scan_after innerHTML w (gap, els)) = true
                    /\ timers (scan_after innerHTML w (gap, els)) = [d]
                    /\ storage (scan_after innerHTML w (gap, els)) = storage w
                    /\ writes (scan_after innerHTML w (gap, els)) = writes w
                    /\ clock (scan_after innerHTML w (gap, els)) = clock w + gap
                    /\ location (scan_after innerHTML w (gap, els)) = location w).
    { unfold scan_after. simpl fst. simpl snd.
      rewrite (Saving.tick_early gap d) by (assumption || lia).
      rewrite scan_while_pending by exact Hp.
      simpl. repeat split; assumption. }
    destruct Hstep as (S1 & S2 & S3 & S4 & S5 & S6).
    destruct (IH (scan_after innerHTML w (gap, els)) S1 S2) as (I1 & I2 & I3 & I4 & I5 & I6);
      [lia|].
    rewrite I1, I2, I3, I4, I5, I6, S3, S4, S5, S6. repeat split. lia.
Qed.

(** A scan that finds new records, with no save pending, and the scans
    of the next 400 ms lead to one write, 400 ms after the first scan;
    it writes the map as it is then, with what the later scans added,
    and what is loaded back is that map. *)
Theorem burst_of_scans_saved_once (innerHTML : Dom.node -> string)
    (els : list Parser.Candidate) (evs : list (nat * list Parser.Candidate))
    (dt : nat) (w : World) :
  idle w ->
  0 < snd (scanVisibleMessages innerHTML els w) ->
  list_sum (map fst evs) < 400 ->
  400 <= list_sum (map fst evs) + dt ->
  writes (tick dt (scans innerHTML evs (fst (scanVisibleMessages innerHTML els w))))
    = writes w ++ [clock w + 400]
  /\ storage (tick dt (scans innerHTML evs (fst (scanVisibleMessages innerHTML els w))))
     = <[Content.getThreadKey (location w)
         := capturedMessages (scans innerHTML evs (fst (scanVisibleMessages innerHTML els w)))]>
         (storage w)
  /\ loadMessages (tick dt (scans innerHTML evs (fst (scanVisibleMessages innerHTML els w))))
     = capturedMessages (scans innerHTML evs (fst (scanVisibleMessages innerHTML els w)))
  /\ pendingSave (tick dt (scans innerHTML evs (fst (scanVisibleMessages innerHTML els w))))
     = false.
Proof.
  intros Hidle Hnew Hsum Hdt.
  destruct (first_scan_schedules innerHTML els w Hidle Hnew)
    as (F1 & F2 & F3 & F4 & F5 & F6).
  destruct (scans_while_pending innerHTML evs (clock w + 400) _ F1 F2)
    as (S1 & S2 & S3 & S4 & S5 & S6); [lia|].
  set (w1 := scans innerHTML evs (fst (scanVisibleMessages innerHTML els w))) in *.
  rewrite (Saving.tick_due dt (clock w + 400) w1) by (assumption || lia).
  unfold loadMessages. simpl.
  rewrite S3, S4, S6, F3, F4, F6, lookup_insert_eq. repeat split.
Qed.

Lemma burst_of_scans_saved_once_witness :
  writes
    (tick 300
       (scans (fun _ => EmptyString)
          [(150, [Parser.mkCandidate
                    (Dom.Element "div" [("data-message-id", "aimsg_2")] []) None])]
          (fst (scanVisibleMessages (fun _ => EmptyString)
                  [Parser.mkCandidate
                     (Dom.Element "div" [("data-message-id", "umsg_1")] []) None]
                  (mkWorld [] false false (mkURL "lovable.dev" "/projects/p") ∅ 1000 [] [])))))
  = [1400].
Proof.
  apply (burst_of_scans_saved_once (fun _ => EmptyString)
           [Parser.mkCandidate (Dom.Element "div" [("data-message-id", "umsg_1")] []) None]
           [(150, [Parser.mkCandidate
                     (Dom.Element "div" [("data-message-id", "aimsg_2")] []) None])]
           300
           (mkWorld [] false false (mkURL "lovable.dev" "/projects/p") ∅ 1000 [] [])).
  - split; reflexivity.
  - vm_compute. lia.
  - simpl. lia.
  - simpl. lia.
Defined.

(** The save callback takes the thread key from the location at the time
    it runs: when the location changes while a save is pending, the map
    captured on the old page is written under the key of the new
    location, and it is what [loadMessages] then returns for the new
    location. *)
Theorem pending_save_follows_location (innerHTML : Dom.node -> string)
    (els : list Parser.Candidate) (gap dt : nat) (loc : URL) (w : World) :
  idle w ->
  0 < snd (scanVisibleMessages innerHTML els w) ->
  gap < 400 ->
  400 <= gap + dt ->
  storage (tick dt (navigate loc (tick gap (fst (scanVisibleMessages innerHTML els w)))))
    = <[Content.getThreadKey loc
        := capturedMessages (fst (scanVisibleMessages innerHTML els w))]> (storage w)
  /\ loadMessages
       (tick dt (navigate loc (tick gap (fst (scanVisibleMessages innerHTML els w)))))
     = capturedMessages (fst (scanVisibleMessages innerHTML els w))
  /\ (Content.getThreadKey loc <> Content.getThreadKey (location w) ->
      storage (tick dt (navigate loc (tick gap (fst (scanVisibleMessages innerHTML els w)))))
        !! Content.getThreadKey (location w)
      = storage w !! Content.getThreadKey (location w)).
Proof.
  intros Hidle Hnew Hgap Hdt.
  destruct (first_scan_schedules innerHTML els w Hidle Hnew)
    as (F1 & F2 & F3 & F4 & F5 & F6).
  set (w1 := fst (scanVisibleMessages innerHTML els w)) in *.
  rewrite (Saving.tick_early gap (clock w + 400) w1) by (assumption || lia).
  rewrite (Saving.tick_due dt (clock w + 400)); [|simpl; exact F2|simpl; lia].
  unfold loadMessages. simpl. rewrite F3, lookup_insert_eq.
  split; [reflexivity|]. split; [reflexivity|].
  intros Hne. rewrite lookup_insert_ne by exact Hne. reflexivity.
Qed.

Lemma pending_save_follows_location_witness :
  loadMessages
    (tick 300
       (navigate (mkURL "lovable.dev" "/projects/other")
          (tick 200
             (fst (scanVisibleMessages (fun _ => EmptyString)
                     [Parser.mkCandidate
                        (Dom.Element "div" [("data-message-id", "umsg_1")] []) None]
                     (mkWorld [] false false (mkURL "lovable.dev" "/projects/p") ∅ 0 [] []))))))
  = capturedMessages
      (fst (scanVisibleMessages (fun _ => EmptyString)
              [Parser.mkCandidate
                 (Dom.Element "div" [("data-message-id", "umsg_1")] []) None]
              (mkWorld [] false false (mkURL "lovable.dev" "/projects/p") ∅ 0 [] []))).
Proof.
  apply (pending_save_follows_location (fun _ => EmptyString)
           [Parser.mkCandidate (Dom.Element "div" [("data-message-id", "umsg_1")] []) None]
           200 300 (mkURL "lovable.dev" "/projects/other")
           (mkWorld [] false false (mkURL "lovable.dev" "/projects/p") ∅ 0 [] [])).
  - split; reflexivity.
  - vm_compute. lia.
  - lia.
  - lia.
Defined.

(** Activation keeps what was persisted for the thread: every record of
    the persisted map is in the map after [initialize], under the same
    id and with the same role, timestamp, markup and text, and the scan
    adds to the persisted count what it returns as new. *)
Theorem initialize_keeps_persisted (innerHTML : Dom.node -> string)
    (els : list Parser.Candidate) (w : World) (k : string) (v : Message) :
  get (loadMessages w) k = Some v ->
  (exists v',
     get (capturedMessages (initialize innerHTML els w)) k = Some v'
     /\ same_content v v')
  /\ count (loadMessages w) <= count (capturedMessages (initialize innerHTML els w)).
Proof.
  intros Hk. unfold initialize.
  destruct (Reobservation.scanVisibleMessages_store innerHTML els
              (set_captured (loadMessages w) w)) as [-> _].
  simpl capturedMessages. split.
  - apply ScanFacts.scan_content. exact Hk.
  - pose proof (ScanFacts.scan_count
                  (map (Parser.parseMessageElement innerHTML) els) (loadMessages w) 0) as H.
    unfold scan. lia.
Qed.

Lemma initialize_keeps_persisted_witness :
  exists v',
    get (capturedMessages
           (initialize (fun _ => EmptyString)
              [Parser.mkCandidate
                 (Dom.Element "div" [("data-message-id", "aimsg_2")] []) None]
              (mkWorld [] false false (mkURL "lovable.dev" "/projects/p/")
                 {[ "lce_thread_L3Byb2plY3RzL3A_"
                    := [("umsg_1", mkMessage "umsg_1" user "" 0 "" "hi")] ]}
                 0 [] [])))
      "umsg_1" = Some v'
    /\ same_content (mkMessage "umsg_1" user "" 0 "" "hi") v'.
Proof.
  assert (Hk : get (loadMessages
                      (mkWorld [] false false (mkURL "lovable.dev" "/projects/p/")
                         {[ "lce_thread_L3Byb2plY3RzL3A_"
                            := [("umsg_1", mkMessage "umsg_1" user "" 0 "" "hi")] ]}
                         0 [] []))
                 "umsg_1" = Some (mkMessage "umsg_1" user "" 0 "" "hi"))
    by (vm_compute; reflexivity).
  exact (proj1 (initialize_keeps_persisted (fun _ => EmptyString)
                  [Parser.mkCandidate
                     (Dom.Element "div" [("data-message-id", "aimsg_2")] []) None]
                  _ "umsg_1" _ Hk)).
Defined.

End SaveFacts.

(* ================================================================== *)
(** * What the map can hold *)
(* ================================================================== *)

Module MapContents.

Import Store StoreFacts.

Lemma truthy_nonempty (s : string) : JsString.truthy s = true <-> s <> EmptyString.
Proof. destruct s; simpl; split; congruence. Qed.

(** The parser gives no record without an id, and the role it gives is
    the role of the id. *)
Lemma parse_parsed_record (innerHTML : Dom.node -> string)
    (c : Parser.Candidate) (m : Message) :
  Parser.parseMessageElement innerHTML c = Some m -> parsed_record m.
Proof.
  unfold Parser.parseMessageElement.
  destruct (JsString.truthy (Parser.idOf (Parser.el c))) eqn:E; [|discriminate].
  destruct (match Parser.roleOf (Parser.idOf (Parser.el c)) with
            | user => _ | ai => _ end) as [html text].
  intros [= <-]. split; simpl; [apply truthy_nonempty; exact E|reflexivity].
Qed.

Lemma upsert_origin (st : store) (m : Message) (k : string) :
  get (fst (upsert st m)) k <> None -> get st k <> None \/ k = id m.
Proof.
  rewrite upsert_unfold.
  destruct (get st (id m)) eqn:E; [|destruct (inherited (id m))]; simpl.
  - rewrite get_set_topPx. destruct (String.eqb_spec (id m) k) as [<-|_].
    + intros _. left. congruence.
    + intros H. left. exact H.
  - intros H. left. exact H.
  - rewrite get_create by assumption.
    destruct (String.eqb_spec (id m) k) as [<-|_].
    + intros _. right. reflexivity.
    + intros H. left. exact H.
Qed.

(** A scan adds no id but the ids it meets. *)
Lemma scan_origin (parsed : list (option Message)) (st : store) (n : nat) (k : string) :
  get (fst (fold_left scan_step parsed (st, n))) k <> None ->
  get st k <> None \/ In k (seen parsed).
Proof.
  revert st n. induction parsed as [|[m|] parsed IH]; intros st n Hk; simpl in *.
  - left. exact Hk.
  - pose proof (upsert_origin st m k) as Ho.
    destruct (upsert st m) as [st' d]. simpl in Ho.
    destruct (IH st' (n + d) Hk) as [H|H].
    + destruct (Ho H) as [H'|H']; [left; exact H'|right; left; congruence].
    + right. right. exact H.
  - apply IH in Hk. exact Hk.
Qed.

Lemma set_topPx_Forall (P : Message -> Prop) (st : store) (k : string) (t : Z) :
  (forall v, P v -> P (with_topPx t v)) ->
  Forall P (values st) -> Forall P (values (set_topPx st k t)).
Proof.
  intros Hp. unfold values.
  induction st as [|[k' v'] st IH]; simpl; intros H; [constructor|].
  inversion H as [|? ? Hv Hrest]; subst.
  destruct (String.eqb k' k); simpl; constructor; auto.
Qed.

Lemma upsert_Forall (P : Message -> Prop) (st : store) (m : Message) :
  (forall v t, P v -> P (with_topPx t v)) -> P m ->
  Forall P (values st) -> Forall P (values (fst (upsert st m))).
Proof.
  intros Hp Hm Hst. rewrite upsert_unfold.
  destruct (get st (id m)); [|destruct (inherited (id m))]; simpl.
  - apply set_topPx_Forall; [intros v; apply Hp|exact Hst].
  - exact Hst.
  - rewrite List.Forall_forall in *. intros v Hv.
    unfold values in Hv. apply in_map_iff in Hv. destruct Hv as ([k' v'] & <- & Hin).
    apply (Permutation_in _ (StoreOrder.create_perm st (id m) m)) in Hin.
    destruct Hin as [[= _ <-]|Hin]; [exact Hm|].
    apply Hst. unfold values. apply in_map_iff. exists (k', v'). split; [reflexivity|exact Hin].
Qed.

Lemma scan_Forall (P : Message -> Prop) (parsed : list (option Message))
    (st : store) (n : nat) :
  (forall v t, P v -> P (with_topPx t v)) ->
  (forall m, In (Some m) parsed -> P m) ->
  Forall P (values st) ->
  Forall P (values (fst (fold_left scan_step parsed (st, n)))).
Proof.
  intros Hp. revert st n. induction parsed as [|[m|] parsed IH]; intros st n Hall Hst; simpl.
  - exact Hst.
  - pose proof (upsert_Forall P st m Hp (Hall m (or_introl eq_refl)) Hst) as H.
    destruct (upsert st m) as [st' d]. simpl in H.
    apply IH; [intros m' Hm'; apply Hall; right; exact Hm'|exact H].
  - apply IH; [intros m' Hm'; apply Hall; right; exact Hm'|exact Hst].
Qed.

(** The parser gives no record exactly when the candidate has no id. *)
Lemma parse_none (innerHTML : Dom.node -> string) (c : Parser.Candidate) :
  Parser.parseMessageElement innerHTML c = None
  <-> Parser.idOf (Parser.el c) = EmptyString.
Proof.
  unfold Parser.parseMessageElement.
  destruct (Parser.idOf (Parser.el c)) as [|a i] eqn:E; simpl.
  - split; reflexivity.
  - destruct (match Parser.roleOf (String a i) with
              | user => _ | ai => _ end) as [html text].
    split; discriminate.
Qed.

(** The candidates without an id can be left out of a scan. *)
Lemma scan_without_idless (innerHTML : Dom.node -> string)
    (els : list Parser.Candidate) (acc : store * nat) :
  fold_left scan_step (map (Parser.parseMessageElement innerHTML) els) acc
  = fold_left scan_step
      (map (Parser.parseMessageElement innerHTML)
         (List.filter (fun c => JsString.truthy (Parser.idOf (Parser.el c))) els)) acc.
Proof.
  revert acc. induction els as [|c els IH]; intros acc; simpl; [reflexivity|].
  destruct (JsString.truthy (Parser.idOf (Parser.el c))) eqn:E; simpl.
  - apply IH.
  - assert (Hnone : Parser.parseMessageElement innerHTML c = None).
    { apply parse_none. destruct (Parser.idOf (Parser.el c)); [reflexivity|discriminate]. }
    rewrite Hnone. simpl. apply IH.
Qed.

(** Scans keep the map to records as the parser makes them.  The parser
    gives no record exactly when the candidate has no id; a scan is the
    scan of the candidates that have an id, so that a candidate without
    an id adds nothing, counts nothing and triggers no save; and when
    every record of the map has an id that is not empty and the role of
    its id, so has every record after a scan. *)
Theorem scan_keeps_parsed_records (innerHTML : Dom.node -> string)
    (els : list Parser.Candidate) (w : World) :
  (forall c, Parser.parseMessageElement innerHTML c = None
             <-> Parser.idOf (Parser.el c) = EmptyString)
  /\ scanVisibleMessages innerHTML els w
     = scanVisibleMessages innerHTML
         (List.filter (fun c => JsString.truthy (Parser.idOf (Parser.el c))) els) w
  /\ (Forall parsed_record (values (capturedMessages w)) ->
      Forall parsed_record
        (values (capturedMessages (fst (scanVisibleMessages innerHTML els w))))).
Proof.
  split; [intros c; apply parse_none|]. split.
  - unfold scanVisibleMessages, scan. rewrite scan_without_idless. reflexivity.
  - intros Hst.
    destruct (Reobservation.scanVisibleMessages_store innerHTML els w) as [-> _].
    apply scan_Forall; [| |exact Hst].
    + intros v t [H1 H2]. split; assumption.
    + intros m Hm. apply in_map_iff in Hm. destruct Hm as (c & Hc & _).
      eapply parse_parsed_record. exact Hc.
Qed.

Lemma scan_keeps_parsed_records_witness :
  Forall parsed_record
    (values
       (capturedMessages
          (fst (scanVisibleMessages (fun _ => EmptyString)
                  [Parser.mkCandidate (Dom.Element "div" [("data-message-id", "")] []) None;
                   Parser.mkCandidate
                     (Dom.Element "div" [("data-message-id", "umsg_1")] []) None]
                  (mkWorld [] false false (mkURL "lovable.dev" "/projects/p") ∅ 0 [] []))))).
Proof.
  apply (proj2 (proj2 (scan_keeps_parsed_records (fun _ => EmptyString) _ _))). constructor.
Defined.

(** The handler of a change of URL leaves the map alone off a chat page;
    on a chat page it replaces the map: every record afterwards is one
    that was persisted for the thread of the new location or one whose
    id is among the visible candidates. *)
Theorem url_change_replaces_map (innerHTML : Dom.node -> string)
    (els : list Parser.Candidate) (w : World) :
  (Pages.isOnChatPage (location w) = false -> onUrlChange innerHTML els w = w)
  /\ (Pages.isOnChatPage (location w) = true ->
      forall k,
        get (capturedMessages (onUrlChange innerHTML els w)) k <> None ->
        get (loadMessages w) k <> None
        \/ In k (seen (map (Parser.parseMessageElement innerHTML) els))).
Proof.
  unfold onUrlChange. split; intros Hpage; rewrite Hpage; [reflexivity|].
  intros k. unfold initialize.
  destruct (Reobservation.scanVisibleMessages_store innerHTML els
              (set_captured (loadMessages w) w)) as [-> _].
  apply scan_origin.
Qed.

Lemma url_change_replaces_map_witness :
  capturedMessages
    (onUrlChange (fun _ => EmptyString) []
       (mkWorld [("umsg_1", mkMessage "umsg_1" user "" 0 "" "hi")] false false
          (mkURL "lovable.dev" "/projects/other") ∅ 0 [] []))
  = [].
Proof.
  pose proof (proj2 (url_change_replaces_map (fun _ => EmptyString) []
                       (mkWorld [("umsg_1", mkMessage "umsg_1" user "" 0 "" "hi")]
                          false false (mkURL "lovable.dev" "/projects/other") ∅ 0 [] []))
                eq_refl) as H.
  destruct (capturedMessages _) as [|[k v] st] eqn:E; [reflexivity|].
  exfalso. destruct (H k) as [Hk|[]].
  - simpl. rewrite String.eqb_refl. discriminate.
  - apply Hk. reflexivity.
Defined.

End MapContents.

(* ================================================================== *)
(** * Which pages are chat pages *)
(* ================================================================== *)

Module PageFacts.

Import Pages.

Lemma dropPrefix_spec (p s r : string) :
  Markdown.dropPrefix p s = Some r <-> s = p +:+ r.
Proof.
  revert s. induction p as [|a p IH]; intros s; simpl.
  - rewrite HtmlEscaping.append_nil. split; congruence.
  - rewrite HtmlEscaping.append_cons. destruct s as [|b s]; [split; discriminate|].
    destruct (Ascii.eqb_spec a b) as [->|Hne].
    + rewrite IH. split; congruence.
    + split; [discriminate|]. intros [= E _]. congruence.
Qed.

Lemma after_segment_spec (segment s : string) :
  after_segment segment s = true <->
  exists c r, is_id_char c = true /\ s = segment +:+ String c r.
Proof.
  unfold after_segment. split.
  - destruct (Markdown.dropPrefix segment s) as [[|c r]|] eqn:E; try discriminate.
    intros Hc. exists c, r. split; [exact Hc|]. apply dropPrefix_spec. exact E.
  - intros (c & r & Hc & Hs). apply dropPrefix_spec in Hs. rewrite Hs. exact Hc.
Qed.

Lemma chatPath_unfold (s : string) :
  chatPath s = matches_here s
               || match s with EmptyString => false | String _ r => chatPath r end.
Proof. destruct s; reflexivity. Qed.

Lemma chatPath_app (p s : string) : chatPath s = true -> chatPath (p +:+ s) = true.
Proof.
  intros H. induction p as [|a p IH]; [exact H|].
  rewrite HtmlEscaping.append_cons, chatPath_unfold, IH. apply orb_true_r.
Qed.

Lemma matches_here_spec (s : string) :
  matches_here s = true <->
  exists c r, is_id_char c = true
              /\ (s = "/projects/" +:+ String c r \/ s = "/chat/" +:+ String c r).
Proof.
  unfold matches_here. rewrite orb_true_iff, !after_segment_spec. split.
  - intros [(c & r & Hc & Hs)|(c & r & Hc & Hs)]; exists c, r; tauto.
  - intros (c & r & Hc & [Hs|Hs]); [left|right]; exists c, r; tauto.
Qed.

(** The test of chat pages looks for a match anywhere in the path: it
    accepts exactly the paths that hold [/projects/] or [/chat/] followed
    by a letter, a digit, [_] or [-], whatever comes before and after;
    and the popup accepts a URL exactly when it parses, its host is
    [lovable.dev] and the content script accepts its path. *)
Theorem chat_page_test (parseURL : string -> option URL) :
  (forall s,
     chatPath s = true <->
     exists p c r,
       is_id_char c = true
       /\ (s = p +:+ "/projects/" +:+ String c r \/ s = p +:+ "/chat/" +:+ String c r))
  /\ (forall url,
        isLovableChatUrl parseURL url = true <->
        exists u, parseURL url = Some u
                  /\ hostname u = "lovable.dev"
                  /\ isOnChatPage u = true).
Proof.
  split.
  - intros s. split.
    + induction s as [|a s IH]; rewrite chatPath_unfold, orb_true_iff;
        intros [H|H]; try discriminate.
      * apply matches_here_spec in H. destruct H as (c & r & Hc & Hs).
        exists EmptyString, c, r. rewrite !HtmlEscaping.append_nil. tauto.
      * destruct (IH H) as (p & c & r & Hc & Hs).
        exists (String a p), c, r. split; [exact Hc|].
        rewrite !HtmlEscaping.append_cons. destruct Hs as [->| ->]; [left|right]; reflexivity.
    + intros (p & c & r & Hc & Hs).
      assert (Hm : exists x, s = p +:+ x /\ matches_here x = true).
      { destruct Hs as [->| ->]; eexists; (split; [reflexivity|]);
          apply matches_here_spec; exists c, r; tauto. }
      destruct Hm as (x & -> & Hx). apply chatPath_app.
      rewrite chatPath_unfold, Hx. reflexivity.
  - intros url. unfold isLovableChatUrl, isOnChatPage. split.
    + destruct (parseURL url) as [u|]; [|discriminate].
      intros H. apply andb_true_iff in H. destruct H as [Hh Hp].
      exists u. split; [reflexivity|]. split; [apply String.eqb_eq; exact Hh|exact Hp].
    + intros (u & -> & Hh & Hp). rewrite Hh, Hp. reflexivity.
Qed.

End PageFacts.

(* ================================================================== *)
(** * The choice of the scroll container *)
(* ================================================================== *)

Module LayoutFacts.

Import Layout.

Lemma box_induction (P : box -> Prop) :
  (forall t c s h cs, Forall P cs -> P (Box t c s h cs)) -> forall b, P b.
Proof.
  intros H. fix IH 1. intros [t c s h cs]. apply H.
  induction cs as [|x r IHr]; constructor; [apply IH|exact IHr].
Qed.

Lemma elements_unfold (p : list nat) (t c : string) (s h : Z) (cs : list box) :
  elements p (Box t c s h cs) = (p, Box t c s h cs) :: childElements p 0 cs.
Proof.
  simpl. f_equal. generalize 0 as i.
  induction cs as [|x r IH]; intros i; simpl; [reflexivity|].
  rewrite IH. reflexivity.
Qed.

Lemma isPrefix_app (p a b : list nat) : isPrefix (p ++ a) (p ++ b) = isPrefix a b.
Proof.
  induction p as [|x p IH]; simpl; [reflexivity|].
  rewrite Nat.eqb_refl. exact IH.
Qed.

Lemma isPrefix_longer (p : list nat) (j : nat) (rest : list nat) :
  isPrefix (p ++ j :: rest) p = false.
Proof.
  rewrite <- (app_nil_r p) at 2. rewrite isPrefix_app. reflexivity.
Qed.

(** The paths of the elements under [b] start with the path of [b]. *)
Lemma elements_paths (b : box) :
  forall p e, In e (elements p b) -> exists rest, fst e = p ++ rest.
Proof.
  induction b as [t c s h cs IH] using box_induction. intros p e.
  rewrite elements_unfold. intros [<-|Hin].
  - exists []. simpl. rewrite app_nil_r. reflexivity.
  - revert Hin. generalize 0 as i.
    induction cs as [|x r IHr]; intros i Hin; simpl in Hin; [contradiction|].
    inversion IH as [|? ? Hx Hr]; subst.
    apply in_app_or in Hin. destruct Hin as [Hin|Hin].
    + destruct (Hx _ _ Hin) as (rest & Hrest).
      exists (i :: rest). rewrite Hrest, <- app_assoc. reflexivity.
    + apply (IHr Hr (S i)). exact Hin.
Qed.

Lemma childElements_paths (p : list nat) (cs : list box) :
  forall i e, In e (childElements p i cs) ->
              exists j rest, i <= j /\ fst e = p ++ j :: rest.
Proof.
  induction cs as [|x r IH]; intros i e Hin; simpl in Hin; [contradiction|].
  apply in_app_or in Hin. destruct Hin as [Hin|Hin].
  - destruct (elements_paths x _ _ Hin) as (rest & Hrest).
    exists i, rest. split; [lia|]. rewrite Hrest, <- app_assoc. reflexivity.
  - destruct (IH (S i) e Hin) as (j & rest & Hj & Hrest).
    exists j, rest. split; [lia|exact Hrest].
Qed.

Lemma sorted_app (R : elem -> elem -> Prop) (a b : list elem) :
  StronglySorted R a -> StronglySorted R b ->
  (forall x y, In x a -> In y b -> R x y) ->
  StronglySorted R (a ++ b).
Proof.
  intros Ha Hb Hab. induction Ha as [|x a Ha IH Hall]; simpl; [exact Hb|].
  constructor.
  - apply IH. intros x' y Hx Hy. apply Hab; [right; exact Hx|exact Hy].
  - rewrite List.Forall_forall in *. intros y Hy. apply in_app_or in Hy.
    destruct Hy as [Hy|Hy]; [apply Hall; exact Hy|apply Hab; [left; reflexivity|exact Hy]].
Qed.

(** In document order no element contains an element that comes before
    it. *)
Lemma elements_order (b : box) :
  forall p, StronglySorted (fun x y => contains y x = false) (elements p b).
Proof.
  induction b as [t c s h cs IH] using box_induction. intros p.
  rewrite elements_unfold. constructor.
  - generalize 0 as i. induction cs as [|x r IHr]; intros i; simpl; [constructor|].
    inversion IH as [|? ? Hx Hr]; subst.
    apply sorted_app; [apply Hx|apply IHr; exact Hr|].
    intros e y He Hy. unfold contains.
    destruct (elements_paths x _ _ He) as (rest & ->).
    destruct (childElements_paths p r _ _ Hy) as (j & rest' & Hj & ->).
    rewrite <- app_assoc, isPrefix_app. simpl.
    destruct (j =? i) eqn:E; [apply Nat.eqb_eq in E; lia|reflexivity].
  - rewrite List.Forall_forall. intros y Hy. unfold contains. simpl.
    destruct (childElements_paths p cs _ _ Hy) as (j & rest & _ & ->).
    apply isPrefix_longer.
Qed.

Lemma pick_keeps (l : list elem) (d : elem) :
  Forall (fun y => contains y d = false) l ->
  fold_left pickDeepest l (Some d) = Some d.
Proof.
  induction 1 as [|y l Hy Hall IH]; simpl; [reflexivity|].
  unfold pickDeepest at 2. rewrite Hy. destruct (overflows y); exact IH.
Qed.

Lemma pick_first (l : list elem) :
  StronglySorted (fun x y => contains y x = false) l ->
  fold_left pickDeepest l None = head (List.filter overflows l).
Proof.
  induction 1 as [|x l Hs IH Hall]; simpl; [reflexivity|].
  unfold pickDeepest at 2. destruct (overflows x); simpl; [|exact IH].
  apply pick_keeps. exact Hall.
Qed.

Lemma head_filter_In (f : elem -> bool) (l : list elem) (e : elem) :
  head (List.filter f l) = Some e -> In e l /\ f e = true.
Proof.
  intros H. apply List.filter_In.
  destruct (List.filter f l) as [|x r] eqn:E; [discriminate|].
  injection H as ->. left. reflexivity.
Qed.

Lemma firstScrolling_In (cands : list (option elem)) (e : elem) :
  firstScrolling cands = Some e -> In (Some e) cands /\ scrolls e = true.
Proof.
  induction cands as [|[x|] r IH]; simpl; [discriminate| |].
  - destruct (scrolls x) eqn:E.
    + intros [= ->]. split; [left; reflexivity|exact E].
    + intros H. destruct (IH H). split; [right; assumption|assumption].
  - intros H. destruct (IH H). split; [right; assumption|assumption].
Qed.

(** [findScrollContainer] returns the first of the three known
    candidates that scrolls at all; when none does, it returns the first
    element in document order whose content is more than 50 units
    higher than its box, which is the outermost such element of its
    branch, not the innermost.  What it returns is an element of the
    document that scrolls, and it returns nothing only when no element
    exceeds its box by more than 50. *)
Theorem findScrollContainer_choice (doc : box) :
  findScrollContainer doc
  = match firstScrolling (candidates doc) with
    | Some e => Some e
    | None => head (List.filter overflows (elements [] doc))
    end
  /\ (forall e, findScrollContainer doc = Some e ->
                In e (elements [] doc) /\ scrolls e = true)
  /\ (findScrollContainer doc = None ->
      forall e, In e (elements [] doc) -> overflows e = false).
Proof.
  assert (Hfind : findScrollContainer doc
                  = match firstScrolling (candidates doc) with
                    | Some e => Some e
                    | None => head (List.filter overflows (elements [] doc))
                    end).
  { unfold findScrollContainer. destruct (firstScrolling (candidates doc)); [reflexivity|].
    apply pick_first. apply elements_order. }
  split; [exact Hfind|]. rewrite Hfind. split.
  - intros e. destruct (firstScrolling (candidates doc)) as [x|] eqn:E.
    + intros [= ->]. apply firstScrolling_In in E. destruct E as [Hin Hs].
      split; [|exact Hs]. unfold candidates in Hin.
      destruct Hin as [H|[H|[H|[]]]]; apply head_filter_In in H; tauto.
    + intros H. apply head_filter_In in H. destruct H as [Hin Ho].
      split; [exact Hin|]. unfold overflows, scrolls in *.
      apply Z.ltb_lt in Ho. apply Z.ltb_lt. lia.
  - destruct (firstScrolling (candidates doc)); [discriminate|].
    intros Hnone e He. destruct (overflows e) eqn:E; [|reflexivity].
    assert (Hin : In e (List.filter overflows (elements [] doc)))
      by (apply List.filter_In; tauto).
    destruct (List.filter overflows (elements [] doc)); [contradiction|discriminate].
Qed.

Lemma findScrollContainer_choice_witness :
  findScrollContainer
    (Box "html" "" 2000 600
       [Box "body" "" 2000 600
          [Box "div" "chat" 1800 500 [Box "div" "list" 1800 400 []]]])
  = Some ([], Box "html" "" 2000 600
                [Box "body" "" 2000 600
                   [Box "div" "chat" 1800 500 [Box "div" "list" 1800 400 []]]]).
Proof.
  rewrite (proj1 (findScrollContainer_choice _)). reflexivity.
Defined.

End LayoutFacts.

(* ================================================================== *)
(** * The shape of converted Markdown *)
(* ================================================================== *)

Module MarkdownShape.

Import Markdown HtmlEscaping.

Lemma rev_acc_spec (s acc : string) :
  JsString.rev_acc s acc = JsString.rev s +:+ acc.
Proof.
  unfold JsString.rev. revert acc. induction s as [|c r IH]; intros acc; simpl.
  - reflexivity.
  - rewrite (IH (String c acc)), (IH (String c EmptyString)), append_assoc.
    reflexivity.
Qed.

Lemma rev_cons (c : ascii) (r : string) :
  JsString.rev (String c r) = JsString.rev r +:+ String c EmptyString.
Proof. unfold JsString.rev at 1. simpl. apply rev_acc_spec. Qed.

Lemma rev_app (a b : string) :
  JsString.rev (a +:+ b) = JsString.rev b +:+ JsString.rev a.
Proof.
  induction a as [|c a IH].
  - rewrite append_nil. symmetry. apply OrderedLists.append_empty_r.
  - rewrite append_cons, !rev_cons, IH, append_assoc. reflexivity.
Qed.

Lemma rev_involutive (s : string) : JsString.rev (JsString.rev s) = s.
Proof.
  induction s as [|c r IH]; [reflexivity|].
  rewrite rev_cons, rev_app, IH. reflexivity.
Qed.

(** Trimming takes a piece out of the middle of the string. *)
Lemma trimStart_suffix (s : string) : exists a, s = a +:+ JsString.trimStart s.
Proof.
  induction s as [|c r [a IH]]; [exists EmptyString; reflexivity|].
  simpl. destruct (JsString.is_space c).
  - exists (String c a). rewrite append_cons, <- IH. reflexivity.
  - exists EmptyString. reflexivity.
Qed.

Lemma trimEnd_prefix (s : string) : exists b, s = JsString.trimEnd s +:+ b.
Proof.
  unfold JsString.trimEnd.
  destruct (trimStart_suffix (JsString.rev s)) as [a Ha].
  exists (JsString.rev a).
  rewrite <- rev_app, <- Ha, rev_involutive. reflexivity.
Qed.

Lemma prefix_app (p s b : string) :
  String.prefix p s = true -> String.prefix p (s +:+ b) = true.
Proof.
  revert s. induction p as [|x p IH]; intros s H.
  - destruct (s +:+ b); reflexivity.
  - destruct s as [|y s]; [discriminate H|]. rewrite append_cons.
    simpl in *. destruct (ascii_dec x y); [apply IH; exact H|discriminate H].
Qed.

Lemma triple_nl_app_r (s b : string) :
  triple_nl s = true -> triple_nl (s +:+ b) = true.
Proof.
  induction s as [|c r IH]; [discriminate|].
  rewrite append_cons. simpl. intros H. apply orb_true_iff in H.
  apply orb_true_iff. destruct H as [H|H]; [left|right; apply IH; exact H].
  apply andb_true_iff in H. destruct H as [H1 H2].
  rewrite H1. simpl. apply prefix_app. exact H2.
Qed.

Lemma triple_nl_app_l (a s : string) :
  triple_nl s = true -> triple_nl (a +:+ s) = true.
Proof.
  intros H. induction a as [|c a IH]; [exact H|].
  rewrite append_cons. simpl. rewrite IH. apply orb_true_r.
Qed.

Lemma trim_keeps_no_triple (s : string) :
  triple_nl s = false -> triple_nl (JsString.trim s) = false.
Proof.
  intros H. unfold JsString.trim.
  destruct (trimStart_suffix s) as [a Ha].
  destruct (trimEnd_prefix (JsString.trimStart s)) as [b Hb].
  destruct (triple_nl (JsString.trimEnd (JsString.trimStart s))) eqn:E; [|reflexivity].
  rewrite Ha, Hb in H. rewrite triple_nl_app_l in H; [discriminate|].
  apply triple_nl_app_r. exact E.
Qed.

Lemma prefix_cons (a : ascii) (p : string) (b : ascii) (s : string) :
  String.prefix (String a p) (String b s)
  = if ascii_dec a b then String.prefix p s else false.
Proof. reflexivity. Qed.

Lemma prefix_empty (s : string) : String.prefix EmptyString s = true.
Proof. destruct s; reflexivity. Qed.

Lemma prefix_nl (s : string) :
  String.prefix nl s
  = match s with String c _ => Ascii.eqb c "010" | EmptyString => false end.
Proof.
  destruct s as [|c r]; [reflexivity|]. unfold nl. rewrite prefix_cons, prefix_empty.
  destruct (ascii_dec "010" c) as [<-|Hne]; [reflexivity|].
  symmetry. apply Ascii.eqb_neq. congruence.
Qed.

Lemma prefix_nlnl (s : string) :
  String.prefix (nl +:+ nl) s
  = match s with
    | String c r => Ascii.eqb c "010" && String.prefix nl r
    | EmptyString => false
    end.
Proof.
  destruct s as [|c r]; [reflexivity|].
  change (nl +:+ nl) with (String "010" nl). rewrite prefix_cons.
  destruct (ascii_dec "010" c) as [<-|Hne]; [reflexivity|].
  symmetry. apply andb_false_iff. left. apply Ascii.eqb_neq. congruence.
Qed.

Lemma collapse_cons (run : nat) (c : ascii) (r : string) :
  collapse run (String c r)
  = if Ascii.eqb c "010"
    then (if run <? 2 then String c (collapse (S run) r) else collapse (S run) r)
    else String c (collapse 0 r).
Proof. reflexivity. Qed.

Lemma triple_nl_cons (c : ascii) (r : string) :
  triple_nl (String c r)
  = (Ascii.eqb c "010" && String.prefix (nl +:+ nl) r) || triple_nl r.
Proof. reflexivity. Qed.

(** After the collapse no three line feeds follow one another; after
    [run] line feeds already seen, the result starts with fewer. *)
Lemma collapse_runs (s : string) :
  forall run,
    triple_nl (collapse run s) = false
    /\ (1 <= run -> String.prefix (nl +:+ nl) (collapse run s) = false)
    /\ (2 <= run -> String.prefix nl (collapse run s) = false).
Proof.
  induction s as [|c r IH]; intros run.
  - split; [reflexivity|]. split; reflexivity.
  - rewrite collapse_cons. destruct (Ascii.eqb c "010") eqn:Ec.
    + destruct (IH (S run)) as (H1 & H2 & H3). destruct (run <? 2) eqn:E.
      * apply Nat.ltb_lt in E. split; [|split; intros Hrun; [|lia]].
        -- rewrite triple_nl_cons, Ec, H1, H2 by lia. reflexivity.
        -- rewrite prefix_nlnl, Ec, H3 by lia. reflexivity.
      * apply Nat.ltb_ge in E.
        split; [exact H1|]. split; intros _; [apply H2; lia|apply H3; lia].
    + destruct (IH 0) as (H1 & _ & _). split; [|split; intros _].
      * rewrite triple_nl_cons, Ec, H1. reflexivity.
      * rewrite prefix_nlnl, Ec. reflexivity.
      * rewrite prefix_nl. exact Ec.
Qed.

Lemma first_char_trimStart (s : string) (c : ascii) :
  first_char (JsString.trimStart s) = Some c -> JsString.is_space c = false.
Proof.
  induction s as [|x r IH]; simpl; [discriminate|].
  destruct (JsString.is_space x) eqn:E; [exact IH|].
  simpl. intros [= <-]. exact E.
Qed.

Lemma last_char_snoc (a : string) (c : ascii) :
  last_char (a +:+ String c EmptyString) = Some c.
Proof.
  induction a as [|x a IH]; [reflexivity|].
  rewrite append_cons. simpl. rewrite IH.
  destruct (a +:+ String c EmptyString) eqn:E; [|reflexivity].
  destruct a; discriminate.
Qed.

Lemma last_char_rev (s : string) : last_char (JsString.rev s) = first_char s.
Proof.
  destruct s as [|c r]; [reflexivity|]. rewrite rev_cons. apply last_char_snoc.
Qed.

(** A trimmed string neither starts nor ends with white space. *)
Lemma trim_ends (s : string) (c : ascii) :
  first_char (JsString.trim s) = Some c \/ last_char (JsString.trim s) = Some c ->
  JsString.is_space c = false.
Proof.
  unfold JsString.trim. intros [H|H].
  - destruct (trimEnd_prefix (JsString.trimStart s)) as [b Hb].
    apply (first_char_trimStart s). rewrite Hb.
    destruct (JsString.trimEnd (JsString.trimStart s)); [discriminate|].
    rewrite append_cons. exact H.
  - unfold JsString.trimEnd in H. rewrite last_char_rev in H.
    eapply first_char_trimStart. exact H.
Qed.

(** The Markdown of a fragment never holds three line feeds in a row
    and neither starts nor ends with white space. *)
Theorem htmlToMarkdown_shape (resolve : string -> string) (parsed : list Dom.node) :
  triple_nl (htmlToMarkdown resolve parsed) = false
  /\ (forall c, first_char (htmlToMarkdown resolve parsed) = Some c ->
                JsString.is_space c = false)
  /\ (forall c, last_char (htmlToMarkdown resolve parsed) = Some c ->
                JsString.is_space c = false).
Proof.
  unfold htmlToMarkdown. split.
  - apply trim_keeps_no_triple. apply collapse_runs.
  - split; intros c H;
      apply (trim_ends (collapse 0 (walk resolve false (Dom.Element "div" [] parsed))) c);
      [left|right]; exact H.
Qed.

End MarkdownShape.

(* ================================================================== *)
(** * The exports: losslessness and counts *)
(* ================================================================== *)

Module ExportFacts.

Import Store Render HtmlEscaping.

Lemma escapeEach_cons (c : ascii) (r : string) :
  escapeEach (String c r) = escapeChar c +:+ escapeEach r.
Proof. reflexivity. Qed.

Lemma escapeChar_cases (c : ascii) :
  (c = "&"%char /\ escapeChar c = "&amp;")
  \/ (c = "<"%char /\ escapeChar c = "&lt;")
  \/ (c = ">"%char /\ escapeChar c = "&gt;")
  \/ (c <> "&"%char /\ escapeChar c = String c EmptyString).
Proof.
  unfold escapeChar.
  destruct (Ascii.eqb_spec c "&") as [->|Hamp]; [left; split; reflexivity|].
  destruct (Ascii.eqb_spec c "<") as [->|Hlt]; [right; left; split; reflexivity|].
  destruct (Ascii.eqb_spec c ">") as [->|Hgt]; [right; right; left; split; reflexivity|].
  right; right; right. split; [exact Hamp|reflexivity].
Qed.

Lemma escapeEach_inj (a b : string) : escapeEach a = escapeEach b -> a = b.
Proof.
  revert b. induction a as [|x a IH]; intros [|y b] H.
  - reflexivity.
  - exfalso. rewrite escapeEach_cons in H.
    destruct (escapeChar_cases y) as [[_ E]|[[_ E]|[[_ E]|[_ E]]]];
      rewrite E in H; discriminate H.
  - exfalso. rewrite escapeEach_cons in H.
    destruct (escapeChar_cases x) as [[_ E]|[[_ E]|[[_ E]|[_ E]]]];
      rewrite E in H; discriminate H.
  - rewrite !escapeEach_cons in H.
    destruct (escapeChar_cases x) as [[Hx Ex]|[[Hx Ex]|[[Hx Ex]|[Hx Ex]]]];
      destruct (escapeChar_cases y) as [[Hy Ey]|[[Hy Ey]|[[Hy Ey]|[Hy Ey]]]];
      rewrite Ex, Ey in H; rewrite ?append_cons, ?append_nil in H;
      try discriminate H; subst;
      try (injection H as H; f_equal; apply IH; exact H);
      try (injection H as H1 H2; congruence).
    injection H as H1 H2. subst. f_equal. apply IH. exact H2.
Qed.

(** The escaping loses nothing: two texts with the same escaped form are
    the same text, so two messages without markup have the same body in
    the HTML export only when they have the same text. *)
Theorem escapeHtml_lossless (a b : Message) :
  contentHtml a = EmptyString -> contentHtml b = EmptyString ->
  bodyOf a = bodyOf b -> contentText a = contentText b.
Proof.
  intros Ha Hb. unfold bodyOf. rewrite Ha, Hb. simpl.
  rewrite !escapeHtml_each. apply escapeEach_inj.
Qed.

Lemma escapeHtml_lossless_witness :
  contentText (mkMessage "aimsg_1" ai "" 0 "" "a < b")
  = contentText (mkMessage "aimsg_2" ai "" 5 "" "a < b").
Proof.
  apply (escapeHtml_lossless (mkMessage "aimsg_1" ai "" 0 "" "a < b")
           (mkMessage "aimsg_2" ai "" 5 "" "a < b")); reflexivity.
Defined.

(** The JSON export counts what it lists: [messageCount] is the number
    of records of the map and the length of the [messages] array, which
    holds each record of the map once. *)
Theorem exportJSON_count (exportedAt href : string) (st : store) :
  exists items,
    exportJSON exportedAt href st
    = JObject [ ("exportedAt", JString exportedAt);
                ("url", JString href);
                ("messageCount", JNumber (Z.of_nat (length items)));
                ("messages", JArray (map messageToJSON items)) ]
    /\ length items = count st
    /\ Permutation items (values st).
Proof.
  exists (getSortedMessages st).
  assert (Hlen : length (getSortedMessages st) = count st).
  { unfold getSortedMessages, count, keys, values.
    rewrite (Permutation_length (Ordering.sort_perm _)), !length_map. reflexivity. }
  split; [unfold exportJSON; rewrite Hlen; reflexivity|].
  split; [exact Hlen|apply Ordering.sort_perm].
Qed.



End ExportFacts.

(* ================================================================== *)
(** * What a completed run of the driver guarantees *)
(* ================================================================== *)

Module DriverBounds.

Import Store Driver.

Section Run.

Variable innerHTML : Dom.node -> string.
Variable src : nat -> list Parser.Candidate.

Lemma streak_le (w : World) (n : nat) : Driver.streak innerHTML src w n <= n.
Proof.
  induction n as [|n IH]; simpl; [lia|].
  destruct (Driver.unchanged innerHTML src w n); lia.
Qed.

Lemma round_fields (i : nat) (w : World) :
  clock (Driver.round innerHTML src i w) = clock w + 600
  /\ isAutoScrolling (Driver.round innerHTML src i w) = isAutoScrolling w.
Proof.
  unfold Driver.round, scanVisibleMessages.
  destruct (Saving.tick_fields 600 w) as (_ & _ & Ha & Hc).
  destruct (scan _ _) as [st n]. simpl.
  destruct (0 <? n); [unfold flushSave; destruct (pendingSave _)|]; simpl;
    rewrite ?Ha, ?Hc; split; reflexivity.
Qed.

Lemma after_rounds_clock (n : nat) (w : World) :
  clock (Driver.after_rounds innerHTML src n w) = clock w + 600 * n.
Proof.
  induction n as [|n IH]; simpl Driver.after_rounds; [lia|].
  destruct (round_fields n (Driver.after_rounds innerHTML src n w)) as [-> _]. lia.
Qed.

Lemma round_content (i : nat) (w : World) (k : string) (v : Message) :
  get (capturedMessages w) k = Some v ->
  exists v', get (capturedMessages (Driver.round innerHTML src i w)) k = Some v'
             /\ same_content v v'.
Proof.
  intros Hk. rewrite DriverFacts.round_captured. apply ScanFacts.scan_content. exact Hk.
Qed.

Lemma after_rounds_content (n : nat) (w : World) (k : string) (v : Message) :
  get (capturedMessages w) k = Some v ->
  exists v', get (capturedMessages (Driver.after_rounds innerHTML src n w)) k = Some v'
             /\ same_content v v'.
Proof.
  intros Hk. induction n as [|n (v1 & H1 & S1)]; simpl Driver.after_rounds.
  - exists v. split; [exact Hk|apply ScanFacts.same_content_refl].
  - destruct (round_content n _ k v1 H1) as (v2 & H2 & S2).
    exists v2. split; [exact H2|]. eapply ScanFacts.same_content_trans; eassumption.
Qed.

Lemma after_rounds_count (n : nat) (w : World) :
  count (capturedMessages w)
  <= count (capturedMessages (Driver.after_rounds innerHTML src n w)).
Proof.
  induction n as [|n IH]; simpl Driver.after_rounds; [lia|].
  rewrite DriverFacts.round_captured.
  pose proof (ScanFacts.scan_count
                (map (Parser.parseMessageElement innerHTML) (src n))
                (capturedMessages (Driver.after_rounds innerHTML src n w)) 0) as H.
  unfold scan. lia.
Qed.

(** A run of the driver that reports a count has scanned at least three
    times and has waited 600 ms before each scan; the count it reports
    is the size of the map it leaves, which is not smaller than before;
    every record that the map held is still there with its content; the
    container is scrolled to its full height and the run flag is down. *)
Theorem completed_run (fuel : nat) (c : Scrollable) (w w' : World)
    (n reported : nat) (top : Z) :
  autoScrollAndCapture innerHTML src fuel (Some c) w
    = Some (w', Captured n reported top) ->
  3 <= n
  /\ clock w' = clock w + 600 * n
  /\ reported = count (capturedMessages w')
  /\ count (capturedMessages w) <= reported
  /\ top = scrollHeight c
  /\ isAutoScrolling w' = false
  /\ (forall k v, get (capturedMessages w) k = Some v ->
                  exists v', get (capturedMessages w') k = Some v' /\ same_content v v').
Proof.
  unfold autoScrollAndCapture.
  destruct (isAutoScrolling w); [discriminate|].
  destruct (Driver.scroll_loop innerHTML src fuel 0 0 0 (set_autoScrolling true w))
    as [[w2 n2]|] eqn:E; [|discriminate].
  intros [= <- <- <- <-].
  destruct (DriverFacts.scroll_loop_first_streak innerHTML src
              (set_autoScrolling true w) fuel 0 0 0 w2 n2 eq_refl eq_refl
              ltac:(lia) E) as (-> & _ & Hstreak & _).
  pose proof (streak_le (set_autoScrolling true w) n2) as Hle.
  split; [lia|]. simpl.
  split; [rewrite after_rounds_clock; reflexivity|].
  split; [reflexivity|].
  split; [apply (after_rounds_count n2 (set_autoScrolling true w))|].
  split; [reflexivity|]. split; [reflexivity|].
  intros k v Hk. apply (after_rounds_content n2 (set_autoScrolling true w)). exact Hk.
Qed.

End Run.

Lemma completed_run_witness :
  3 <= 4
  /\ clock (set_autoScrolling false
              (Driver.after_rounds (fun _ => EmptyString)
                 (fun _ => [Parser.mkCandidate
                              (Dom.Element "div" [("data-message-id", "umsg_1")] [])
                              (Some 40%Z)])
                 4
                 (set_autoScrolling true
                    (mkWorld [] false false (mkURL "lovable.dev" "/projects/p") ∅ 0 [] []))))
     = 0 + 600 * 4.
Proof.
  assert (Hrun :
    autoScrollAndCapture (fun _ => EmptyString)
      (fun _ => [Parser.mkCandidate
                   (Dom.Element "div" [("data-message-id", "umsg_1")] []) (Some 40%Z)])
      5 (Some (mkScrollable 900 300))
      (mkWorld [] false false (mkURL "lovable.dev" "/projects/p") ∅ 0 [] [])
    = Some (set_autoScrolling false
              (Driver.after_rounds (fun _ => EmptyString)
                 (fun _ => [Parser.mkCandidate
                              (Dom.Element "div" [("data-message-id", "umsg_1")] [])
                              (Some 40%Z)])
                 4
                 (set_autoScrolling true
                    (mkWorld [] false false (mkURL "lovable.dev" "/projects/p") ∅ 0 [] []))),
            Captured 4 1 900)) by (vm_compute; reflexivity).
  destruct (completed_run _ _ _ _ _ _ _ _ _ Hrun) as (H1 & H2 & _).
  split; [exact H1|exact H2].
Defined.

End DriverBounds.

(* ================================================================== *)
(** * The labels of an answer: thought and tools *)
(* ================================================================== *)

Module MetaLabels.

Import Dom Parser.

Lemma head_filter_sub {A : Type} (P Q : A -> bool) (l : list A) (x : A) :
  (forall a, Q a = true -> P a = true) ->
  head (List.filter P l) = Some x -> Q x = true ->
  head (List.filter Q l) = Some x.
Proof.
  intros Hsub. induction l as [|a l IH]; simpl; [discriminate|].
  destruct (P a) eqn:EP.
  - simpl. intros [= ->] Hq. rewrite Hq. reflexivity.
  - intros Hh Hq. destruct (Q a) eqn:EQ.
    + apply Hsub in EQ. congruence.
    + apply IH; assumption.
Qed.

Lemma head_filter_holds {A : Type} (P : A -> bool) (l : list A) (x : A) :
  head (List.filter P l) = Some x -> P x = true.
Proof.
  induction l as [|a l IH]; simpl; [discriminate|].
  destruct (P a) eqn:EP; [intros [= <-]; exact EP|exact IH].
Qed.

(** The first match of a list has the first position that matches. *)
Lemma index_of_head {A : Type} (P : A -> bool) (pre l : list A) (x : A) :
  head (List.filter P l) = Some x ->
  exists i,
    head (List.filter
            (fun i => match nth_error (pre ++ l) i with
                      | Some d => P d
                      | None => false
                      end)
            (seq (length pre) (length l))) = Some i
    /\ nth_error (pre ++ l) i = Some x.
Proof.
  revert pre. induction l as [|a l IH]; intros pre; simpl; [discriminate|].
  assert (Hhere : nth_error (pre ++ a :: l) (length pre) = Some a).
  { rewrite nth_error_app2 by lia. rewrite Nat.sub_diag. reflexivity. }
  rewrite Hhere. destruct (P a) eqn:EP.
  - simpl. intros [= <-]. exists (length pre). split; [reflexivity|exact Hhere].
  - intros Hh. destruct (IH (pre ++ [a]) Hh) as (i & Hi & Hn).
    rewrite <- app_assoc in Hi, Hn. simpl in Hi, Hn.
    rewrite length_app in Hi. simpl in Hi. rewrite Nat.add_1_r in Hi.
    exists i. split; assumption.
Qed.

Lemma thought_is_tool (d : located) : sel_thought d = true -> sel_tool d = true.
Proof.
  unfold sel_thought, sel_tool. rewrite !andb_true_iff. tauto.
Qed.

(** The selector [button span.truncate] selects nothing that
    [button .truncate] does not select, so the node found for the tools
    label comes first; when it is a [span], it is the node found for the
    thought label as well: the test [toolBtn !== thoughtBtn] fails and
    the text before the content holds that one label at most. *)
Theorem tools_label_is_thought_label (e : node) (t : located) :
  querySelector sel_tool e = Some t ->
  tag (self t) = "span" ->
  querySelector sel_thought e = Some t
  /\ firstIndex sel_tool e = firstIndex sel_thought e
  /\ metaOf e = (if JsString.truthy (textContent (self t))
                 then [JsString.trim (textContent (self t))] else []).
Proof.
  intros Hq Htag. unfold querySelector, querySelectorAll in Hq.
  pose proof (head_filter_holds _ _ _ Hq) as Ht.
  apply andb_true_iff in Ht. destruct Ht as [Hel Htool].
  assert (Hth : isElement (self t) && sel_thought t = true).
  { unfold sel_tool in Htool. apply andb_true_iff in Htool. destruct Htool as [Hc Ha].
    unfold sel_thought. rewrite Htag, Hel, Hc, Ha. reflexivity. }
  assert (Hsub : forall d, isElement (self d) && sel_thought d = true ->
                           isElement (self d) && sel_tool d = true).
  { intros d H. apply andb_true_iff in H. destruct H as [H1 H2].
    rewrite H1, (thought_is_tool d H2). reflexivity. }
  assert (Hq' : querySelector sel_thought e = Some t).
  { unfold querySelector, querySelectorAll.
    apply (head_filter_sub (fun d => isElement (self d) && sel_tool d)
             (fun d => isElement (self d) && sel_thought d)); assumption. }
  assert (Hidx : firstIndex sel_tool e = firstIndex sel_thought e).
  { destruct (index_of_head (fun d => isElement (self d) && sel_tool d) []
                (locate [] e) t Hq) as (i & Hi & Hn).
    simpl in Hi, Hn. unfold firstIndex.
    change (head (List.filter
                    (fun i => match nth_error (locate [] e) i with
                              | Some d => isElement (self d) && sel_tool d
                              | None => false
                              end)
                    (seq 0 (length (locate [] e)))) = Some i) in Hi.
    rewrite Hi. symmetry.
    apply (head_filter_sub
             (fun i => match nth_error (locate [] e) i with
                       | Some d => isElement (self d) && sel_tool d
                       | None => false
                       end)
             (fun i => match nth_error (locate [] e) i with
                       | Some d => isElement (self d) && sel_thought d
                       | None => false
                       end)).
    - intros j. destruct (nth_error (locate [] e) j); [apply Hsub|discriminate].
    - exact Hi.
    - rewrite Hn. exact Hth. }
  split; [exact Hq'|]. split; [exact Hidx|].
  unfold metaOf. rewrite Hq'.
  assert (Hq2 : querySelector sel_tool e = Some t) by exact Hq.
  rewrite Hq2, Hidx, bool_decide_true by reflexivity.
  simpl negb. rewrite andb_false_r, app_nil_r. reflexivity.
Qed.

Lemma tools_label_is_thought_label_witness :
  metaOf
    (Element "div" []
       [Element "button" [] [Element "span" [("class", "truncate")] [Text "Thought for 3s"]];
        Element "button" [] [Element "span" [("class", "truncate")] [Text "2 tools used"]]])
  = ["Thought for 3s"].
Proof.
  pose proof (tools_label_is_thought_label
                (Element "div" []
                   [Element "button" []
                      [Element "span" [("class", "truncate")] [Text "Thought for 3s"]];
                    Element "button" []
                      [Element "span" [("class", "truncate")] [Text "2 tools used"]]])
                (Located ["button"; "div"]
                   (Element "span" [("class", "truncate")] [Text "Thought for 3s"]) [])
                eq_refl eq_refl) as (_ & _ & H).
  exact H.
Defined.

End MetaLabels.

(* ================================================================== *)
(** * The saved copy and the map *)
(* ================================================================== *)

Module SavedCopy.

Import Store.

Lemma same_records_refl (st : store) : same_records st st.
Proof.
  induction st as [|[k v] st IH]; constructor; [|exact IH].
  split; [reflexivity|apply ScanFacts.same_content_refl].
Qed.

Lemma same_records_trans (a b c : store) :
  same_records a b -> same_records b c -> same_records a c.
Proof.
  intros Hab. revert c. induction Hab as [|x y a b [Hk Hc] Hab IH]; intros c Hbc.
  - inversion Hbc. constructor.
  - inversion Hbc as [|y' z b' c' [Hk' Hc'] Hbc']; subst. constructor.
    + split; [congruence|eapply ScanFacts.same_content_trans; eassumption].
    + apply IH. exact Hbc'.
Qed.

Lemma same_records_count (a b : store) : same_records a b -> count a = count b.
Proof.
  intros H. unfold count, keys. rewrite !length_map.
  induction H; simpl; congruence.
Qed.

Lemma set_topPx_same (st : store) (k : string) (t : Z) :
  same_records st (set_topPx st k t).
Proof.
  induction st as [|[k' v] st IH]; simpl; [constructor|].
  destruct (String.eqb k' k).
  - constructor; [|apply same_records_refl]. split; [reflexivity|]. repeat split.
  - constructor; [|exact IH]. split; [reflexivity|apply ScanFacts.same_content_refl].
Qed.

Lemma scan_grows (parsed : list (option Message)) (st : store) (n : nat) :
  n <= snd (fold_left scan_step parsed (st, n)).
Proof.
  revert st n. induction parsed as [|[m|] parsed IH]; intros st n; simpl.
  - lia.
  - destruct (upsert st m) as [st' d]. specialize (IH st' (n + d)). lia.
  - apply IH.
Qed.

(** A scan that counts nothing new moves positions only. *)
Lemma scan_nothing_new (parsed : list (option Message)) (st : store) (n : nat) :
  snd (fold_left scan_step parsed (st, n)) = n ->
  same_records st (fst (fold_left scan_step parsed (st, n))).
Proof.
  revert st n. induction parsed as [|[m|] parsed IH]; intros st n; simpl.
  - intros _. apply same_records_refl.
  - rewrite StoreFacts.upsert_unfold.
    destruct (get st (id m)); [|destruct (inherited (id m))]; simpl.
    + rewrite Nat.add_0_r. intros H.
      eapply same_records_trans; [apply set_topPx_same|].
      apply IH. exact H.
    + rewrite Nat.add_0_r. apply IH.
    + intros H. pose proof (scan_grows parsed (create st (id m) m) (n + 1)). lia.
  - apply IH.
Qed.

Lemma scan_location (innerHTML : Dom.node -> string)
    (els : list Parser.Candidate) (w : World) :
  location (fst (scanVisibleMessages innerHTML els w)) = location w.
Proof.
  unfold scanVisibleMessages. destruct (scan _ _) as [st n]. simpl.
  destruct (0 <? n); [|reflexivity].
  unfold flushSave. destruct (pendingSave _); reflexivity.
Qed.

Lemma tick_idle (dt : nat) (w : World) :
  timers w = [] -> tick dt w = set_clock (clock w + dt) w.
Proof. intros Ht. unfold tick, set_clock. rewrite Ht. reflexivity. Qed.

Lemma in_step_tick (dt : nat) (w : World) : in_step w -> in_step (tick dt w).
Proof.
  unfold in_step. destruct (pendingSave w) eqn:Hp.
  - intros [d Hd]. destruct (Nat.le_gt_cases d (clock w + dt)) as [Hle|Hgt].
    + rewrite (Saving.tick_due dt d w Hd Hle). simpl. split; [reflexivity|].
      unfold loadMessages. simpl. rewrite lookup_insert_eq. apply same_records_refl.
    + rewrite (Saving.tick_early dt d w Hd Hgt). simpl. rewrite Hp. exists d. exact Hd.
  - intros [Ht Hs]. rewrite (tick_idle dt w Ht). simpl. rewrite Hp.
    split; [exact Ht|exact Hs].
Qed.

Lemma in_step_scan (innerHTML : Dom.node -> string)
    (els : list Parser.Candidate) (w : World) :
  in_step w -> in_step (fst (scanVisibleMessages innerHTML els w)).
Proof.
  unfold in_step. destruct (pendingSave w) eqn:Hp.
  - intros [d Hd]. rewrite (SaveFacts.scan_while_pending innerHTML els w Hp).
    simpl. rewrite Hp. exists d. exact Hd.
  - intros [Ht Hs]. unfold scanVisibleMessages.
    destruct (scan _ _) as [st n] eqn:E. simpl.
    destruct (0 <? n) eqn:En.
    + unfold flushSave. simpl. rewrite Hp, Ht. simpl. eexists. reflexivity.
    + simpl. rewrite Hp. split; [exact Ht|].
      apply Nat.ltb_ge in En. assert (n = 0) by lia. subst n.
      eapply same_records_trans; [exact Hs|].
      pose proof (scan_nothing_new (map (Parser.parseMessageElement innerHTML) els)
                    (capturedMessages w) 0) as H.
      unfold scan in E. rewrite E in H. apply H. reflexivity.
Qed.

Lemma in_step_scans (innerHTML : Dom.node -> string)
    (evs : list (nat * list Parser.Candidate)) (w : World) :
  in_step w ->
  in_step (scans innerHTML evs w)
  /\ location (scans innerHTML evs w) = location w.
Proof.
  revert w. unfold scans.
  induction evs as [|[gap els] evs IH]; intros w Hw; simpl; [split; [exact Hw|reflexivity]|].
  destruct (IH (scan_after innerHTML w (gap, els))) as [H1 H2].
  - unfold scan_after. simpl. apply in_step_scan, in_step_tick, Hw.
  - split; [exact H1|]. rewrite H2. unfold scan_after. simpl.
    rewrite scan_location. apply (Saving.tick_fields gap w).
Qed.

Lemma in_step_initialize (innerHTML : Dom.node -> string)
    (els : list Parser.Candidate) (w : World) :
  idle w -> in_step (initialize innerHTML els w).
Proof.
  intros [Hp Ht]. unfold initialize. apply in_step_scan.
  unfold in_step. simpl. rewrite Hp. split; [exact Ht|apply same_records_refl].
Qed.

(** While the write is in flight the flag is up, and scans change the
    map only. *)
Lemma scans_in_flight (innerHTML : Dom.node -> string)
    (during : list (list Parser.Candidate)) (w : World) :
  pendingSave w = true ->
  fold_left (fun w0 els => fst (scanVisibleMessages innerHTML els w0)) during w
  = set_captured (scanned innerHTML during (capturedMessages w)) w.
Proof.
  revert w. induction during as [|els during IH]; intros w Hp; simpl.
  - destruct w. reflexivity.
  - rewrite (SaveFacts.scan_while_pending innerHTML els w Hp).
    rewrite IH by exact Hp. simpl.
    destruct (Reobservation.scanVisibleMessages_store innerHTML els w) as [-> _].
    reflexivity.
Qed.

(** With no scan inside a write, time passes as [tick] has it. *)
Lemma tick_during_nil (innerHTML : Dom.node -> string) (dt : nat) (w : World) :
  tick_during innerHTML [] dt w = tick dt w.
Proof. reflexivity. Qed.

Lemma run_scans (innerHTML : Dom.node -> string) (evs : list timed_scan) (w : World) :
  Forall (fun ev => ts_during ev = []) evs ->
  run innerHTML evs w = scans innerHTML (map (fun ev => (ts_gap ev, ts_els ev)) evs) w.
Proof.
  intros Hall. revert w. induction Hall as [|ev evs Hev Hall IH]; intros w; [reflexivity|].
  unfold run, scans in *. simpl. rewrite <- IH.
  unfold run_step, scan_after. simpl. rewrite Hev, tick_during_nil. reflexivity.
Qed.

(** The saved copy follows the map as long as no scan runs while a write
    is in flight.  After activation and scans of which none runs inside
    a write, whenever no save is pending the saved copy that the popup
    reads for the tab holds the ids of the map of the page, in the same
    order, each with the same role, timestamp, markup and text (they
    differ in positions at most), and the count that the popup shows is
    the count of the page.  But the flag is lowered only when the write
    has completed: the scans that run while the write of a due save is
    in flight change the map and schedule nothing, so that afterwards no
    save is pending, no timer is set, and the popup reads, from then on,
    the map as it was when the write began. *)
Theorem saved_copy_follows_map (innerHTML : Dom.node -> string) (tabUrl : URL) :
  (forall (els : list Parser.Candidate) (evs : list timed_scan) (w : World),
     idle w ->
     pathname tabUrl = pathname (location w) ->
     Forall (fun ev => ts_during ev = []) evs ->
     pendingSave (run innerHTML evs (initialize innerHTML els w)) = false ->
     same_records
       (popup_getMessages tabUrl (run innerHTML evs (initialize innerHTML els w)))
       (capturedMessages (run innerHTML evs (initialize innerHTML els w)))
     /\ count (popup_getMessages tabUrl (run innerHTML evs (initialize innerHTML els w)))
        = count (capturedMessages (run innerHTML evs (initialize innerHTML els w))))
  /\ (forall (during : list (list Parser.Candidate)) (dt d : nat) (w : World),
        pathname tabUrl = pathname (location w) ->
        pendingSave w = true -> timers w = [d] -> d <= clock w + dt ->
        pendingSave (tick_during innerHTML during dt w) = false
        /\ timers (tick_during innerHTML during dt w) = []
        /\ writes (tick_during innerHTML during dt w) = writes w ++ [d]
        /\ capturedMessages (tick_during innerHTML during dt w)
           = scanned innerHTML during (capturedMessages w)
        /\ forall dt',
             popup_getMessages tabUrl (tick dt' (tick_during innerHTML during dt w))
             = capturedMessages w).
Proof.
  split.
  - intros els evs w Hidle Hpath Hall Hp.
    rewrite (run_scans innerHTML evs _ Hall) in *.
    set (tevs := map (fun ev => (ts_gap ev, ts_els ev)) evs) in *.
    destruct (in_step_scans innerHTML tevs _ (in_step_initialize innerHTML els w Hidle))
      as [Hstep Hloc].
    unfold in_step in Hstep. rewrite Hp in Hstep. destruct Hstep as [_ Hs].
    assert (Hkey : popup_getMessages tabUrl (scans innerHTML tevs (initialize innerHTML els w))
                   = loadMessages (scans innerHTML tevs (initialize innerHTML els w))).
    { unfold popup_getMessages, loadMessages, Popup.getThreadKey, Content.getThreadKey.
      rewrite Hloc. unfold initialize. rewrite scan_location. simpl.
      rewrite Hpath. reflexivity. }
    rewrite Hkey. split; [exact Hs|apply same_records_count; exact Hs].
  - intros during dt d w Hpath Hp Ht Hd.
    pose proof (ThreadKeys.same_path_same_key _ _ Hpath) as Hkey.
    assert (Hrun : tick_during innerHTML during dt w
                   = saveDone
                       (set_captured (scanned innerHTML during (capturedMessages w))
                          (saveStart
                             {| capturedMessages := capturedMessages w;
                                pendingSave := pendingSave w;
                                isAutoScrolling := isAutoScrolling w;
                                location := location w; storage := storage w;
                                clock := clock w + dt; timers := [];
                                writes := writes w |} d))).
    { unfold tick_during. rewrite Ht. simpl.
      destruct (d <=? clock w + dt) eqn:E; [|apply Nat.leb_gt in E; lia].
      simpl. unfold saveCallback_during.
      rewrite scans_in_flight by exact Hp. reflexivity. }
    rewrite Hrun. simpl.
    split; [reflexivity|]. split; [reflexivity|]. split; [reflexivity|].
    split; [reflexivity|]. intros dt'.
    rewrite tick_idle by reflexivity.
    unfold popup_getMessages. simpl. rewrite Hkey, lookup_insert_eq. reflexivity.
Qed.

Lemma saved_copy_follows_map_witness :
  pendingSave
    (tick_during (fun _ => EmptyString)
       [[Parser.mkCandidate (Dom.Element "div" [("data-message-id", "aimsg_2")] []) None]]
       400
       (mkWorld [("umsg_1", mkMessage "umsg_1" user "" 0 "" "")] true false
          (mkURL "lovable.dev" "/projects/p") ∅ 0 [400] []))
  = false
  /\ count
       (capturedMessages
          (tick_during (fun _ => EmptyString)
             [[Parser.mkCandidate (Dom.Element "div" [("data-message-id", "aimsg_2")] [])
                 None]]
             400
             (mkWorld [("umsg_1", mkMessage "umsg_1" user "" 0 "" "")] true false
                (mkURL "lovable.dev" "/projects/p") ∅ 0 [400] [])))
     = 2
  /\ popup_getMessages (mkURL "lovable.dev" "/projects/p")
       (tick 5000
          (tick_during (fun _ => EmptyString)
             [[Parser.mkCandidate (Dom.Element "div" [("data-message-id", "aimsg_2")] [])
                 None]]
             400
             (mkWorld [("umsg_1", mkMessage "umsg_1" user "" 0 "" "")] true false
                (mkURL "lovable.dev" "/projects/p") ∅ 0 [400] [])))
     = [("umsg_1", mkMessage "umsg_1" user "" 0 "" "")].
Proof.
  destruct (proj2 (saved_copy_follows_map (fun _ => EmptyString)
                     (mkURL "lovable.dev" "/projects/p"))
              [[Parser.mkCandidate (Dom.Element "div" [("data-message-id", "aimsg_2")] [])
                  None]]
              400 400
              (mkWorld [("umsg_1", mkMessage "umsg_1" user "" 0 "" "")] true false
                 (mkURL "lovable.dev" "/projects/p") ∅ 0 [400] [])
              eq_refl eq_refl eq_refl) as (Hflag & _ & _ & Hmap & Hread); [simpl; lia|].
  split; [exact Hflag|]. split; [rewrite Hmap; reflexivity|].
  exact (Hread 5000).
Defined.

End SavedCopy.

(* ================================================================== *)
(** * Clearing a thread *)
(* ================================================================== *)

Module Clearing.

Import Store.

Lemma parsed_seen (innerHTML : Dom.node -> string) (els : list Parser.Candidate)
    (c : Parser.Candidate) (m : Message) :
  In c els -> Parser.parseMessageElement innerHTML c = Some m ->
  In (id m) (seen (map (Parser.parseMessageElement innerHTML) els)).
Proof.
  intros Hin Hc. induction els as [|e els IH]; simpl in *; [contradiction|].
  destruct Hin as [->|Hin].
  - rewrite Hc. left. reflexivity.
  - apply in_or_app. right. apply IH. exact Hin.
Qed.

(** The removal of the popup and the time up to the listener, with no
    save pending. *)
Lemma removal_then_wait (tabUrl : URL) (gap : nat) (w : World) :
  idle w ->
  tick gap (popup_clearMessages tabUrl w)
  = set_clock (clock w + gap) (popup_clearMessages tabUrl w).
Proof.
  intros [_ Ht].
  rewrite (SavedCopy.tick_idle gap (popup_clearMessages tabUrl w)) by exact Ht.
  reflexivity.
Qed.

(** C4.  The clear of the popup, confirmed, for the thread that the page
    shows.  With the observer running and no save pending, the listener
    empties the map and its toast makes the observer scan the document:
    afterwards the map is the scan of the candidates into the empty map,
    so every message in the document whose id is no name of
    [Object.prototype] is in the map again; when the map is not empty, a
    save is pending, and 400 ms later the popup reads that map from
    storage.  With a save pending that falls due between the removal and
    the listener, the map of before the clear is written back, and the
    popup reads it from then on (shown with no candidate in the
    document, or no observer).  With no save pending and no candidate in
    the document (or no observer), the map stays empty and the record
    stays absent. *)
Theorem clear_is_undone_for_visible_messages (innerHTML : Dom.node -> string)
    (tabUrl : URL) :
  (forall (gap : nat) (els : list Parser.Candidate) (w : World),
     pathname tabUrl = pathname (location w) ->
     idle w ->
     capturedMessages (btn_clear_onclick innerHTML true tabUrl gap true els w)
     = fst (scan (map (Parser.parseMessageElement innerHTML) els) [])
     /\ (forall c m,
           In c els -> Parser.parseMessageElement innerHTML c = Some m ->
           inherited (id m) = false ->
           get (capturedMessages (btn_clear_onclick innerHTML true tabUrl gap true els w))
             (id m) <> None)
     /\ (0 < count (capturedMessages (btn_clear_onclick innerHTML true tabUrl gap true els w)) ->
         pendingSave (btn_clear_onclick innerHTML true tabUrl gap true els w) = true
         /\ popup_getMessages tabUrl
              (tick 400 (btn_clear_onclick innerHTML true tabUrl gap true els w))
            = capturedMessages (btn_clear_onclick innerHTML true tabUrl gap true els w)))
  /\ (forall (gap d : nat) (observing : bool) (els : list Parser.Candidate) (w : World),
        pathname tabUrl = pathname (location w) ->
        pendingSave w = true -> timers w = [d] -> d <= clock w + gap ->
        observing = false \/ els = [] ->
        capturedMessages (btn_clear_onclick innerHTML true tabUrl gap observing els w) = []
        /\ forall dt,
             popup_getMessages tabUrl
               (tick dt (btn_clear_onclick innerHTML true tabUrl gap observing els w))
             = capturedMessages w)
  /\ (forall (gap : nat) (observing : bool) (els : list Parser.Candidate) (w : World),
        pathname tabUrl = pathname (location w) ->
        idle w ->
        observing = false \/ els = [] ->
        forall dt,
          capturedMessages
            (tick dt (btn_clear_onclick innerHTML true tabUrl gap observing els w)) = []
          /\ storage (tick dt (btn_clear_onclick innerHTML true tabUrl gap observing els w))
               !! Popup.getThreadKey tabUrl = None
          /\ popup_getMessages tabUrl
               (tick dt (btn_clear_onclick innerHTML true tabUrl gap observing els w)) = []).
Proof.
  split; [|split].
  - intros gap els w Hpath Hidle.
    pose proof (ThreadKeys.same_path_same_key _ _ Hpath) as Hkey.
    unfold btn_clear_onclick, onClearMessages.
    rewrite (removal_then_wait tabUrl gap w Hidle).
    set (w0 := set_captured [] (set_clock (clock w + gap) (popup_clearMessages tabUrl w))).
    destruct (Reobservation.scanVisibleMessages_store innerHTML els w0) as [Hst Hn].
    change (capturedMessages w0) with ([] : store) in Hst, Hn.
    split; [exact Hst|]. split.
    + intros c m Hin Hc Hi. rewrite Hst.
      destruct (StoreFacts.scan_has (map (Parser.parseMessageElement innerHTML) els) [] 0 (id m))
        as [H|H]; [eapply parsed_seen; eassumption|exact H|congruence].
    + intros Hpos.
      assert (Hnew : 0 < snd (scanVisibleMessages innerHTML els w0)).
      { pose proof (ScanFacts.scan_count (map (Parser.parseMessageElement innerHTML) els) [] 0) as Hc.
        rewrite Hst in Hpos. rewrite Hn. unfold scan in *. simpl in Hc. lia. }
      assert (Hidle0 : idle w0) by (destruct Hidle as [Hp Ht]; split; assumption).
      destruct (SaveFacts.first_scan_schedules innerHTML els w0 Hidle0 Hnew)
        as (F1 & F2 & F3 & _ & F5 & F6).
      split; [exact F1|].
      rewrite (Saving.tick_due 400 (clock w0 + 400)); [|exact F2|rewrite F5; lia].
      unfold popup_getMessages. simpl. rewrite F3, F6. simpl.
      rewrite Hkey, lookup_insert_eq. reflexivity.
  - intros gap d observing els w Hpath Hp Ht Hd Hquiet.
    pose proof (ThreadKeys.same_path_same_key _ _ Hpath) as Hkey.
    unfold btn_clear_onclick, onClearMessages.
    rewrite (Saving.tick_due gap d (popup_clearMessages tabUrl w)); [|exact Ht|exact Hd].
    match goal with |- context [if observing then _ else ?w1] => set (w0 := w1) end.
    assert (Hsame : (if observing then fst (scanVisibleMessages innerHTML els w0) else w0) = w0).
    { destruct Hquiet as [->| ->]; [reflexivity|]. destruct observing; reflexivity. }
    cbv zeta. fold w0. rewrite Hsame.
    split; [reflexivity|]. intros dt.
    rewrite SavedCopy.tick_idle by reflexivity.
    unfold popup_getMessages. simpl. rewrite Hkey, lookup_insert_eq. reflexivity.
  - intros gap observing els w Hpath Hidle Hquiet dt.
    unfold btn_clear_onclick, onClearMessages.
    rewrite (removal_then_wait tabUrl gap w Hidle).
    set (w0 := set_captured [] (set_clock (clock w + gap) (popup_clearMessages tabUrl w))).
    assert (Hsame : (if observing then fst (scanVisibleMessages innerHTML els w0) else w0) = w0).
    { destruct Hquiet as [->| ->]; [reflexivity|]. destruct observing; reflexivity. }
    rewrite Hsame. destruct Hidle as [_ Ht].
    rewrite SavedCopy.tick_idle by exact Ht.
    unfold popup_getMessages. simpl. rewrite lookup_delete_eq.
    split; [reflexivity|]. split; reflexivity.
Qed.

Lemma clear_is_undone_for_visible_messages_witness :
  count
    (capturedMessages
       (btn_clear_onclick (fun _ => EmptyString) true (mkURL "lovable.dev" "/projects/p") 5 true
          [Parser.mkCandidate (Dom.Element "div" [("data-message-id", "umsg_1")] []) None]
          (mkWorld [("umsg_1", mkMessage "umsg_1" user "" 0 "" "");
                    ("aimsg_2", mkMessage "aimsg_2" ai "" 90 "" "")]
             false false (mkURL "lovable.dev" "/projects/p")
             {[ "lce_thread_L3Byb2plY3RzL3A_"
                := [("umsg_1", mkMessage "umsg_1" user "" 0 "" "");
                    ("aimsg_2", mkMessage "aimsg_2" ai "" 90 "" "")] ]}
             1000 [] [])))
  = 1
  /\ popup_getMessages (mkURL "lovable.dev" "/projects/p")
       (tick 400
          (btn_clear_onclick (fun _ => EmptyString) true (mkURL "lovable.dev" "/projects/p") 5
             true
             [Parser.mkCandidate (Dom.Element "div" [("data-message-id", "umsg_1")] []) None]
             (mkWorld [("umsg_1", mkMessage "umsg_1" user "" 0 "" "");
                       ("aimsg_2", mkMessage "aimsg_2" ai "" 90 "" "")]
                false false (mkURL "lovable.dev" "/projects/p")
                {[ "lce_thread_L3Byb2plY3RzL3A_"
                   := [("umsg_1", mkMessage "umsg_1" user "" 0 "" "");
                       ("aimsg_2", mkMessage "aimsg_2" ai "" 90 "" "")] ]}
                1000 [] [])))
     = [("umsg_1", mkMessage "umsg_1" user "" 0 "" "")].
Proof.
  destruct (proj1 (clear_is_undone_for_visible_messages (fun _ => EmptyString)
                     (mkURL "lovable.dev" "/projects/p"))
              5
              [Parser.mkCandidate (Dom.Element "div" [("data-message-id", "umsg_1")] []) None]
              (mkWorld [("umsg_1", mkMessage "umsg_1" user "" 0 "" "");
                        ("aimsg_2", mkMessage "aimsg_2" ai "" 90 "" "")]
                 false false (mkURL "lovable.dev" "/projects/p")
                 {[ "lce_thread_L3Byb2plY3RzL3A_"
                    := [("umsg_1", mkMessage "umsg_1" user "" 0 "" "");
                        ("aimsg_2", mkMessage "aimsg_2" ai "" 90 "" "")] ]}
                 1000 [] [])
              eq_refl (conj eq_refl eq_refl)) as (Hmap & _ & Hsave).
  assert (Hcount : count (fst (scan (map (Parser.parseMessageElement (fun _ => EmptyString))
                                  [Parser.mkCandidate
                                     (Dom.Element "div" [("data-message-id", "umsg_1")] [])
                                     None]) [])) = 1) by reflexivity.
  assert (Hval : fst (scan (map (Parser.parseMessageElement (fun _ => EmptyString))
                              [Parser.mkCandidate
                                 (Dom.Element "div" [("data-message-id", "umsg_1")] [])
                                 None]) [])
                 = [("umsg_1", mkMessage "umsg_1" user "" 0 "" "")]) by reflexivity.
  rewrite Hmap in Hsave. rewrite Hmap, Hcount.
  split; [reflexivity|].
  destruct Hsave as [_ Hread]; [rewrite Hcount; lia|].
  rewrite Hread. exact Hval.
Defined.

End Clearing.
